(** * files_sunat: discovery, classification and repackaging of SUNAT files

    A shallow embedding of [src/core/file_finder.py], [src/core/file_processor.py]
    and the [/find] and [/process] endpoints of [src/api/main.py], with the
    properties of the design document stated and settled against it.

    Conventions of the model
    - A Python [str] is a [string] of 8-bit characters (code points 0..255).
    - The platform is POSIX: [os.sep] is ["/"], [os.path.join], [basename],
      [isabs] are those of [posixpath].  Only [_parse_zip_path] takes the
      separator as an argument, because its drive-letter branch is about
      the other platform.
    - An exception is a value of [exn]; code that may raise runs in the
      state-and-exception monad [M]. *)

From Stdlib Require Import Strings.Ascii Strings.Byte Strings.String List Bool Arith Lia.
From stdpp Require Import base tactics option list strings gmap.

Set Warnings "-register-all".

Local Open Scope string_scope.
Local Open Scope list_scope.

(** ** Python runtime *)

Module Py.

(** The exceptions that the modelled code can meet. *)
Inductive exn : Type :=
| BadZipFile
| KeyError (key : string)
| IndexError
| OSError
| HTTPException (status_code : nat).

Inductive result (A : Type) : Type :=
| Ok (a : A)
| Raise (e : exn).
Arguments Ok {A} a.
Arguments Raise {A} e.

(** Statements run on a mutable store [S]; a raised exception keeps the
    mutations done so far. *)
Definition M (S A : Type) : Type := S -> result A * S.

Definition ret {S A} (a : A) : M S A := fun s => (Ok a, s).
Definition raise {S A} (e : exn) : M S A := fun s => (Raise e, s).
Definition bind {S A B} (c : M S A) (k : A -> M S B) : M S B :=
  fun s => match c s with
           | (Ok a, s') => k a s'
           | (Raise e, s') => (Raise e, s')
           end.
Definition get {S} : M S S := fun s => (Ok s, s).
Definition modify {S} (f : S -> S) : M S unit := fun s => (Ok tt, f s).
Definition lift {S A} (r : result A) : M S A := fun s => (r, s).

(** [try: c  except <catches>: h] *)
Definition try_except {S A} (c : M S A) (catches : exn -> bool)
    (h : exn -> M S A) : M S A :=
  fun s => match c s with
           | (Ok a, s') => (Ok a, s')
           | (Raise e, s') => if catches e then h e s' else (Raise e, s')
           end.

(** [for x in l: body x] *)
Definition for_each {S A} (body : A -> M S unit) : list A -> M S unit :=
  fix loop (l : list A) : M S unit :=
    match l with
    | [] => ret tt
    | x :: l' => bind (body x) (fun _ => loop l')
    end.

(** The same for code that has no store. *)
Definition and_then {A B} (r : result A) (k : A -> result B) : result B :=
  match r with
  | Ok a => k a
  | Raise e => Raise e
  end.

(** [l[i]] *)
Definition index {A} (l : list A) (i : nat) : result A :=
  match l !! i with
  | Some x => Ok x
  | None => Raise IndexError
  end.

Definition is_BadZipFile (e : exn) : bool :=
  match e with BadZipFile => true | _ => false end.
Definition is_KeyError (e : exn) : bool :=
  match e with KeyError _ => true | _ => false end.
Definition is_OSError (e : exn) : bool :=
  match e with OSError => true | _ => false end.
(** [except Exception] *)
Definition is_Exception (e : exn) : bool := true.

(** *** Characters *)

Definition chars : string -> list ascii := list_ascii_of_string.
Definition str : list ascii -> string := string_of_list_ascii.

Definition code (c : ascii) : nat := nat_of_ascii c.

Definition between (lo hi : nat) (c : ascii) : bool :=
  (lo <=? code c)%nat && (code c <=? hi)%nat.

Definition is_digit (c : ascii) : bool := between 48 57 c.
Definition is_upper (c : ascii) : bool := between 65 90 c.
Definition is_lower (c : ascii) : bool := between 97 122 c.

(** Case mapping of the letters A..Z and a..z. *)
Definition ascii_lower (c : ascii) : ascii :=
  if is_upper c then ascii_of_nat (code c + 32) else c.
Definition ascii_upper (c : ascii) : ascii :=
  if is_lower c then ascii_of_nat (code c - 32) else c.

(** [str.lower()] on code points 0..255: A..Z and the accented capitals
    192..222 (except the multiplication sign 215) move up by 32. *)
Definition lower_char (c : ascii) : ascii :=
  if is_upper c || (between 192 222 c && negb (code c =? 215)%nat)
  then ascii_of_nat (code c + 32) else c.

Definition lower (s : string) : string := str (map lower_char (chars s)).

(** *** [str] methods *)

Definition eqc (a b : ascii) : bool := Ascii.eqb a b.
Arguments eqc : simpl never.

(** [s.replace(a, b)] for one-character [a] and [b]. *)
Definition replace (a b : ascii) (s : string) : string :=
  str (map (fun c => if eqc c a then b else c) (chars s)).

(** [s.split(sep)] for a one-character separator: never empty. *)
Fixpoint split_chars (sep : ascii) (l : list ascii) : list (list ascii) :=
  match l with
  | [] => [[]]
  | c :: l' =>
      if eqc c sep then [] :: split_chars sep l'
      else match split_chars sep l' with
           | [] => [[c]]
           | w :: ws => (c :: w) :: ws
           end
  end.
Definition split (sep : ascii) (s : string) : list string :=
  map str (split_chars sep (chars s)).

(** [sep.join(parts)] *)
Fixpoint join (sep : string) (parts : list string) : string :=
  match parts with
  | [] => ""
  | [p] => p
  | p :: ps => p +:+ sep +:+ join sep ps
  end.

(** [s.lstrip(c)] *)
Fixpoint lstrip_chars (c : ascii) (l : list ascii) : list ascii :=
  match l with
  | x :: l' => if eqc x c then lstrip_chars c l' else l
  | [] => []
  end.
Definition lstrip (c : ascii) (s : string) : string :=
  str (lstrip_chars c (chars s)).

Fixpoint startswith_chars (p l : list ascii) : bool :=
  match p, l with
  | [], _ => true
  | a :: p', b :: l' => eqc a b && startswith_chars p' l'
  | _ :: _, [] => false
  end.
Definition startswith (s p : string) : bool :=
  startswith_chars (chars p) (chars s).
Definition endswith (s p : string) : bool :=
  startswith_chars (rev (chars p)) (rev (chars s)).

(** [len(s)] *)
Definition len (s : string) : nat := length (chars s).

(** *** [posixpath] *)

Definition os_sep : ascii := "/"%char.

(** [os.path.basename(p)]: what follows the last ["/"]. *)
Definition basename (p : string) : string :=
  match rev (split_chars os_sep (chars p)) with
  | w :: _ => str w
  | [] => p
  end.

(** [os.path.join(a, b)] for two components. *)
Definition path_join (a b : string) : string :=
  if startswith b "/" then b
  else if (len a =? 0)%nat || endswith a "/" then a +:+ b
  else a +:+ "/" +:+ b.

(** [os.path.dirname(p)]: the head up to the last ["/"], without its
    trailing slashes unless it is made of slashes only.  The work is
    done on the reversed path. *)
Fixpoint drop_tail_component (l : list ascii) : list ascii :=
  match l with
  | c :: l' => if eqc c os_sep then l else drop_tail_component l'
  | [] => []
  end.
Definition dirname (p : string) : string :=
  let head := drop_tail_component (rev (chars p)) in
  str (rev (match lstrip_chars os_sep head with
            | [] => head
            | stripped => stripped
            end)).

(** [os.path.isabs(p)] *)
Definition isabs (p : string) : bool := startswith p "/".

End Py.
Export Py.

Declare Scope py_scope.
Delimit Scope py_scope with py.
Notation "x <- c ;; k" := (bind c (fun x => k))
  (at level 20, c at level 99, k at level 200, only parsing) : py_scope.
Notation "c ;; k" := (bind c (fun _ => k))
  (at level 100, k at level 200, right associativity, only parsing) : py_scope.
Local Open Scope py_scope.

(** ** The [re] patterns of the registry

    The sixteen patterns use literals, counted character classes, one
    unbounded class, alternation, one optional non-capturing prefix and
    capturing groups that are never nested and never optional.  They are
    compiled with [re.IGNORECASE] and applied with [pattern.match], so the
    match is anchored at the start; [$] accepts the end of the string or a
    single newline just before it. *)

Module Re.

Inductive charclass : Type :=
| Digit        (* \d *)
| Upper        (* [A-Z] *)
| UpperDigit.  (* [A-Z0-9] *)

Definition in_class (k : charclass) (c : ascii) : bool :=
  match k with
  | Digit => is_digit c
  | Upper => is_upper c
  | UpperDigit => is_upper c || is_digit c
  end.

(** Under [re.IGNORECASE] a character is in a class when one of its
    case variants is. *)
Definition in_class_i (k : charclass) (c : ascii) : bool :=
  in_class k c || in_class k (ascii_upper c) || in_class k (ascii_lower c).

Inductive rx : Type :=
| Lit (s : string)                        (* literal text *)
| Rep (k : charclass) (lo hi : nat)       (* k{lo,hi}, greedy *)
| Plus (k : charclass)                    (* k+, greedy *)
| Alt (a b : rx)                          (* a|b *)
| Cat (a b : rx)                          (* ab *)
| Opt (a : rx).                           (* (?:a)?, greedy *)

Inductive piece : Type :=
| Cap (r : rx)      (* ( r ) *)
| NoCap (r : rx).

Definition pattern : Type := list piece.

Fixpoint prefix_i (p l : list ascii) : bool :=
  match p, l with
  | [], _ => true
  | a :: p', b :: l' => eqc (ascii_lower a) (ascii_lower b) && prefix_i p' l'
  | _ :: _, [] => false
  end.

(** Length of the longest prefix of [l] inside the class. *)
Fixpoint run (k : charclass) (l : list ascii) : nat :=
  match l with
  | c :: l' => if in_class_i k c then S (run k l') else 0
  | [] => 0
  end.

(** [hi, hi-1, ..., lo]: the greedy order of a counted repetition. *)
Fixpoint countdown (hi lo : nat) : list nat :=
  if (hi <? lo)%nat then []
  else match hi with
       | 0 => [0]
       | S h => hi :: countdown h lo
       end.

(** The numbers of characters that [r] can consume at the head of [l],
    in the order in which a backtracking matcher tries them. *)
Fixpoint rx_match (r : rx) (l : list ascii) : list nat :=
  match r with
  | Lit s => if prefix_i (chars s) l then [length (chars s)] else []
  | Rep k lo hi => countdown (Nat.min (run k l) hi) lo
  | Plus k => countdown (run k l) 1
  | Alt a b => rx_match a l ++ rx_match b l
  | Cat a b =>
      flat_map (fun n => map (Nat.add n) (rx_match b (drop n l)))
               (rx_match a l)
  | Opt a => rx_match a l ++ [0]
  end.

(** All the ways to match the pieces at the head of [l]: the groups
    captured and what is left of the input. *)
Fixpoint pieces_match (p : pattern) (l : list ascii)
    : list (list string * list ascii) :=
  match p with
  | [] => [([], l)]
  | Cap r :: p' =>
      flat_map (fun n =>
                  map (fun gr => (str (take n l) :: fst gr, snd gr))
                      (pieces_match p' (drop n l)))
               (rx_match r l)
  | NoCap r :: p' =>
      flat_map (fun n => pieces_match p' (drop n l)) (rx_match r l)
  end.

(** [$] without [re.MULTILINE]. *)
Definition at_end (l : list ascii) : bool :=
  match l with
  | [] => true
  | [c] => eqc c "010"%char
  | _ => false
  end.

(** [pattern.match(s)] followed by [.groups()]: [None] when there is no
    match. *)
Definition re_match (p : pattern) (s : string) : option (list string) :=
  fst <$> List.find (fun gr => at_end (snd gr)) (pieces_match p (chars s)).

End Re.
Export Re.

(** ** ZIP archives and the disk *)

Module Zip.

(** The content of a file, as [zipfile] sees it: bytes that
    [zipfile.ZipFile] rejects with [BadZipFile], or an archive with its
    members in [infolist()] order.  A member carries its name inside the
    archive and its own content, which may again be an archive. *)
Inductive blob : Type :=
| Bytes (raw : list Byte.byte)
| ZipData (infolist : list zipinfo)
with zipinfo : Type :=
| ZipInfo (zi_filename : string) (zi_data : blob).

Definition zi_filename (zi : zipinfo) : string :=
  match zi with ZipInfo n _ => n end.
Definition zi_data (zi : zipinfo) : blob :=
  match zi with ZipInfo _ d => d end.

(** [zip_info.is_dir()] *)
Definition is_dir (zi : zipinfo) : bool := endswith (zi_filename zi) "/".

(** [zipfile.ZipFile(file)] for reading. *)
Definition ZipFile (b : blob) : result (list zipinfo) :=
  match b with
  | ZipData infolist => Ok infolist
  | Bytes _ => Raise BadZipFile
  end.

(** [zf.read(name)]: [NameToInfo] keeps, for a name, the last member
    that carries it. *)
Definition zf_read (zf : list zipinfo) (name : string) : result blob :=
  match List.find (fun zi => String.eqb (zi_filename zi) name) (rev zf) with
  | Some zi => Ok (zi_data zi)
  | None => Raise (KeyError name)
  end.

(** What [os.walk] finds in a directory: its regular files and its
    sub-directories, in listing order. *)
Inductive dirtree : Type :=
| DirTree (files : list (string * blob)) (dirs : list (string * dirtree)).

(** [os.walk(top)], top-down: the pairs (root, files). *)
Fixpoint os_walk (top : string) (t : dirtree)
    : list (string * list (string * blob)) :=
  match t with
  | DirTree files dirs =>
      (top, files)
        :: flat_map (fun d => os_walk (path_join top (fst d)) (snd d)) dirs
  end.

Inductive fsobj : Type :=
| RegularFile (data : blob)
| Directory (tree : dirtree).

(** The disk: what is found at a path. *)
Abbreviation disk := (gmap string fsobj).

Definition isdir (d : disk) (p : string) : bool :=
  match d !! p with Some (Directory _) => true | _ => false end.
Definition exists_ (d : disk) (p : string) : bool :=
  match d !! p with Some _ => true | None => false end.

End Zip.
Export Zip.

(** ** src/core/file_finder.py *)

Module FileFinder.

(** A record of the result: a Python [dict] from keys to strings. *)
Abbreviation file_info := (gmap string string).

Definition digits (n : nat) : piece := Cap (Rep Digit n n).
Definition lit (s : string) : piece := NoCap (Lit s).
(** [(?:\d{11}-)?] *)
Definition ruc_prefix : piece := NoCap (Opt (Cat (Rep Digit 11 11) (Lit "-"))).
(** [-([A-Z0-9]{4})-(\d{1,8})\.] *)
Definition serie_correlativo : list piece :=
  [lit "-"; Cap (Rep UpperDigit 4 4); lit "-"; Cap (Rep Digit 1 8); lit "."].
Definition xml_zip_pdf : piece := Cap (Alt (Lit "xml") (Alt (Lit "zip") (Lit "pdf"))).
(** [_(\d{11})_(\d{13})_(\d{14})_(\d{9})\.(pdf)] *)
Definition operacion : list piece :=
  [digits 11; lit "_"; digits 13; lit "_"; digits 14; lit "_"; digits 9;
   lit "."; Cap (Lit "pdf")].

Definition PATRONES_ESTRUCTURADOS : list (string * (pattern * list string)) :=
  [ ("guia_remision",
     ([digits 11; lit "-09"] ++ serie_correlativo ++ [Cap (Alt (Lit "pdf") (Lit "xml"))],
      ["ruc"; "serie"; "correlativo"; "ext"]));
    ("reporte_planilla_zip",
     ([digits 11; lit "_"; NoCap (Plus Upper); lit "_"; digits 8; lit "."; Cap (Lit "zip")],
      ["ruc"; "periodo"; "ext"]));
    ("declaraciones_pagos",
     ([lit "DetalleDeclaraciones_"; digits 11; lit "_"; digits 14; lit "."; Cap (Lit "xlsx")],
      ["ruc"; "timestamp"; "ext"]));
    ("ficha_ruc",
     ([lit "reporteec_ficharuc_"; digits 11; lit "_"; digits 14; lit "."; Cap (Lit "pdf")],
      ["ruc"; "timestamp"; "ext"]));
    ("ingreso_recaudacion",
     (lit "ridetrac_" :: operacion,
      ["ruc"; "num_operacion"; "timestamp"; "id"; "ext"]));
    ("liberacion_fondos",
     (lit "rilf_" :: operacion,
      ["ruc"; "num_operacion"; "timestamp"; "id"; "ext"]));
    ("multa",
     ([lit "rmgen_"; digits 11; lit "_"; digits 3; lit "-"; digits 3; lit "-"; digits 7;
       lit "_"; digits 14; lit "_"; digits 9; lit "."; Cap (Lit "pdf")],
      ["ruc"; "cod1"; "cod2"; "num_multa"; "timestamp"; "id"; "ext"]));
    ("notificacion",
     ([lit "constancia_"; digits 14; lit "_"; digits 20; lit "_"; digits 13; lit "_";
       digits 9; lit "."; Cap (Lit "pdf")],
      ["timestamp"; "id_notif"; "num_operacion"; "id"; "ext"]));
    ("valores",
     ([lit "rvalores_"; digits 11; lit "_"; Cap (Rep UpperDigit 12 17); lit "_";
       digits 14; lit "_"; digits 9; lit "."; Cap (Lit "pdf")],
      ["ruc"; "num_valor"; "timestamp"; "id"; "ext"]));
    ("coactiva",
     (lit "recgen_" :: operacion,
      ["ruc"; "num_expediente"; "timestamp"; "id"; "ext"]));
    ("baja_oficio",
     ([lit "bod_"; digits 6; lit "_"; digits 11; lit "_"; digits 4; lit "."; Cap (Lit "pdf")],
      ["id_baja"; "ruc"; "periodo"; "ext"]));
    ("factura",
     ([ruc_prefix; Cap (Lit "01")] ++ serie_correlativo ++ [xml_zip_pdf],
      ["tipo_doc"; "serie"; "correlativo"; "ext"]));
    ("boleta",
     ([ruc_prefix; Cap (Lit "03")] ++ serie_correlativo ++ [xml_zip_pdf],
      ["tipo_doc"; "serie"; "correlativo"; "ext"]));
    ("nota_credito",
     ([ruc_prefix; Cap (Lit "07")] ++ serie_correlativo ++ [xml_zip_pdf],
      ["tipo_doc"; "serie"; "correlativo"; "ext"]));
    ("nota_debito",
     ([ruc_prefix; Cap (Lit "08")] ++ serie_correlativo ++ [xml_zip_pdf],
      ["tipo_doc"; "serie"; "correlativo"; "ext"]));
    ("recibo_honorarios",
     ([ruc_prefix; Cap (Lit "RHE")] ++ serie_correlativo ++ [Cap (Alt (Lit "xml") (Lit "pdf"))],
      ["tipo_doc"; "serie"; "correlativo"; "ext"])) ].

(** [for i, field in enumerate(fields): file_info[field] = groups[i]] *)
Fixpoint assign_fields (i : nat) (fields groups : list string)
    (info : file_info) : result file_info :=
  match fields with
  | [] => Ok info
  | field :: fields' =>
      match groups !! i with
      | Some g => assign_fields (S i) fields' groups (<[field := g]> info)
      | None => Raise IndexError
      end
  end.

(** The loop of [_analyze_filename] over the items of a registry. *)
Fixpoint first_match (registry : list (string * (pattern * list string)))
    (filename path : string) : result (option file_info) :=
  match registry with
  | [] => Ok None
  | (doc_type, (pattern, fields)) :: registry' =>
      match re_match pattern filename with
      | Some groups =>
          match assign_fields 0 fields groups
                  (<["path" := path]>
                     (<["filename" := filename]>
                        (<["classification" := doc_type]> ∅))) with
          | Ok file_info => Ok (Some file_info)
          | Raise e => Raise e
          end
      | None => first_match registry' filename path
      end
  end.

Definition _analyze_filename (filename path : string)
    : result (option file_info) :=
  first_match PATRONES_ESTRUCTURADOS filename path.

(** What [print] writes during discovery. *)
Inductive warning : Type :=
| InvalidNestedZip (nested_path : string)
| InvalidZipOnDisk (full_path : string).

(** The mutable objects of one run. *)
Record walk_state : Type := WalkState {
  found_files : list file_info;
  seen_filenames : gset string;
  stdout : list warning
}.

Definition print (w : warning) : M walk_state unit :=
  modify (fun s => WalkState (found_files s) (seen_filenames s) (stdout s ++ [w])).

(** The block shared by both walkers: flag the record against the
    names seen, remember a new name, append the record. *)
Definition flag_and_append (filename : string) (file_details : option file_info)
    : M walk_state unit :=
  match file_details with
  | Some file_details =>
      modify (fun s =>
        if decide (filename ∈ seen_filenames s) then
          WalkState (found_files s ++ [<["status" := "DUPLICADO"]> file_details])
                    (seen_filenames s) (stdout s)
        else
          WalkState (found_files s ++ [<["status" := "UNICO"]> file_details])
                    ({[filename]} ∪ seen_filenames s) (stdout s))
  | None => ret tt
  end.

(** The body of the loop of [_analyze_zip_recursively], for one member. *)
Fixpoint analyze_zip_member (zip_info : zipinfo) (current_path : string)
    {struct zip_info} : M walk_state unit :=
  match zip_info with
  | ZipInfo zname data =>
      if endswith zname "/" then ret tt
      else
        let filename := basename zname in
        let nested_path := current_path +:+ ":" +:+ zname in
        file_details <- lift (_analyze_filename filename nested_path) ;;
        flag_and_append filename file_details ;;
        if endswith (lower filename) ".zip" && negb (bool_decide (is_Some file_details))
        then
          try_except
            (match data with
             | ZipData nested_zip =>
                 for_each (fun zi => analyze_zip_member zi nested_path) nested_zip
             | Bytes _ => raise BadZipFile
             end)
            is_BadZipFile
            (fun _ => print (InvalidNestedZip nested_path))
        else ret tt
  end.

Definition _analyze_zip_recursively (zip_file : list zipinfo)
    (current_path : string) : M walk_state unit :=
  for_each (fun zip_info => analyze_zip_member zip_info current_path) zip_file.

(** The body of the inner loop of [find_files], for one file on disk. *)
Definition analyze_disk_file (root : string) (file : string * blob)
    : M walk_state unit :=
  let full_path := path_join root (fst file) in
  file_details <- lift (_analyze_filename (fst file) full_path) ;;
  flag_and_append (fst file) file_details ;;
  if endswith (lower (fst file)) ".zip" && negb (bool_decide (is_Some file_details))
  then
    try_except
      (zip_file <- lift (ZipFile (snd file)) ;;
       _analyze_zip_recursively zip_file full_path)
      is_BadZipFile
      (fun _ => print (InvalidZipOnDisk full_path))
  else ret tt.

Definition find_files_loop (search_path : string) (t : dirtree) : M walk_state unit :=
  for_each (fun rf => for_each (analyze_disk_file (fst rf)) (snd rf))
           (os_walk search_path t).

(** [find_files(search_path)]: the value returned (or the exception) and
    the final state of the run. *)
Definition find_files_run (d : disk) (search_path : string)
    : result (list file_info) * walk_state :=
  let s0 := WalkState [] ∅ [] in
  match d !! search_path with
  | Some (Directory t) =>
      (found_files <- (find_files_loop search_path t ;; get) ;;
       ret (FileFinder.found_files found_files)) s0
  | _ => (Ok [], s0)
  end.

Definition find_files (d : disk) (search_path : string) : result (list file_info) :=
  fst (find_files_run d search_path).

End FileFinder.
Export FileFinder.

(** ** src/core/file_processor.py *)

Module FileProcessor.

Notation "x <-? c ;; k" := (and_then c (fun x => k))
  (at level 20, c at level 99, k at level 200, only parsing).

(** [_parse_zip_path(full_path)] on a platform whose [os.sep] is [sep]. *)
Definition _parse_zip_path (sep : ascii) (full_path : string)
    : result (string * list string) :=
  let full_path := replace "\" "/" full_path in
  let parts := split ":" full_path in
  is_drive <-?
    (if (1 <? length parts)%nat then
       p0 <-? index parts 0 ;;
       if (len p0 =? 1)%nat then
         p1 <-? index parts 1 ;; Ok (startswith p1 "/")
       else Ok false
     else Ok false) ;;
  base_inner <-?
    (if is_drive : bool then
       drive <-? index parts 0 ;;
       let rest := lstrip "/" (join ":" (drop 1 parts)) in
       let rest_parts := split ":" rest in
       r0 <-? index rest_parts 0 ;;
       Ok (drive +:+ ":/" +:+ r0, drop 1 rest_parts)
     else
       p0 <-? index parts 0 ;;
       Ok (p0, drop 1 parts)) ;;
  Ok (replace "/" sep (fst base_inner), snd base_inner).

(** What the packager does to the disk, and its calls of the extractor,
    in the order in which they happen. *)
Inductive event : Type :=
| EvMakedirs (path : string)
| EvOpenArchive (path : string)
| EvExtract (inner_path_parts : list string)
| EvWriteMember (name : string) (data : blob)
| EvCloseArchive (path : string)
| EvRemove (path : string) (removed : bool)
| EvWriteLog (path : string).

Inductive log_line : Type :=
| LogDirectorioCreado (output_dir : string)
| LogProcesando (filename : string)
| LogAgregado (filename : string)
| LogNoEncontrado (base_path : string)
| LogExtraidoYAgregado (filename : string)
| LogNoContenedor (base_path : string)
| LogErrorProcesando (full_path : string) (e : exn)
| LogPaqueteCreado (output_zip_path : string)
| LogEliminando
| LogEliminado (file_path : string)
| LogErrorAlEliminar (file_path : string) (e : exn).

Inductive console_line : Type :=
| Warning (w : warning)
| InvalidZipFormat
| PathNotFoundInsideZip (name : string)
| LogGuardado (log_filepath : string)
| LogNoGuardado.

(** What the environment does to the output archive: the operations on
    it that fail with [OSError] (no space left, permission denied). *)
Record faults : Type := Faults {
  open_fails : bool;
  writestr_fails : string -> bool;
  close_fails : bool
}.

Definition no_faults : faults := Faults false (fun _ => false) false.

(** The store of one packaging: the disk, the members written into the
    open output archive, the log lines collected, the text written to
    the log file, the console, and the history of effects.  Of the log
    file the disk keeps that it is a regular file and no archive; its
    lines are in [log_file]. *)
Record pstate : Type := PState {
  fs : disk;
  final_zip : list zipinfo;
  log_lines : list log_line;
  log_file : option (string * list log_line);
  console : list console_line;
  trace : list event
}.

Definition set_fs (f : disk -> disk) : M pstate unit :=
  modify (fun s => PState (f (fs s)) (final_zip s) (log_lines s) (log_file s)
                          (console s) (trace s)).
Definition emit (e : event) : M pstate unit :=
  modify (fun s => PState (fs s) (final_zip s) (log_lines s) (log_file s)
                          (console s) (trace s ++ [e])).
Definition say (c : console_line) : M pstate unit :=
  modify (fun s => PState (fs s) (final_zip s) (log_lines s) (log_file s)
                          (console s ++ [c]) (trace s)).

(** The archive to read: a path on disk or bytes held in memory
    ([io.BytesIO]). *)
Inductive zip_source : Type :=
| OnDisk (path : string)
| InMemory (data : blob).

(** [zipfile.ZipFile(zip_path, 'r')] *)
Definition open_for_read (zip_path : zip_source) : M pstate (list zipinfo) :=
  s <- get ;;
  match zip_path with
  | OnDisk p =>
      match fs s !! p with
      | Some (RegularFile data) => lift (ZipFile data)
      | _ => raise OSError
      end
  | InMemory data => lift (ZipFile data)
  end.

(** [_extract_from_zip(zip_path, inner_path_parts)].  Both handlers
    print and raise the exception again. *)
Fixpoint _extract_from_zip (zip_path : zip_source) (inner_path_parts : list string)
    {struct inner_path_parts} : M pstate blob :=
  emit (EvExtract inner_path_parts) ;;
  try_except
    (try_except
       (zf <- open_for_read zip_path ;;
        match inner_path_parts with
        | [name] =>                       (* len(inner_path_parts) == 1 *)
            lift (zf_read zf name)
        | name :: rest =>
            nested_zip_data <- lift (zf_read zf name) ;;
            _extract_from_zip (InMemory nested_zip_data) rest
        | [] =>                           (* inner_path_parts[0] *)
            raise IndexError
        end)
       is_BadZipFile
       (fun e => say InvalidZipFormat ;; raise e))
    is_KeyError
    (fun e => name <- lift (index inner_path_parts 0) ;;
              say (PathNotFoundInsideZip name) ;; raise e).

(** [log_action(message)]: kept only when a log file was asked for. *)
Definition truthy (log_filepath : option string) : bool :=
  match log_filepath with
  | Some p => negb (len p =? 0)%nat
  | None => false
  end.
Definition log_action (log_filepath : option string) (message : log_line)
    : M pstate unit :=
  if truthy log_filepath then
    modify (fun s => PState (fs s) (final_zip s) (log_lines s ++ [message])
                            (log_file s) (console s) (trace s))
  else ret tt.

(** [ZipInfo(filename)] cuts the name at its first NUL character. *)
Fixpoint until_nul (l : list ascii) : list ascii :=
  match l with
  | c :: l' => if eqc c "000"%char then [] else c :: until_nul l'
  | [] => []
  end.
Definition zipinfo_filename (name : string) : string := str (until_nul (chars name)).

(** [zipfile.ZipFile(output_zip_path, 'w', ZIP_DEFLATED)]: the file is
    created or emptied; until the archive is closed it is not a
    readable archive. *)
Definition open_for_write (env : faults) (output_zip_path : string) : M pstate unit :=
  s <- get ;;
  if open_fails env || isdir (fs s) output_zip_path then raise OSError
  else
    emit (EvOpenArchive output_zip_path) ;;
    set_fs (fun d => <[output_zip_path := RegularFile (Bytes [])]> d) ;;
    modify (fun s => PState (fs s) [] (log_lines s) (log_file s) (console s) (trace s)).

(** [final_zip.writestr(filename, data)] *)
Definition writestr (env : faults) (filename : string) (data : blob) : M pstate unit :=
  if writestr_fails env filename then raise OSError
  else
    emit (EvWriteMember filename data) ;;
    modify (fun s => PState (fs s) (final_zip s ++ [ZipInfo (zipinfo_filename filename) data])
                            (log_lines s) (log_file s) (console s) (trace s)).

(** [final_zip.close()]: the central directory is written and the file
    becomes the archive of the members written. *)
Definition close_archive (env : faults) (output_zip_path : string) : M pstate unit :=
  if close_fails env then raise OSError
  else
    emit (EvCloseArchive output_zip_path) ;;
    s <- get ;;
    set_fs (fun d => <[output_zip_path := RegularFile (ZipData (final_zip s))]> d).

(** [with zipfile.ZipFile(...) as final_zip: body]: the archive is
    closed on every exit, and an exception of the body goes on. *)
Definition with_final_zip (env : faults) (output_zip_path : string)
    (body : M pstate unit) : M pstate unit :=
  open_for_write env output_zip_path ;;
  fun s => match body s with
           | (Ok _, s') => close_archive env output_zip_path s'
           | (Raise e, s') =>
               match close_archive env output_zip_path s' with
               | (Ok _, s'') => (Raise e, s'')
               | (Raise e', s'') => (Raise e', s'')
               end
           end.

(** [open(base_path, 'rb').read()] *)
Definition read_file (base_path : string) : M pstate blob :=
  s <- get ;;
  match fs s !! base_path with
  | Some (RegularFile data) => ret data
  | _ => raise OSError
  end.

(** [d[key]] *)
Definition getitem (d : file_info) (key : string) : result string :=
  match d !! key with
  | Some v => Ok v
  | None => Raise (KeyError key)
  end.

(** The body of the loop over [files_to_package]. *)
Definition package_one (env : faults) (log_filepath : option string)
    (info : file_info) : M pstate unit :=
  full_path <- lift (getitem info "path") ;;
  filename <- lift (getitem info "filename") ;;
  log_action log_filepath (LogProcesando filename) ;;
  try_except
    (base_inner <- lift (_parse_zip_path os_sep full_path) ;;
     let base_path := fst base_inner in
     let inner_paths := snd base_inner in
     s <- get ;;
     match inner_paths with
     | [] =>
         if exists_ (fs s) base_path then
           data <- read_file base_path ;;
           writestr env filename data ;;
           log_action log_filepath (LogAgregado filename)
         else log_action log_filepath (LogNoEncontrado base_path)
     | _ :: _ =>
         if exists_ (fs s) base_path then
           file_data <- _extract_from_zip (OnDisk base_path) inner_paths ;;
           writestr env filename file_data ;;
           log_action log_filepath (LogExtraidoYAgregado filename)
         else log_action log_filepath (LogNoContenedor base_path)
     end)
    is_Exception
    (fun e => log_action log_filepath (LogErrorProcesando full_path e)).

(** [os.remove(file_path)] inside its [try]: only a regular file can be
    removed. *)
Definition remove_one (log_filepath : option string) (file_path : string)
    : M pstate unit :=
  try_except
    (s <- get ;;
     match fs s !! file_path with
     | Some (RegularFile _) =>
         emit (EvRemove file_path true) ;;
         set_fs (fun d => delete file_path d) ;;
         log_action log_filepath (LogEliminado file_path)
     | _ => emit (EvRemove file_path false) ;; raise OSError
     end)
    is_OSError
    (fun e => log_action log_filepath (LogErrorAlEliminar file_path e)).

(** [create_zip_package], up to the line that reports the archive
    created: the output directory, the archive and its members. *)
Definition write_package (env : faults) (files_to_package : list file_info)
    (output_zip_path : string) (log_filepath : option string) : M pstate unit :=
  modify (fun s => PState (fs s) (final_zip s) [] (log_file s) (console s) (trace s)) ;;
  let output_dir := dirname output_zip_path in
  s <- get ;;
  (if negb (len output_dir =? 0)%nat && negb (exists_ (fs s) output_dir) then
     emit (EvMakedirs output_dir) ;;
     set_fs (fun d => <[output_dir := Directory (DirTree [] [])]> d) ;;
     log_action log_filepath (LogDirectorioCreado output_dir)
   else ret tt) ;;
  with_final_zip env output_zip_path
    (for_each (package_one env log_filepath) files_to_package) ;;
  log_action log_filepath (LogPaqueteCreado output_zip_path).

(** [with open(log_filepath, 'w') as log_f: ...] inside its [try]: the
    file is created or replaced by the text of the log; a path that
    cannot be opened for writing gives the message of the handler. *)
Definition write_log (log_filepath : string) : M pstate unit :=
  try_except
    (s <- get ;;
     if isdir (fs s) log_filepath then raise OSError
     else
       emit (EvWriteLog log_filepath) ;;
       set_fs (fun d => <[log_filepath := RegularFile (Bytes [])]> d) ;;
       modify (fun s => PState (fs s) (final_zip s) (log_lines s)
                               (Some (log_filepath, log_lines s)) (console s) (trace s)) ;;
       say (LogGuardado log_filepath))
    is_OSError
    (fun _ => say LogNoGuardado).

(** The rest of [create_zip_package]: the deletions, then the log
    file. *)
Definition delete_and_log (physical_files_to_delete : gset string)
    (log_filepath : option string) : M pstate unit :=
  (if bool_decide (physical_files_to_delete ≠ ∅) then
     log_action log_filepath LogEliminando ;;
     for_each (remove_one log_filepath) (elements physical_files_to_delete)
   else ret tt) ;;
  match log_filepath with
  | Some p => if truthy log_filepath then write_log p else ret tt
  | None => ret tt
  end.

Definition create_zip_package (env : faults) (files_to_package : list file_info)
    (physical_files_to_delete : gset string) (output_zip_path : string)
    (log_filepath : option string) : M pstate unit :=
  write_package env files_to_package output_zip_path log_filepath ;;
  delete_and_log physical_files_to_delete log_filepath.

End FileProcessor.
Export FileProcessor.

(** ** src/api/main.py *)

Module Api.

Record FindRequest : Type := { path : string }.

Record ProcessRequest : Type := {
  search_path : string;
  output_dir : string;
  delete_originals : bool
}.

Record find_response : Type := FindResponse {
  fr_search_path : string;
  fr_files_found : nat;
  fr_files : list file_info
}.

Inductive process_response : Type :=
| NoFilesFound
| NoUniqueFiles
| ProcessingComplete (files_found_in_scan unique_files_packaged : nat)
    (classification_stats : gmap string nat)
    (output_zip_file process_log_file : string).

(** [find_files(search_path)] run on the disk of the store; what it
    prints goes to the console. *)
Definition call_find_files (search_path : string) : M pstate (list file_info) :=
  s <- get ;;
  let run := find_files_run (fs s) search_path in
  for_each (fun w => say (Warning w)) (stdout (snd run)) ;;
  lift (fst run).

Definition find_endpoint (request : FindRequest) : M pstate find_response :=
  let search_path := path request in
  s <- get ;;
  if negb (isabs search_path) || negb (isdir (fs s) search_path)
  then raise (HTTPException 400)
  else
    try_except
      (found_files <- call_find_files search_path ;;
       ret (FindResponse search_path (length found_files) found_files))
      is_Exception
      (fun _ => raise (HTTPException 500)).

(** Step 2 of [process_endpoint]: the records to package and the
    physical files to delete. *)
Fixpoint prepare (all_found_files : list file_info)
    (files_to_package : list file_info) (physical_files_to_delete : gset string)
    : result (list file_info * gset string) :=
  match all_found_files with
  | [] => Ok (files_to_package, physical_files_to_delete)
  | info :: rest =>
      let files_to_package :=
        if bool_decide (info !! "status" = Some "UNICO")
        then files_to_package ++ [info] else files_to_package in
      and_then (getitem info "path") (fun p =>
      and_then (index (split ":" p) 0) (fun base_path =>
      prepare rest files_to_package ({[base_path]} ∪ physical_files_to_delete)))
  end.

(** [Counter(classifications_packaged)] *)
Definition Counter (l : list string) : gmap string nat :=
  fold_left (fun m c => <[c := S (default 0 (m !! c))]> m) l ∅.

(** [os.makedirs(p, exist_ok=True)] *)
Definition makedirs_exist_ok (p : string) : M pstate unit :=
  s <- get ;;
  match fs s !! p with
  | Some (Directory _) => ret tt
  | Some (RegularFile _) => raise OSError
  | None =>
      emit (EvMakedirs p) ;;
      set_fs (fun d => <[p := Directory (DirTree [] [])]> d)
  end.

(** [process_endpoint(request)]; [timestamp] is what
    [datetime.now().strftime("%Y%m%d_%H%M%S")] returns. *)
Definition process_endpoint (env : faults) (timestamp : string)
    (request : ProcessRequest) : M pstate process_response :=
  let search_path := search_path request in
  let output_dir := output_dir request in
  s <- get ;;
  if negb (isabs search_path) || negb (isdir (fs s) search_path)
  then raise (HTTPException 400)
  else if negb (isabs output_dir) || negb (isdir (fs s) output_dir)
  then raise (HTTPException 400)
  else
    try_except
      (all_found_files <- call_find_files search_path ;;
       match all_found_files with
       | [] => ret NoFilesFound
       | _ :: _ =>
           prepared <- lift (prepare all_found_files [] ∅) ;;
           let files_to_package := fst prepared in
           let physical_files_to_delete := snd prepared in
           match files_to_package with
           | [] => ret NoUniqueFiles
           | _ :: _ =>
               let total_unique_packaged := length files_to_package in
               let classifications_packaged :=
                 map (fun f => default "unknown" (f !! "classification"))
                     files_to_package in
               let stats_packaged := Counter classifications_packaged in
               let log_dir := "logs" in
               makedirs_exist_ok output_dir ;;
               makedirs_exist_ok log_dir ;;
               let zip_filename := "consolidado_" +:+ timestamp +:+ ".zip" in
               let output_zip_path := path_join output_dir zip_filename in
               let process_log_filename := "process_" +:+ timestamp +:+ ".txt" in
               let process_log_filepath := path_join log_dir process_log_filename in
               let files_for_deletion :=
                 if delete_originals request then physical_files_to_delete else ∅ in
               create_zip_package env files_to_package files_for_deletion
                 output_zip_path (Some process_log_filepath) ;;
               ret (ProcessingComplete (length all_found_files) total_unique_packaged
                      stats_packaged output_zip_path process_log_filepath)
           end
       end)
      is_Exception
      (fun _ => raise (HTTPException 500)).

End Api.
Export Api.

(** ** Building a disk from a directory tree *)

(** The regular files under [top], with their full paths, in the order of
    [os.walk]. *)
Definition walked_files (top : string) (t : dirtree) : list (string * blob) :=
  flat_map (fun rf => map (fun f => (path_join (fst rf) (fst f), snd f)) (snd rf))
           (os_walk top t).

(** A disk that holds the tree [t] at [top] and nothing else. *)
Definition mount (top : string) (t : dirtree) : disk :=
  <[top := Directory t]>
    (list_to_map (map (fun pf => (fst pf, RegularFile (snd pf))) (walked_files top t))).

Definition initial (d : disk) : pstate := PState d [] [] None [] [].

(** ** Vocabulary of the statements *)

(** The address has no [":"]. *)
Definition no_colon (s : string) : Prop := ":"%char ∉ chars s.

(** The shape of a drive-letter address: one character that is not a
    colon, then [":/"]. *)
Definition drive_shape (s : string) : Prop :=
  ∃ c tail, s = String c (":/" +:+ tail) ∧ c ≠ ":"%char.

(** The number of capturing groups of a pattern. *)
Fixpoint caps (p : pattern) : nat :=
  match p with
  | [] => 0
  | Cap _ :: p' => S (caps p')
  | NoCap _ :: p' => caps p'
  end.

(** The tag of a result of [_analyze_filename], if it has one. *)
Definition classification_of (r : result (option file_info)) : option string :=
  match r with
  | Ok (Some info) => info !! "classification"
  | _ => None
  end.

(** The name [filename] has no match in the entry [e] of a registry. *)
Definition no_match (filename : string) (e : string * (pattern * list string)) : Prop :=
  re_match (fst (snd e)) filename = None.

(** Two names that differ only by the case of the letters A..Z. *)
Definition same_up_to_case (a b : string) : Prop :=
  map ascii_lower (chars a) = map ascii_lower (chars b).

(** Every entry of the registry declares as many fields as its pattern
    has groups, all different and none of them a key of the record. *)
Definition entry_ok (e : string * (pattern * list string)) : Prop :=
  caps (fst (snd e)) = length (snd (snd e))
  ∧ NoDup (snd (snd e))
  ∧ ("classification" ∉ snd (snd e))
  ∧ ("filename" ∉ snd (snd e))
  ∧ ("path" ∉ snd (snd e))
  ∧ ("status" ∉ snd (snd e)).

(** The tag of the first entry of a registry that matches. *)
Fixpoint first_doc_type (registry : list (string * (pattern * list string)))
    (filename : string) : option string :=
  match registry with
  | [] => None
  | e :: registry' =>
      match re_match (fst (snd e)) filename with
      | Some _ => Some (fst e)
      | None => first_doc_type registry' filename
      end
  end.

Definition lower_ascii (s : string) : string := str (map ascii_lower (chars s)).

(** A command relates every store to the store it leaves, whether it
    returns or raises. *)
Definition steps {S A : Type} (R : S -> S -> Prop) (c : M S A) : Prop :=
  ∀ s, R s (snd (c s)).

(** The history grows by events that satisfy [P]. *)
Definition emits (P : event -> Prop) (s s' : pstate) : Prop :=
  ∃ t, trace s' = trace s ++ t ∧ Forall P t.

(** The disk is left as it was. *)
Definition same_disk (s s' : pstate) : Prop := fs s' = fs s.

(** The bytes of the final segment: the segments are read one inside the
    other, each but the last being an archive. *)
Inductive final_segment : list zipinfo -> list string -> blob -> Prop :=
| final_here zf name b :
    zf_read zf name = Ok b -> final_segment zf [name] b
| final_nested zf name nested rest b :
    zf_read zf name = Ok (ZipData nested) ->
    final_segment nested rest b ->
    final_segment zf (name :: rest) b.

(** The archive that [zipfile.ZipFile(zip_path)] opens on a disk. *)
Definition opens (d : disk) (zip_path : zip_source) (zf : list zipinfo) : Prop :=
  match zip_path with
  | OnDisk p => d !! p = Some (RegularFile (ZipData zf))
  | InMemory data => data = ZipData zf
  end.

(** A call of the extractor with at least one segment, or another event. *)
Definition call_has_segment (e : event) : Prop :=
  match e with
  | EvExtract [] => False
  | _ => True
  end.

Definition is_extract (e : event) : bool :=
  match e with
  | EvExtract _ => true
  | _ => false
  end.

(** ** A small disk for the examples

    [/d] holds an invoice, an archive and a sub-directory with a second
    file of the same name.  The archive holds a receipt in a folder, and
    an inner archive (whose name no pattern matches) with a credit note,
    bytes that are no archive under the name [bad.zip], a third level of
    archive with a debit note, and one more file named as the invoice. *)
Definition example_deep : list zipinfo :=
  [ZipInfo "08-F001-4.xml" (Bytes ["d"%byte])].

Definition example_inner : list zipinfo :=
  [ZipInfo "07-F001-3.xml" (Bytes ["c"%byte]);
   ZipInfo "bad.zip" (Bytes ["x"%byte]);
   ZipInfo "deep.zip" (ZipData example_deep);
   ZipInfo "01-F001-1.xml" (Bytes ["y"%byte])].

Definition example_pack : list zipinfo :=
  [ZipInfo "docs/03-B001-2.pdf" (Bytes ["b"%byte]);
   ZipInfo "docs/" (Bytes []);
   ZipInfo "inner.ZIP" (ZipData example_inner)].

Definition example_tree : dirtree :=
  DirTree [("01-F001-1.xml", Bytes ["a"%byte]); ("pack.zip", ZipData example_pack)]
          [("sub", DirTree [("01-F001-1.xml", Bytes ["z"%byte])] [])].

Definition example_disk : disk := mount "/d" example_tree.

Definition example_records : list file_info :=
  match find_files example_disk "/d" with
  | Ok records => records
  | Raise _ => []
  end.

(** The records of the example that are flagged [UNICO], in order: at
    depths 0, 1, 2 and 3. *)
Definition example_unique : list file_info :=
  List.filter (fun r => bool_decide (r !! "status" = Some "UNICO")) example_records.

(** The first of them: the invoice found on disk. *)
Definition example_invoice : file_info := default ∅ (example_unique !! 0).

(** ** The walk as a list of visits *)

(** [_analyze_filename] as a function that cannot raise (see
    [analyze_classify]). *)
Definition classify (filename path : string) : option file_info :=
  match _analyze_filename filename path with
  | Ok file_details => file_details
  | Raise _ => None
  end.

(** What the walker does at a node: it submits a name with its address
    to the classifier, or it reports an archive that does not open. *)
Inductive visit : Type :=
| Visit (filename path : string)
| Corrupt (w : warning).

Definition apply_visit (v : visit) : M walk_state unit :=
  match v with
  | Visit filename path => flag_and_append filename (classify filename path)
  | Corrupt w => print w
  end.

(** The name is that of an archive to open: it ends in [.zip] and no
    pattern matches it. *)
Definition to_open (filename path : string) : bool :=
  endswith (lower filename) ".zip" && negb (bool_decide (is_Some (classify filename path))).

Fixpoint member_visits (zip_info : zipinfo) (current_path : string) : list visit :=
  match zip_info with
  | ZipInfo zname data =>
      if endswith zname "/" then []
      else
        let filename := basename zname in
        let nested_path := current_path +:+ ":" +:+ zname in
        Visit filename nested_path
          :: (if to_open filename nested_path then
                match data with
                | ZipData nested_zip =>
                    flat_map (fun zi => member_visits zi nested_path) nested_zip
                | Bytes _ => [Corrupt (InvalidNestedZip nested_path)]
                end
              else [])
  end.

Definition zip_visits (zip_file : list zipinfo) (current_path : string) : list visit :=
  flat_map (fun zi => member_visits zi current_path) zip_file.

Definition disk_file_visits (root : string) (file : string * blob) : list visit :=
  let full_path := path_join root (fst file) in
  Visit (fst file) full_path
    :: (if to_open (fst file) full_path then
          match snd file with
          | ZipData zip_file => zip_visits zip_file full_path
          | Bytes _ => [Corrupt (InvalidZipOnDisk full_path)]
          end
        else []).

Definition tree_visits (search_path : string) (t : dirtree) : list visit :=
  flat_map (fun rf => flat_map (disk_file_visits (fst rf)) (snd rf))
           (os_walk search_path t).

(** ** Vocabulary of the deduplication *)

Definition has_filename (f : string) (r : file_info) : Prop := r !! "filename" = Some f.

#[global] Instance has_filename_dec f r : Decision (has_filename f r).
Proof. unfold has_filename. apply _. Defined.

(** Of the records of one name, in the order of the walk: the first is
    [UNICO], every other one is [DUPLICADO]. *)
Definition flagged_once (l : list file_info) : Prop :=
  match l with
  | [] => True
  | r :: others =>
      r !! "status" = Some "UNICO"
      ∧ Forall (fun r' => r' !! "status" = Some "DUPLICADO") others
  end.

(** The records and the set of names agree, and every name flagged is a
    name that classifies. *)
Definition dedup_invariant (s : walk_state) : Prop :=
  (∀ f, f ∈ seen_filenames s <-> ∃ r, r ∈ found_files s ∧ has_filename f r)
  ∧ (∀ f, flagged_once (filter (has_filename f) (found_files s)))
  ∧ (∀ f, f ∈ seen_filenames s -> ∀ p, is_Some (classify f p)).

(** ** Where the walker goes, in the words of the design

    [inside zf address f a]: in the archive [zf], found at [address], the
    walker submits the bare name [f] with the address [a].  It does so
    for every member that is no folder, with the address of the archive
    followed by [":"] and the path of the member; and it goes on inside
    a member whose name ends in [.zip], that no pattern matches and that
    opens, which then is the archive at the address of that member. *)
Inductive inside : list zipinfo -> string -> string -> string -> Prop :=
| inside_member zf address zname data :
    ZipInfo zname data ∈ zf ->
    endswith zname "/" = false ->
    inside zf address (basename zname) (address +:+ ":" +:+ zname)
| inside_nested zf address zname nested f a :
    ZipInfo zname (ZipData nested) ∈ zf ->
    endswith zname "/" = false ->
    endswith (lower (basename zname)) ".zip" = true ->
    classify (basename zname) (address +:+ ":" +:+ zname) = None ->
    inside nested (address +:+ ":" +:+ zname) f a ->
    inside zf address f a.

(** The same from the root: every file of the walk under its full path,
    and what is inside the files to open. *)
Inductive walked (search_path : string) (t : dirtree) : string -> string -> Prop :=
| walked_file root files name data :
    (root, files) ∈ os_walk search_path t ->
    (name, data) ∈ files ->
    walked search_path t name (path_join root name)
| walked_inside root files name zip_file f a :
    (root, files) ∈ os_walk search_path t ->
    (name, ZipData zip_file) ∈ files ->
    endswith (lower name) ".zip" = true ->
    classify name (path_join root name) = None ->
    inside zip_file (path_join root name) f a ->
    walked search_path t f a.

(** ** The two phases of the packaging *)

(** What the packager does while it writes: everything but a removal
    and the writing of the log file. *)
Definition writing_event (e : event) : Prop :=
  match e with
  | EvRemove _ _ | EvWriteLog _ => False
  | EvExtract [] => False
  | _ => True
  end.





(** ** Vocabulary of the deletion set *)


(** The path of the archive that [process_endpoint] writes. *)
Definition output_archive (request : ProcessRequest) (timestamp : string) : string :=
  path_join (output_dir request) ("consolidado_" +:+ timestamp +:+ ".zip").



Definition example_request : ProcessRequest :=
  {| search_path := "/d"; output_dir := "/d"; delete_originals := true |}.


(** ** Vocabulary of the round trip *)

(** The disk is left as it was, and the open archive grows by members
    whose names satisfy [Q]. *)
Definition appends (Q : string -> Prop) (s s' : pstate) : Prop :=
  fs s' = fs s
  ∧ ∃ l, final_zip s' = final_zip s ++ l ∧ Forall (fun zi => Q (zi_filename zi)) l.

(** The source bytes of an address resolved into [base] and [inner]: the
    file on disk when there is no segment, what [_extract_from_zip]
    returns otherwise. *)
Definition source_bytes (s : pstate) (base : string) (inner : list string) (b : blob)
    : Prop :=
  match inner with
  | [] => fs s !! base = Some (RegularFile b)
  | _ :: _ => fst (_extract_from_zip (OnDisk base) inner s) = Ok b
  end.

(** The deletions and the log leave alone what is neither a deletion
    target nor the log file. *)
Definition keeps_outside (del : gset string) (log_filepath : option string)
    (s s' : pstate) : Prop :=
  ∀ p, p ∉ del -> log_filepath ≠ Some p -> fs s' !! p = fs s !! p.

(** A character that is not NUL; a pattern whose literals have none. *)
Definition not_nul (c : ascii) : Prop := c ≠ "000"%char.

Fixpoint rx_literals (r : rx) : list ascii :=
  match r with
  | Lit s => chars s
  | Rep _ _ _ | Plus _ => []
  | Alt a b | Cat a b => rx_literals a ++ rx_literals b
  | Opt a => rx_literals a
  end.

Definition pattern_literals (p : pattern) : list ascii :=
  flat_map (fun x => match x with Cap r | NoCap r => rx_literals r end) p.

(** The four records of the example flagged [UNICO]: at depths 0, 1, 2
    and 3. *)
Definition example_at (i : nat) : file_info := default ∅ (example_unique !! i).

(** The records that [process_endpoint] packages. *)
Definition unique_records (records : list file_info) : list file_info :=
  filter (fun r : file_info => r !! "status" = Some "UNICO") records.


(** ** Vocabulary of the failures of the extractor *)

(** What [zipfile.ZipFile(zip_path)] is given to read: the content of
    the regular file at a path, or the bytes held in memory. *)
Definition content (d : disk) (zip_path : zip_source) : option blob :=
  match zip_path with
  | OnDisk p =>
      match d !! p with
      | Some (RegularFile data) => Some data
      | _ => None
      end
  | InMemory data => Some data
  end.

(** The message of the handler that a failure of the extractor goes
    through, at a level whose first segment is [name]. *)
Definition announced (e : exn) (name : string) : list console_line :=
  match e with
  | BadZipFile => [InvalidZipFormat]
  | KeyError _ => [PathNotFoundInsideZip name]
  | _ => []
  end.

(** ** Vocabulary of the log *)

(** The line that closes the account of a record in the log: the record
    was added, or it was not. *)
Definition added_line (filename : string) (m : log_line) : Prop :=
  m = LogAgregado filename ∨ m = LogExtraidoYAgregado filename.

Definition not_added_line (full_path : string) (m : log_line) : Prop :=
  (∃ base_path, m = LogNoEncontrado base_path ∨ m = LogNoContenedor base_path)
  ∨ ∃ e, m = LogErrorProcesando full_path e.

(** ** Vocabulary of the records without keys *)

(** The key that [create_zip_package] misses first in a record:
    ['path'], then ['filename']. *)
Definition missing_key (r : file_info) (key : string) : Prop :=
  (r !! "path" = None ∧ key = "path")
  ∨ (is_Some (r !! "path") ∧ r !! "filename" = None ∧ key = "filename").

(** ** Vocabulary of the answers of the endpoints *)

(** The path of the log that [process_endpoint] writes. *)
Definition process_log (timestamp : string) : string :=
  path_join "logs" ("process_" +:+ timestamp +:+ ".txt").

(** What makes [process_endpoint] answer 500 once it has records: a
    regular file in the place of the directory [logs], or an output
    archive that cannot be opened or closed. *)
Definition process_fails (env : faults) (d : disk) (out : string) : bool :=
  match d !! "logs" with Some (RegularFile _) => true | _ => false end
  || open_fails env || isdir d out || close_fails env.

(** ** Vocabulary of the names that classify *)

(** A letter, a digit, or one of [-], [_] and [.]. *)
Definition name_char (c : ascii) : bool :=
  is_digit c || is_upper c || is_lower c
  || eqc c "-" || eqc c "_" || eqc c ".".

(** The text [body], alone or followed by one newline. *)
Definition up_to_newline (s : string) (body : list ascii) : Prop :=
  chars s = body ∨ chars s = body ++ ["010"%char].

(** The newline character, and the text made of it. *)
Definition nl : ascii := "010"%char.
Definition newline : string := String nl "".

(** ** Vocabulary of the trees whose addresses can be read back *)

(** A text without colon and without backslash. *)
Definition clean_text (s : string) : bool :=
  forallb (fun c => negb (eqc c ":") && negb (eqc c "\")) (chars s).

(** In an archive, at every depth: member paths without colon or
    backslash, and no two members of one archive under the same path. *)
Fixpoint tidy_member (zi : zipinfo) : bool :=
  match zi with
  | ZipInfo zname data =>
      clean_text zname
      && match data with
         | Bytes _ => true
         | ZipData nested =>
             bool_decide (NoDup (map zi_filename nested))
             && (fix all (l : list zipinfo) : bool :=
                   match l with
                   | [] => true
                   | z :: l' => tidy_member z && all l'
                   end) nested
         end
  end.

Definition tidy_archive (zf : list zipinfo) : bool :=
  bool_decide (NoDup (map zi_filename zf)) && forallb tidy_member zf.

(** A file of the walk: a full path of two characters at least, without
    colon or backslash, and a content that is tidy when it is an
    archive. *)
Definition tidy_file (pf : string * blob) : bool :=
  clean_text (fst pf) && (2 <=? len (fst pf))%nat
  && match snd pf with
     | Bytes _ => true
     | ZipData zf => tidy_archive zf
     end.

Definition tidy_tree (search_path : string) (t : dirtree) : bool :=
  forallb tidy_file (walked_files search_path t).

(** The disk holds the files of the tree under their full paths. *)
Definition holds_tree (d : disk) (search_path : string) (t : dirtree) : Prop :=
  Forall (fun pf => d !! fst pf = Some (RegularFile (snd pf)))
         (walked_files search_path t).

(** The member [zi] holds the record [r] of the store [s]: it has its
    name, and the source bytes of its address. *)
Definition member_of_record (s : pstate) (r : file_info) (zi : zipinfo) : Prop :=
  ∃ filename full_path base inner,
    r !! "filename" = Some filename ∧ r !! "path" = Some full_path
    ∧ zi_filename zi = filename
    ∧ _parse_zip_path os_sep full_path = Ok (base, inner)
    ∧ source_bytes s base inner (zi_data zi).

(** ** Vocabulary of what a run does to the disk *)

(** Between two stores, every path is as it was, or is one that the
    run may write ([A]), or is a deletion target ([D]) that is gone. *)
Definition touches (A : string -> Prop) (D : gset string) (s s' : pstate) : Prop :=
  ∀ p, fs s' !! p = fs s !! p ∨ A p ∨ (p ∈ D ∧ fs s' !! p = None).

(** The paths that a packaging may write: the output archive, its
    directory and the log file. *)
Definition package_writes (out : string) (logp : option string) (p : string) : Prop :=
  p = out ∨ p = dirname out ∨ logp = Some p.


(** ** Vocabulary of what the log does not change *)



(** ** Vocabulary of the log of the removals *)


(** * Properties *)

(** ** Strings *)

Lemma chars_str (l : list ascii) : chars (str l) = l.
Proof. apply list_ascii_of_string_of_list_ascii. Qed.

Lemma str_chars (s : string) : str (chars s) = s.
Proof. apply string_of_list_ascii_of_string. Qed.

Lemma chars_app (a b : string) : chars (a +:+ b) = chars a ++ chars b.
Proof. induction a as [| c a IH]; simpl; [reflexivity | now rewrite IH]. Qed.

Lemma str_app (a b : list ascii) : str (a ++ b) = str a +:+ str b.
Proof. induction a as [| c a IH]; simpl; [reflexivity | now rewrite IH]. Qed.

Lemma chars_inj (a b : string) : chars a = chars b -> a = b.
Proof. intros H. rewrite <- (str_chars a), <- (str_chars b). now rewrite H. Qed.

Lemma eqc_true (a b : ascii) : eqc a b = true <-> a = b.
Proof. unfold eqc. apply Ascii.eqb_eq. Qed.

Lemma eqc_false (a b : ascii) : eqc a b = false <-> a ≠ b.
Proof. unfold eqc. apply Ascii.eqb_neq. Qed.

Lemma eqc_refl (a : ascii) : eqc a a = true.
Proof. now apply eqc_true. Qed.

(** [sep.join(parts)] on lists of characters. *)
Lemma chars_join (sep : string) (parts : list string) :
  chars (join sep parts)
  = match parts with
    | [] => []
    | p :: ps => chars p ++ flat_map (fun q => chars sep ++ chars q) ps
    end.
Proof.
  induction parts as [| p ps IH]; [reflexivity |].
  destruct ps as [| q ps].
  - simpl. now rewrite app_nil_r.
  - change (join sep (p :: q :: ps)) with (p +:+ sep +:+ join sep (q :: ps)).
    rewrite !chars_app, IH. simpl. now rewrite <- !app_assoc.
Qed.

Section Split.
Variable sep : ascii.

Lemma split_chars_cons (l : list ascii) :
  ∃ w ws, split_chars sep l = w :: ws.
Proof.
  induction l as [| c l (w & ws & IH)]; simpl; [eauto |].
  destruct (eqc c sep); [eauto |]. rewrite IH. eauto.
Qed.

Lemma split_chars_no_sep (l : list ascii) :
  sep ∉ l -> split_chars sep l = [l].
Proof.
  induction l as [| c l IH]; intros H; simpl; [reflexivity |].
  apply not_elem_of_cons in H as [Hc Hl].
  destruct (eqc c sep) eqn:E; [apply eqc_true in E; congruence |].
  now rewrite (IH Hl).
Qed.

Lemma split_chars_app (w l : list ascii) :
  sep ∉ w -> split_chars sep (w ++ sep :: l) = w :: split_chars sep l.
Proof.
  induction w as [| c w IH]; intros H; simpl.
  - now rewrite eqc_refl.
  - apply not_elem_of_cons in H as [Hc Hw].
    destruct (eqc c sep) eqn:E; [apply eqc_true in E; congruence |].
    now rewrite (IH Hw).
Qed.

(** The parts have no separator, and joined again they give the text. *)
Lemma split_chars_spec (l : list ascii) :
  ∃ w ws, split_chars sep l = w :: ws
          ∧ (sep ∉ w) ∧ Forall (fun v => sep ∉ v) ws
          ∧ l = w ++ flat_map (fun v => sep :: v) ws.
Proof.
  induction l as [| c l (w & ws & IH & Hw & Hws & Hl)]; simpl.
  - exists [], []. repeat split; [apply not_elem_of_nil | constructor].
  - destruct (eqc c sep) eqn:E.
    + apply eqc_true in E. subst c. exists [], (w :: ws). rewrite IH.
      repeat split; [apply not_elem_of_nil | now constructor |].
      simpl. now rewrite <- Hl.
    + apply eqc_false in E. rewrite IH. exists (c :: w), ws.
      repeat split; [| assumption | simpl; now rewrite <- Hl].
      apply not_elem_of_cons. split; [congruence | assumption].
Qed.
End Split.

Lemma split_parts (sep : ascii) (s : string) :
  ∃ p ps, split sep s = p :: ps
          ∧ (sep ∉ chars p) ∧ Forall (fun q => sep ∉ chars q) ps
          ∧ s = join (String sep "") (p :: ps).
Proof.
  destruct (split_chars_spec sep (chars s)) as (w & ws & E & Hw & Hws & Hl).
  exists (str w), (map str ws). unfold split. rewrite E. cbn [map].
  repeat split.
  - now rewrite chars_str.
  - apply Forall_map. eapply Forall_impl; [exact Hws |].
    intros v Hv. simpl. now rewrite chars_str.
  - apply chars_inj. rewrite chars_join, chars_str, Hl. f_equal.
    clear. induction ws as [| v ws IH]; simpl; [reflexivity |].
    now rewrite chars_str, IH.
Qed.

Lemma split_no_sep (sep : ascii) (s : string) :
  sep ∉ chars s -> split sep s = [s].
Proof.
  intros H. unfold split. rewrite (split_chars_no_sep _ _ H). simpl.
  now rewrite str_chars.
Qed.

Lemma chars_replace (a b : ascii) (s : string) :
  chars (replace a b s) = map (fun c => if eqc c a then b else c) (chars s).
Proof. unfold replace. apply chars_str. Qed.

Lemma replace_keeps_absent (a b x : ascii) (s : string) :
  x ≠ b -> x ∉ chars s -> x ∉ chars (replace a b s).
Proof.
  intros Hb H. rewrite chars_replace. intros Hin.
  apply list_elem_of_fmap in Hin as (c & Hc & Hin).
  destruct (eqc c a); [congruence | subst; contradiction].
Qed.

Lemma split_colon_cons (c : ascii) (s : string) :
  c ≠ ":"%char ->
  ∃ p ps, split ":" s = p :: ps ∧ split ":" (String c s) = String c p :: ps.
Proof.
  intros Hc. unfold split. simpl.
  destruct (eqc c ":") eqn:E; [apply eqc_true in E; congruence |].
  destruct (split_chars_cons ":" (chars s)) as (w & ws & Hs).
  rewrite Hs. exists (str w), (map str ws). now split.
Qed.

Lemma split_colon_here (s : string) :
  split ":" (String ":" s) = "" :: split ":" s.
Proof. reflexivity. Qed.

Lemma len_one (p : string) : (len p =? 1)%nat = true -> ∃ c, p = String c "".
Proof.
  destruct p as [| c [| d p]]; simpl; try discriminate. eauto.
Qed.

Lemma startswith_slash (p : string) :
  startswith p "/" = true <-> ∃ t, p = String "/" t.
Proof.
  unfold startswith. destruct p as [| c p]; simpl.
  - split; [discriminate | intros (t & Ht); discriminate].
  - rewrite andb_true_r. split.
    + intros H. apply eqc_true in H. subst c. eauto.
    + intros (t & Ht). injection Ht as <- _. apply eqc_refl.
Qed.

Lemma lstrip_cons (c : ascii) (s : string) : lstrip c (String c s) = lstrip c s.
Proof. unfold lstrip. simpl. now rewrite eqc_refl. Qed.

Lemma join_cons (sep p : string) (ps : list string) :
  join sep (p :: ps)
  = match ps with [] => p | _ :: _ => p +:+ sep +:+ join sep ps end.
Proof. destruct ps; reflexivity. Qed.

Lemma no_colon_cons (c : ascii) (s : string) :
  no_colon (String c s) <-> c ≠ ":"%char ∧ no_colon s.
Proof.
  unfold no_colon. simpl. rewrite not_elem_of_cons. intuition congruence.
Qed.

(** A text of drive shape splits into the letter and parts of which the
    first starts with a slash. *)
Lemma drive_shape_split (s : string) :
  drive_shape s ->
  ∃ c p1 ps, split ":" s = String c "" :: String "/" p1 :: ps.
Proof.
  intros (c & tail & -> & Hc).
  destruct (split_colon_cons c (":/" +:+ tail) Hc) as (p & ps & E1 & E2).
  rewrite E2. change (":/" +:+ tail) with (String ":" (String "/" tail)) in E1.
  rewrite split_colon_here in E1. injection E1 as <- <-.
  destruct (split_colon_cons "/" tail) as (q & qs & _ & E3); [discriminate |].
  rewrite E3. eauto.
Qed.

(** C8 (amended): the resolver never raises; it works on the address with
    every backslash turned into a slash; on a text of drive shape the
    physical path is the letter, [":/"] and the first colon-free part of
    what follows the leading slashes, otherwise it is the first
    colon-free part; the parts after it are the nesting segments, in
    order; in the physical path the slashes become the separator of the
    platform; an address without a colon has no segment. *)
Theorem parse_zip_path_resolves (sep : ascii) (address : string) :
  let n := replace "\" "/" address in
  ∃ base inner,
    _parse_zip_path sep address = Ok (replace "/" sep base, inner)
    ∧ Forall no_colon inner
    ∧ ((∃ c tail r0, n = String c (":/" +:+ tail) ∧ c ≠ ":"%char
                     ∧ no_colon r0 ∧ base = String c (":/" +:+ r0)
                     ∧ lstrip "/" tail = join ":" (r0 :: inner))
       ∨ (¬ drive_shape n ∧ no_colon base ∧ n = join ":" (base :: inner)))
    ∧ (no_colon address -> base = n ∧ inner = []).
Proof.
  intros n.
  destruct (split_parts ":" n) as (p0 & ps & E & Hp0 & Hps & Hn).
  unfold _parse_zip_path. fold n. rewrite E.
  assert (Hnc : no_colon address -> ps = []).
  { intros H. assert (Hn' : no_colon n).
    { apply replace_keeps_absent; [discriminate | exact H]. }
    rewrite (split_no_sep _ _ Hn') in E. now injection E. }
  assert (Hnd : ∀ c q qs, split ":" n = String c "" :: String "/" q :: qs ->
                          ¬ ((len p0 =? 1)%nat = true
                             ∧ ∃ p1 ps', ps = p1 :: ps' ∧ startswith p1 "/" = true) ->
                          False).
  { intros c q qs Hd Hno. rewrite E in Hd. injection Hd as -> ->. apply Hno.
    split; [reflexivity |]. eexists _, _. split; [reflexivity |].
    apply startswith_slash. eauto. }
  destruct ps as [| p1 ps'].
  - (* a single part *)
    exists p0, []. cbn [length Nat.ltb Nat.leb and_then index drop fst snd].
    split_and!; [reflexivity | constructor | | now rewrite Hn].
    right. split_and!; [| exact Hp0 | exact Hn].
    intros Hd. apply drive_shape_split in Hd as (c & q & qs & Hd).
    apply (Hnd _ _ _ Hd). intros (_ & ? & ? & ? & _). discriminate.
  - cbn [length Nat.ltb Nat.leb index lookup list_lookup and_then].
    destruct (len p0 =? 1)%nat eqn:Hlen; cbn [and_then];
      [destruct (startswith p1 "/") eqn:Hsl; cbn [and_then] |].
    + (* drive letter *)
      apply len_one in Hlen as (c & ->).
      apply startswith_slash in Hsl as (t & ->).
      cbn [drop].
      pose (tail := match ps' with
                    | [] => t
                    | _ :: _ => t +:+ ":" +:+ join ":" ps'
                    end).
      assert (Hj : join ":" (String "/" t :: ps') = String "/" tail).
      { rewrite join_cons. unfold tail. now destruct ps'. }
      rewrite Hj, lstrip_cons.
      destruct (split_parts ":" (lstrip "/" tail)) as (r0 & rs & Er & Hr0 & Hrs & Hrest).
      rewrite Er. cbn [index lookup list_lookup and_then drop fst snd].
      exists (String c (":/" +:+ r0)), rs. split_and!; [reflexivity | exact Hrs | |].
      * left. exists c, tail, r0. split_and!; try assumption; try reflexivity.
        -- rewrite Hn, join_cons, Hj. reflexivity.
        -- apply no_colon_cons in Hp0. tauto.
      * intros H. specialize (Hnc H). discriminate.
    + (* one character, but no slash after the colon *)
      exists p0, (p1 :: ps'). cbn [drop fst snd].
      split_and!; [reflexivity | assumption | |].
      * right. split_and!; [| exact Hp0 | exact Hn].
        intros Hd. apply drive_shape_split in Hd as (c & q & qs & Hd).
        apply (Hnd _ _ _ Hd). intros (_ & ? & ? & [= <- <-] & Hs). congruence.
      * intros H. specialize (Hnc H). discriminate.
    + exists p0, (p1 :: ps'). cbn [drop fst snd].
      split_and!; [reflexivity | assumption | |].
      * right. split_and!; [| exact Hp0 | exact Hn].
        intros Hd. apply drive_shape_split in Hd as (c & q & qs & Hd).
        apply (Hnd _ _ _ Hd). intros (Hl & _). congruence.
      * intros H. specialize (Hnc H). discriminate.
Qed.

(** C8, as stated, fails: on POSIX a backslash of the address does not
    survive, so the physical path is not the whole string. *)
Lemma parse_zip_path_not_whole_string :
  no_colon "a\b.pdf"
  ∧ _parse_zip_path "/" "a\b.pdf" = Ok ("a/b.pdf", [])
  ∧ _parse_zip_path "/" "a\b.pdf" ≠ Ok ("a\b.pdf", []).
Proof.
  split_and!; [| reflexivity | discriminate].
  unfold no_colon. cbn. rewrite !not_elem_of_cons.
  split_and!; try discriminate. apply not_elem_of_nil.
Qed.

(** ** The matcher *)

Lemma pieces_match_groups (p : pattern) :
  ∀ l gr, gr ∈ pieces_match p l -> length (fst gr) = caps p.
Proof.
  induction p as [| [r | r] p IH]; intros l gr Hin; simpl in Hin.
  - apply list_elem_of_singleton in Hin. now subst.
  - apply list_elem_of_In, in_flat_map in Hin as (n & _ & Hin).
    apply in_map_iff in Hin as (gr' & <- & Hin).
    apply list_elem_of_In, IH in Hin. simpl. now rewrite Hin.
  - apply list_elem_of_In, in_flat_map in Hin as (n & _ & Hin).
    apply list_elem_of_In, IH in Hin. exact Hin.
Qed.

Lemma re_match_groups (p : pattern) (s : string) (groups : list string) :
  re_match p s = Some groups -> length groups = caps p.
Proof.
  unfold re_match. intros H.
  destruct (List.find _ _) as [gr |] eqn:E; [| discriminate].
  injection H as <-. apply find_some in E as [E _].
  eapply pieces_match_groups. apply list_elem_of_In. exact E.
Qed.

(** ** The fields of a record *)

Lemma assign_fields_total (fields groups : list string) :
  ∀ i info, i + length fields <= length groups ->
            ∃ info', assign_fields i fields groups info = Ok info'.
Proof.
  induction fields as [| f fields IH]; intros i info Hlen; simpl in *; [eauto |].
  destruct (lookup_lt_is_Some_2 groups i) as [g Hg]; [lia |].
  rewrite Hg. apply IH. lia.
Qed.

Lemma assign_fields_lookup (fields groups : list string) :
  ∀ i info info', assign_fields i fields groups info = Ok info' ->
    NoDup fields ->
    (∀ j field, fields !! j = Some field -> info' !! field = groups !! (i + j))
    ∧ (∀ key, key ∉ fields -> info' !! key = info !! key).
Proof.
  induction fields as [| f fields IH]; intros i info info' H Hnd; simpl in H.
  - injection H as <-. split; [intros j field Hj; discriminate | reflexivity].
  - destruct (groups !! i) as [g |] eqn:Hg; [| discriminate].
    apply NoDup_cons in Hnd as [Hf Hnd].
    destruct (IH _ _ _ H Hnd) as [IH1 IH2]. split.
    + intros [| j] field Hj; simpl in Hj.
      * injection Hj as <-. rewrite (IH2 _ Hf), lookup_insert_eq.
        now rewrite Nat.add_0_r.
      * rewrite (IH1 _ _ Hj). f_equal. lia.
    + intros key Hkey. apply not_elem_of_cons in Hkey as [Hne Hkey].
      rewrite (IH2 _ Hkey). now apply lookup_insert_ne.
Qed.

Lemma registry_ok : Forall entry_ok PATRONES_ESTRUCTURADOS.
Proof.
  unfold entry_ok. apply (bool_decide_unpack _). vm_compute. exact I.
Qed.

(** What the loop of [_analyze_filename] returns on a registry whose
    entries are in order: the record of the first entry that matches. *)
Lemma first_match_spec (registry : list (string * (pattern * list string)))
    (filename path : string) :
  Forall entry_ok registry ->
  (Forall (no_match filename) registry ∧ first_match registry filename path = Ok None)
  ∨ (∃ pre doc_type pattern fields post groups info,
       registry = pre ++ (doc_type, (pattern, fields)) :: post
       ∧ Forall (no_match filename) pre
       ∧ re_match pattern filename = Some groups
       ∧ first_match registry filename path = Ok (Some info)
       ∧ info !! "classification" = Some doc_type
       ∧ info !! "filename" = Some filename
       ∧ info !! "path" = Some path
       ∧ info !! "status" = None
       ∧ length groups = length fields
       ∧ ∀ i field, fields !! i = Some field -> info !! field = groups !! i).
Proof.
  induction 1 as [| [doc_type [pattern fields]] registry Hok Hreg IH]; simpl.
  - left. split; [constructor | reflexivity].
  - destruct (re_match pattern filename) as [groups |] eqn:Hm.
    + right. destruct Hok as (Hcaps & Hnd & Hc & Hf & Hp & Hs). simpl in *.
      pose proof (re_match_groups _ _ _ Hm) as Hlen.
      destruct (assign_fields_total fields groups 0
                  (<["path" := path]> (<["filename" := filename]>
                     (<["classification" := doc_type]> ∅)))) as [info Hinfo];
        [simpl; lia |].
      rewrite Hinfo.
      destruct (assign_fields_lookup _ _ _ _ _ Hinfo Hnd) as [Hpos Hkeep].
      exists [], doc_type, pattern, fields, registry, groups, info.
      split_and!; try done; try congruence.
      * rewrite (Hkeep _ Hc). now simplify_map_eq.
      * rewrite (Hkeep _ Hf). now simplify_map_eq.
      * rewrite (Hkeep _ Hp). now simplify_map_eq.
      * rewrite (Hkeep _ Hs). now simplify_map_eq.
    + destruct IH as [[Hnone Hr] | (pre & d & p & f & post & g & info & -> & Hpre & Hrest)].
      * left. split; [constructor; assumption | assumption].
      * right. exists ((doc_type, (pattern, fields)) :: pre), d, p, f, post, g, info.
        split_and!; try tauto. constructor; assumption.
Qed.

(** In a list cut at its first matching entry the cut is unique. *)
Lemma first_match_unique (registry : list (string * (pattern * list string)))
    (filename : string) pre e post pre' e' post' :
  registry = pre ++ e :: post -> registry = pre' ++ e' :: post' ->
  Forall (no_match filename) pre -> Forall (no_match filename) pre' ->
  ¬ no_match filename e -> ¬ no_match filename e' ->
  pre = pre' ∧ e = e' ∧ post = post'.
Proof.
  intros -> . revert pre'. induction pre as [| x pre IH]; intros pre' E Hpre Hpre' He He'.
  - destruct pre' as [| x' pre']; simpl in E.
    + injection E as -> ->. done.
    + injection E as -> _. apply Forall_cons in Hpre' as [Hx _]. contradiction.
  - destruct pre' as [| x' pre']; simpl in E.
    + injection E as -> _. apply Forall_cons in Hpre as [Hx _]. contradiction.
    + injection E as <- E. apply Forall_cons in Hpre as [_ Hpre].
      apply Forall_cons in Hpre' as [_ Hpre'].
      destruct (IH _ E Hpre Hpre' He He') as (-> & -> & ->). done.
Qed.

(** ** Case *)

Lemma ascii_lower_idem (c : ascii) : ascii_lower (ascii_lower c) = ascii_lower c.
Proof. destruct c as [[] [] [] [] [] [] [] []]; reflexivity. Qed.

Lemma in_class_i_lower (k : charclass) (c : ascii) :
  in_class_i k (ascii_lower c) = in_class_i k c.
Proof. destruct k; destruct c as [[] [] [] [] [] [] [] []]; reflexivity. Qed.

Lemma newline_lower (c : ascii) : eqc (ascii_lower c) "010" = eqc c "010".
Proof. destruct c as [[] [] [] [] [] [] [] []]; reflexivity. Qed.

Lemma prefix_i_lower (p l : list ascii) :
  prefix_i p (map ascii_lower l) = prefix_i p l.
Proof.
  revert l. induction p as [| a p IH]; intros [| b l]; simpl; try reflexivity.
  now rewrite ascii_lower_idem, IH.
Qed.

Lemma run_lower (k : charclass) (l : list ascii) :
  run k (map ascii_lower l) = run k l.
Proof.
  induction l as [| c l IH]; simpl; [reflexivity |].
  now rewrite in_class_i_lower, IH.
Qed.

Lemma rx_match_lower (r : rx) :
  ∀ l, rx_match r (map ascii_lower l) = rx_match r l.
Proof.
  induction r as [s | k lo hi | k | a IHa b IHb | a IHa b IHb | a IHa];
    intros l; simpl.
  - now rewrite prefix_i_lower.
  - now rewrite run_lower.
  - now rewrite run_lower.
  - now rewrite IHa, IHb.
  - rewrite IHa. apply flat_map_ext. intros n.
    now rewrite skipn_map, IHb.
  - now rewrite IHa.
Qed.

Lemma at_end_lower (l : list ascii) : at_end (map ascii_lower l) = at_end l.
Proof.
  destruct l as [| c [| d l]]; simpl; try reflexivity. apply newline_lower.
Qed.

Lemma flat_map_map {A B C} (f : B -> list C) (g : A -> B) (l : list A) :
  flat_map f (map g l) = flat_map (fun x => f (g x)) l.
Proof. induction l as [| x l IH]; simpl; [reflexivity | now rewrite IH]. Qed.

Lemma map_flat_map {A B C} (f : B -> C) (g : A -> list B) (l : list A) :
  map f (flat_map g l) = flat_map (fun x => map f (g x)) l.
Proof.
  induction l as [| x l IH]; simpl; [reflexivity |]. now rewrite map_app, IH.
Qed.

(** Lowering the input lowers the groups and the rest, and nothing else. *)
Lemma pieces_match_lower (p : pattern) :
  ∀ l, pieces_match p (map ascii_lower l)
       = map (fun gr => (map lower_ascii (fst gr), map ascii_lower (snd gr)))
             (pieces_match p l).
Proof.
  induction p as [| [r | r] p IH]; intros l; simpl; [reflexivity | |].
  - rewrite rx_match_lower, map_flat_map. apply flat_map_ext. intros n.
    rewrite skipn_map, IH, !map_map. apply map_ext. intros gr. simpl.
    unfold lower_ascii at 2. now rewrite chars_str, firstn_map.
  - rewrite rx_match_lower, map_flat_map. apply flat_map_ext. intros n.
    now rewrite skipn_map, IH.
Qed.

Lemma find_map {A B} (f : A -> B) (P : B -> bool) (l : list A) :
  List.find P (map f l) = f <$> List.find (fun x => P (f x)) l.
Proof.
  induction l as [| x l IH]; simpl; [reflexivity |].
  destruct (P (f x)); [reflexivity | exact IH].
Qed.

Lemma find_same {A} (P Q : A -> bool) (l : list A) :
  (∀ x, P x = Q x) -> List.find P l = List.find Q l.
Proof.
  intros H. induction l as [| x l IH]; simpl; [reflexivity |].
  now rewrite H, IH.
Qed.

Lemma re_match_lower (p : pattern) (s : string) :
  re_match p (lower_ascii s) = map lower_ascii <$> re_match p s.
Proof.
  unfold re_match, lower_ascii at 1. rewrite chars_str, pieces_match_lower, find_map.
  simpl. rewrite <- !option_fmap_compose.
  rewrite (find_same _ (fun gr => at_end (snd gr)));
    [reflexivity | intros gr; apply at_end_lower].
Qed.

Lemma re_match_same_case (p : pattern) (a b : string) :
  same_up_to_case a b -> is_Some (re_match p a) -> is_Some (re_match p b).
Proof.
  intros Hab Ha.
  assert (E : lower_ascii a = lower_ascii b) by (unfold lower_ascii; now rewrite Hab).
  assert (H : is_Some (re_match p (lower_ascii b))).
  { rewrite <- E, re_match_lower. now apply fmap_is_Some. }
  rewrite re_match_lower in H. now apply fmap_is_Some in H.
Qed.

Lemma first_doc_type_same_case registry (a b : string) :
  same_up_to_case a b -> first_doc_type registry a = first_doc_type registry b.
Proof.
  intros Hab. induction registry as [| e registry IH]; simpl; [reflexivity |].
  destruct (re_match e.2.1 a) eqn:Ha, (re_match e.2.1 b) eqn:Hb; try done.
  - assert (is_Some (re_match e.2.1 b)) as [? ?]; [| congruence].
    eapply re_match_same_case; [exact Hab | eauto].
  - assert (is_Some (re_match e.2.1 a)) as [? ?]; [| congruence].
    eapply re_match_same_case; [symmetry; exact Hab | eauto].
Qed.

Lemma classification_first_doc_type registry (filename path : string) :
  Forall entry_ok registry ->
  classification_of (first_match registry filename path)
  = first_doc_type registry filename.
Proof.
  induction 1 as [| [doc_type [pattern fields]] registry Hok Hreg IH]; simpl;
    [reflexivity |].
  destruct (re_match pattern filename) as [groups |] eqn:Hm; [| exact IH].
  destruct (first_match_spec [(doc_type, (pattern, fields))] filename path)
    as [[Hno _] | (pre & d & p & f & post & g & info & E & _ & _ & Hfm & Hc & _)].
  - now constructor.
  - apply Forall_cons in Hno as [Hno _]. unfold no_match in Hno. simpl in Hno. congruence.
  - destruct pre as [| x [| y pre]]; try discriminate. injection E as <- <- <- <-.
    simpl in Hfm. rewrite Hm in Hfm.
    destruct (assign_fields _ _ _ _); [| discriminate].
    injection Hfm as ->. exact Hc.
Qed.

(** C9: [_analyze_filename] never raises; it returns [None] when no
    pattern of the registry matches; otherwise it returns the record of
    the first pattern, in the order of the registry, that matches, with
    the tag of that pattern, the name and the path, and with the i-th
    group of the match under the i-th field name of the pattern; the
    tag does not depend on the case of the letters of the name. *)
Theorem analyze_filename_first_match (filename path : string) :
  (∃ r, _analyze_filename filename path = Ok r)
  ∧ (Forall (no_match filename) PATRONES_ESTRUCTURADOS ->
     _analyze_filename filename path = Ok None)
  ∧ (∀ pre doc_type pattern fields post groups,
       PATRONES_ESTRUCTURADOS = pre ++ (doc_type, (pattern, fields)) :: post ->
       Forall (no_match filename) pre ->
       re_match pattern filename = Some groups ->
       ∃ info, _analyze_filename filename path = Ok (Some info)
               ∧ info !! "classification" = Some doc_type
               ∧ info !! "filename" = Some filename
               ∧ info !! "path" = Some path
               ∧ length groups = length fields
               ∧ ∀ i field, fields !! i = Some field -> info !! field = groups !! i)
  ∧ (∀ other, same_up_to_case other filename ->
       classification_of (_analyze_filename other path)
       = classification_of (_analyze_filename filename path)).
Proof.
  unfold _analyze_filename.
  pose proof (first_match_spec PATRONES_ESTRUCTURADOS filename path registry_ok) as Hspec.
  split_and!.
  - destruct Hspec as [[_ ->] | (? & ? & ? & ? & ? & ? & info & _ & _ & _ & -> & _)]; eauto.
  - intros Hnone.
    destruct Hspec as [[_ ->] | (pre & d & p & f & post & g & info & E & _ & Hm & _)];
      [reflexivity |].
    rewrite E in Hnone. apply Forall_app in Hnone as [_ Hnone].
    apply Forall_cons in Hnone as [Hnone _]. unfold no_match in Hnone. simpl in Hnone.
    congruence.
  - intros pre doc_type pattern fields post groups E Hpre Hm.
    destruct Hspec as [[Hnone _] | (pre' & d & p & f & post' & g & info & E' & Hpre' & Hm'
                                    & Hfm & Hc & Hf & Hp & _ & Hlen & Hpos)].
    + rewrite E in Hnone. apply Forall_app in Hnone as [_ Hnone].
      apply Forall_cons in Hnone as [Hnone _]. unfold no_match in Hnone. simpl in Hnone.
      congruence.
    + destruct (first_match_unique _ filename _ _ _ _ _ _ E E' Hpre Hpre')
        as (_ & [= <- <- <-] & _).
      * unfold no_match. simpl. congruence.
      * unfold no_match. simpl. congruence.
      * exists info. assert (g = groups) as -> by congruence. done.
  - intros other Hcase.
    rewrite !(classification_first_doc_type _ _ _ registry_ok).
    now apply first_doc_type_same_case.
Qed.

Lemma analyze_filename_first_match_witness :
  Forall (no_match "01-F001-12.xml") (take 11 PATRONES_ESTRUCTURADOS)
  ∧ re_match ([ruc_prefix; Cap (Lit "01")] ++ serie_correlativo ++ [xml_zip_pdf])
             "01-F001-12.xml" = Some ["01"; "F001"; "12"; "xml"]
  ∧ same_up_to_case "01-f001-12.XML" "01-F001-12.xml"
  ∧ (∃ info, _analyze_filename "01-F001-12.xml" "/d/01-F001-12.xml" = Ok (Some info)
             ∧ info !! "classification" = Some "factura"
             ∧ info !! "serie" = Some "F001")
  ∧ classification_of (_analyze_filename "01-f001-12.XML" "/d/01-F001-12.xml")
    = classification_of (_analyze_filename "01-F001-12.xml" "/d/01-F001-12.xml").
Proof.
  assert (Hpre : Forall (no_match "01-F001-12.xml") (take 11 PATRONES_ESTRUCTURADOS)).
  { repeat (constructor; [vm_compute; reflexivity |]). constructor. }
  assert (Hcase : same_up_to_case "01-f001-12.XML" "01-F001-12.xml")
    by (vm_compute; reflexivity).
  destruct (analyze_filename_first_match "01-F001-12.xml" "/d/01-F001-12.xml")
    as (_ & _ & Hfirst & Hci).
  destruct (Hfirst (take 11 PATRONES_ESTRUCTURADOS) "factura"
              ([ruc_prefix; Cap (Lit "01")] ++ serie_correlativo ++ [xml_zip_pdf])
              ["tipo_doc"; "serie"; "correlativo"; "ext"]
              (drop 12 PATRONES_ESTRUCTURADOS)
              ["01"; "F001"; "12"; "xml"] eq_refl Hpre eq_refl)
    as (info & Hr & Hc & _ & _ & _ & Hpos).
  split_and!; [exact Hpre | vm_compute; reflexivity | exact Hcase | | exact (Hci _ Hcase)].
  exists info. split_and!; [exact Hr | exact Hc |]. exact (Hpos 1 "serie" eq_refl).
Defined.

(** ** Commands and what they leave *)

Section Steps.
Context {S : Type} (R : S -> S -> Prop).
Hypothesis R_refl : ∀ s, R s s.
Hypothesis R_trans : ∀ a b c, R a b -> R b c -> R a c.

Lemma steps_ret {A} (a : A) : steps R (ret a).
Proof. intros s. apply R_refl. Qed.

Lemma steps_raise {A} (e : exn) : steps R (raise (A := A) e).
Proof. intros s. apply R_refl. Qed.

Lemma steps_lift {A} (r : result A) : steps R (lift r).
Proof. intros s. apply R_refl. Qed.

Lemma steps_get : steps R get.
Proof. intros s. apply R_refl. Qed.

Lemma steps_modify (f : S -> S) : (∀ s, R s (f s)) -> steps R (modify f).
Proof. intros H s. apply H. Qed.

Lemma steps_bind {A B} (c : M S A) (k : A -> M S B) :
  steps R c -> (∀ a, steps R (k a)) -> steps R (bind c k).
Proof.
  intros Hc Hk s. unfold bind. specialize (Hc s).
  destruct (c s) as [[a | e] s']; simpl in *; [| exact Hc].
  eapply R_trans; [exact Hc | apply Hk].
Qed.

Lemma steps_try_except {A} (c : M S A) catches (h : exn -> M S A) :
  steps R c -> (∀ e, steps R (h e)) -> steps R (try_except c catches h).
Proof.
  intros Hc Hh s. unfold try_except. specialize (Hc s).
  destruct (c s) as [[a | e] s']; simpl in *; [exact Hc |].
  destruct (catches e); [| exact Hc].
  eapply R_trans; [exact Hc | apply Hh].
Qed.

Lemma steps_for_each {A} (body : A -> M S unit) (l : list A) :
  (∀ x, x ∈ l -> steps R (body x)) -> steps R (for_each body l).
Proof.
  induction l as [| x l IH]; intros H; simpl; [apply steps_ret |].
  apply steps_bind; [apply H; left |].
  intros _. apply IH. intros y Hy. apply H. now right.
Qed.
End Steps.

Lemma emits_refl (P : event -> Prop) (s : pstate) : emits P s s.
Proof. exists []. split; [now rewrite app_nil_r | constructor]. Qed.

Lemma emits_same_trace (P : event -> Prop) (s s' : pstate) :
  trace s' = trace s -> emits P s s'.
Proof. intros H. exists []. split; [now rewrite app_nil_r | constructor]. Qed.

Lemma emits_trans (P : event -> Prop) (a b c : pstate) :
  emits P a b -> emits P b c -> emits P a c.
Proof.
  intros (t & Ht & Pt) (u & Hu & Pu). exists (t ++ u). split.
  - now rewrite Hu, Ht, app_assoc.
  - now apply Forall_app.
Qed.

Lemma same_disk_refl (s : pstate) : same_disk s s.
Proof. reflexivity. Qed.

Lemma same_disk_trans (a b c : pstate) : same_disk a b -> same_disk b c -> same_disk a c.
Proof. unfold same_disk. congruence. Qed.


(** One step in the proof of [steps R c] along the structure of the
    command [c]; [rfl] and [trs] prove that [R] is reflexive and
    transitive. *)
Ltac steps_with rfl trs :=
  lazymatch goal with
  | |- steps _ (ret _) => apply steps_ret; [rfl]
  | |- steps _ (raise _) => apply steps_raise; [rfl]
  | |- steps _ (lift _) => apply steps_lift; [rfl]
  | |- steps _ get => apply steps_get; [rfl]
  | |- steps _ (bind _ _) => apply steps_bind; [trs | | intros ?]
  | |- steps _ (try_except _ _ _) => apply steps_try_except; [trs | | intros ?]
  | |- steps _ (for_each _ _) => apply steps_for_each; [rfl | trs | intros ? ?]
  end.

Ltac emits_struct :=
  steps_with ltac:(intros; apply emits_refl) ltac:(intros ? ? ?; apply emits_trans).

Section PrimitiveEvents.
Variable P : event -> Prop.

Lemma emit_emits (e : event) : P e -> steps (emits P) (emit e).
Proof.
  intros H s. exists [e]. split; [reflexivity | now constructor].
Qed.

Lemma say_emits (c : console_line) : steps (emits P) (say c).
Proof. intros s. now apply emits_same_trace. Qed.

Lemma set_fs_emits (f : disk -> disk) : steps (emits P) (set_fs f).
Proof. intros s. now apply emits_same_trace. Qed.

Lemma log_action_emits logp (m : log_line) : steps (emits P) (log_action logp m).
Proof.
  unfold log_action. destruct (truthy logp); intros s; now apply emits_same_trace.
Qed.

Lemma open_for_read_emits zp : steps (emits P) (open_for_read zp).
Proof.
  unfold open_for_read. repeat emits_struct.
  destruct zp as [p | data]; [destruct (fs _ !! p) as [[|] |] |];
    intros s; apply emits_refl.
Qed.

Lemma read_file_emits p : steps (emits P) (read_file p).
Proof.
  unfold read_file. repeat emits_struct.
  destruct (fs _ !! p) as [[|] |]; intros s; apply emits_refl.
Qed.
End PrimitiveEvents.

(** The same, with the primitive commands that leave the history alone
    solved on the way. *)
Ltac emits_steps :=
  repeat lazymatch goal with
    | |- steps _ (open_for_read _) => apply open_for_read_emits
    | |- steps _ (read_file _) => apply read_file_emits
    | |- steps _ (say _) => apply say_emits
    | |- steps _ (set_fs _) => apply set_fs_emits
    | |- steps _ (log_action _ _) => apply log_action_emits
    | |- _ => emits_struct
    end.

(** ** The extractor *)

Lemma opens_open_for_read (s : pstate) zip_path zf :
  opens (fs s) zip_path zf -> open_for_read zip_path s = (Ok zf, s).
Proof.
  unfold opens, open_for_read, bind, get, lift.
  destruct zip_path as [p | data]; [intros -> | intros ->]; reflexivity.
Qed.

Lemma extract_unfold zip_path parts :
  _extract_from_zip zip_path parts
  = bind (emit (EvExtract parts)) (fun _ =>
    try_except
      (try_except
         (bind (open_for_read zip_path) (fun zf =>
          match parts with
          | [name] => lift (zf_read zf name)
          | name :: rest =>
              bind (lift (zf_read zf name)) (fun nested_zip_data =>
              _extract_from_zip (InMemory nested_zip_data) rest)
          | [] => raise IndexError
          end))
         is_BadZipFile
         (fun e => bind (say InvalidZipFormat) (fun _ => raise e)))
      is_KeyError
      (fun e => bind (lift (index parts 0)) (fun name =>
                bind (say (PathNotFoundInsideZip name)) (fun _ => raise e)))).
Proof. destruct parts; reflexivity. Qed.

Lemma extract_final_segment zf parts b :
  final_segment zf parts b ->
  ∀ s zip_path, opens (fs s) zip_path zf ->
                ∃ s', _extract_from_zip zip_path parts s = (Ok b, s')
                      ∧ fs s' = fs s.
Proof.
  induction 1 as [zf name b Hread | zf name nested rest b Hread Hrest IH];
    intros s zip_path Hopen; rewrite extract_unfold.
  - unfold bind at 1. simpl.
    set (s1 := PState _ _ _ _ _ _).
    assert (Hopen1 : opens (fs s1) zip_path zf) by exact Hopen.
    unfold try_except, bind. rewrite (opens_open_for_read _ _ _ Hopen1).
    unfold lift. rewrite Hread. eexists. split; reflexivity.
  - unfold bind at 1. simpl.
    set (s1 := PState _ _ _ _ _ _).
    assert (Hopen1 : opens (fs s1) zip_path zf) by exact Hopen.
    destruct (IH s1 (InMemory (ZipData nested)) eq_refl) as (s' & Hrun & Hfs).
    unfold try_except, bind. rewrite (opens_open_for_read _ _ _ Hopen1).
    inversion Hrest; subst; unfold lift; rewrite Hread, Hrun;
      (eexists; split; [reflexivity | exact Hfs]).
Qed.

Lemma extract_no_segment (s : pstate) zip_path zf :
  opens (fs s) zip_path zf ->
  fst (_extract_from_zip zip_path [] s) = Raise IndexError.
Proof.
  intros Hopen. rewrite extract_unfold. unfold bind at 1. simpl.
  set (s1 := PState _ _ _ _ _ _).
  assert (Hopen1 : opens (fs s1) zip_path zf) by exact Hopen.
  unfold try_except, bind. now rewrite (opens_open_for_read _ _ _ Hopen1).
Qed.

Lemma extract_emits (P : event -> Prop) parts :
  (∀ l, l ≠ [] -> P (EvExtract l)) ->
  parts ≠ [] -> ∀ zip_path, steps (emits P) (_extract_from_zip zip_path parts).
Proof.
  intros HP. induction parts as [| name rest IH]; intros Hne zip_path; [done |].
  rewrite extract_unfold. emits_steps.
  - apply emit_emits. now apply HP.
  - destruct rest as [| name' rest']; emits_steps. now apply IH.
Qed.

(** ** The packager *)

Lemma steps_bind_lift {S A B} (R : S -> S -> Prop) (r : result A) (k : A -> M S B) :
  (∀ s, R s s) -> (∀ a, r = Ok a -> steps R (k a)) -> steps R (bind (lift r) k).
Proof.
  intros Hrefl Hk s. unfold bind, lift. destruct r as [a | e]; [now apply Hk | apply Hrefl].
Qed.

Section PackagerEvents.
Variable P : event -> Prop.
Variable info : file_info.
Hypothesis P_extract : ∀ l, l ≠ [] -> P (EvExtract l).
Hypothesis P_write :
  ∀ name data, info !! "filename" = Some name -> P (EvWriteMember name data).

Lemma writestr_emits env name data :
  info !! "filename" = Some name -> steps (emits P) (writestr env name data).
Proof.
  intros Hname. unfold writestr. destruct (writestr_fails env name); emits_steps.
  - apply emit_emits. now apply P_write.
  - intros s. now apply emits_same_trace.
Qed.

Lemma package_one_emits env logp : steps (emits P) (package_one env logp info).
Proof.
  unfold package_one.
  apply steps_bind_lift; [apply emits_refl | intros full_path _].
  apply steps_bind_lift; [apply emits_refl | intros filename Hname].
  assert (En : info !! "filename" = Some filename).
  { unfold getitem in Hname. destruct (info !! "filename"); congruence. }
  clear Hname. emits_steps.
  destruct (snd _) as [| seg segs]; destruct (exists_ _ _); emits_steps;
    try now apply writestr_emits.
  now apply extract_emits.
Qed.
End PackagerEvents.

Section WholePackaging.
Variable P : event -> Prop.
Variable del : gset string.
Variable files : list file_info.
Hypothesis P_writing :
  ∀ e, call_has_segment e -> (∀ p b, e ≠ EvRemove p b) -> (∀ p, e ≠ EvWriteLog p) ->
       (∀ n d, e ≠ EvWriteMember n d) -> P e.
Hypothesis P_write :
  ∀ info name data, info ∈ files -> info !! "filename" = Some name ->
                    P (EvWriteMember name data).

Lemma open_for_write_emits env out : steps (emits P) (open_for_write env out).
Proof.
  unfold open_for_write. emits_steps.
  destruct (_ || _); emits_steps.
  - apply emit_emits. now apply P_writing.
  - intros s. now apply emits_same_trace.
Qed.

Lemma close_archive_emits env out : steps (emits P) (close_archive env out).
Proof.
  unfold close_archive. destruct (close_fails env); emits_steps.
  apply emit_emits. now apply P_writing.
Qed.

Lemma with_final_zip_emits env out (body : M pstate unit) :
  steps (emits P) body -> steps (emits P) (with_final_zip env out body).
Proof.
  intros Hbody. unfold with_final_zip. emits_steps; [apply open_for_write_emits |].
  intros s. specialize (Hbody s).
  pose proof (close_archive_emits env out (snd (body s))) as Hclose.
  destruct (body s) as [[[] | e] s']; simpl in *.
  - eapply emits_trans; eassumption.
  - destruct (close_archive env out s') as [[[] | e'] s'']; simpl in *;
      eapply emits_trans; eassumption.
Qed.

Lemma write_package_emits env out logp :
  steps (emits P) (write_package env files out logp).
Proof.
  unfold write_package. emits_steps.
  - intros s. now apply emits_same_trace.
  - destruct (_ && _); emits_steps. apply emit_emits. now apply P_writing.
  - apply with_final_zip_emits. emits_steps.
    apply package_one_emits;
      [intros [| ? ?] ?; [done | now apply P_writing] | intros; eapply P_write; eauto].
Qed.

Hypothesis P_remove : ∀ p b, p ∈ del -> P (EvRemove p b).
Hypothesis P_log : ∀ p, P (EvWriteLog p).

Lemma remove_one_emits logp p : p ∈ del -> steps (emits P) (remove_one logp p).
Proof.
  intros Hp. unfold remove_one. emits_steps.
  destruct (fs _ !! p) as [[|] |]; emits_steps; apply emit_emits; now apply P_remove.
Qed.

Lemma delete_and_log_emits logp : steps (emits P) (delete_and_log del logp).
Proof.
  unfold delete_and_log. emits_steps.
  - destruct (bool_decide _); emits_steps. apply remove_one_emits.
    now apply elem_of_elements.
  - destruct logp as [p |]; [destruct (truthy _) |]; emits_steps.
    unfold write_log. emits_steps. destruct (isdir _ _); emits_steps.
    + now apply emit_emits.
    + intros s. now apply emits_same_trace.
Qed.

Lemma create_zip_package_emits env out logp :
  steps (emits P) (create_zip_package env files del out logp).
Proof.
  unfold create_zip_package. emits_steps;
    [apply write_package_emits | apply delete_and_log_emits].
Qed.
End WholePackaging.

Lemma log_action_run logp (m : log_line) (s : pstate) :
  ∃ s', log_action logp m s = (Ok tt, s')
        ∧ fs s' = fs s ∧ final_zip s' = final_zip s ∧ trace s' = trace s.
Proof.
  unfold log_action. destruct (truthy logp); eexists; split_and!; reflexivity.
Qed.

(** A record without nesting segment: the file is read from disk and
    written under the name of the record, and the extractor is not
    called. *)
Lemma package_one_direct env logp (info : file_info) full_path filename base data
    (s : pstate) :
  info !! "path" = Some full_path ->
  info !! "filename" = Some filename ->
  _parse_zip_path os_sep full_path = Ok (base, []) ->
  fs s !! base = Some (RegularFile data) ->
  writestr_fails env filename = false ->
  ∃ s', package_one env logp info s = (Ok tt, s')
        ∧ final_zip s' = final_zip s ++ [ZipInfo (zipinfo_filename filename) data]
        ∧ trace s' = trace s ++ [EvWriteMember filename data]
        ∧ fs s' = fs s.
Proof.
  intros Hpath Hname Hparse Hfile Hw.
  unfold package_one, getitem. rewrite Hpath, Hname.
  unfold bind at 1 2. unfold lift at 1 2.
  unfold bind at 1.
  destruct (log_action_run logp (LogProcesando filename) s) as (s1 & -> & Hl2 & Hl3 & Hl4).
  unfold try_except, bind, lift, get. rewrite Hparse. simpl.
  unfold exists_, read_file, bind, get, ret. rewrite Hl2, Hfile.
  unfold writestr. rewrite Hw. unfold bind, emit, modify. simpl.
  rewrite Hl2, Hfile. simpl.
  match goal with |- context [log_action logp ?m ?t] =>
    destruct (log_action_run logp m t) as (s2 & -> & Ha2 & Ha3 & Ha4) end.
  exists s2. simpl in *. rewrite Ha2, Ha3, Ha4, Hl3, Hl4. done.
Qed.

(** C10: on an archive that opens, the extractor returns the bytes of
    the final segment when the segments, one at least, lead to it, and
    raises [IndexError] when there is no segment; every call of the
    extractor made by the packager, the recursive ones included, has at
    least one segment; a record whose address has no segment is read
    from disk and written as it is. *)
Theorem extractor_needs_a_segment :
  (∀ (s : pstate) zip_path zf parts b,
     opens (fs s) zip_path zf -> final_segment zf parts b ->
     fst (_extract_from_zip zip_path parts s) = Ok b)
  ∧ (∀ (s : pstate) zip_path zf,
       opens (fs s) zip_path zf ->
       fst (_extract_from_zip zip_path [] s) = Raise IndexError)
  ∧ (∀ env files del out logp (s : pstate),
       emits call_has_segment s (snd (create_zip_package env files del out logp s)))
  ∧ (∀ env logp (info : file_info) full_path filename base data (s : pstate),
       info !! "path" = Some full_path ->
       info !! "filename" = Some filename ->
       _parse_zip_path os_sep full_path = Ok (base, []) ->
       fs s !! base = Some (RegularFile data) ->
       writestr_fails env filename = false ->
       trace (snd (package_one env logp info s))
       = trace s ++ [EvWriteMember filename data]).
Proof.
  split_and!.
  - intros s zip_path zf parts b Hopen Hfinal.
    destruct (extract_final_segment _ _ _ Hfinal s zip_path Hopen) as (s' & -> & _).
    reflexivity.
  - intros s zip_path zf. apply extract_no_segment.
  - intros env files del out logp. apply create_zip_package_emits; intros; now auto.
  - intros env logp info full_path filename base data s H1 H2 H3 H4 H5.
    now destruct (package_one_direct env logp info _ _ _ _ s H1 H2 H3 H4 H5)
      as (s' & -> & _ & ? & _).
Qed.

Lemma extractor_needs_a_segment_witness :
  opens example_disk (OnDisk "/d/pack.zip") example_pack
  ∧ final_segment example_pack ["inner.ZIP"; "07-F001-3.xml"] (Bytes ["c"%byte])
  ∧ fst (_extract_from_zip (OnDisk "/d/pack.zip") ["inner.ZIP"; "07-F001-3.xml"]
           (initial example_disk)) = Ok (Bytes ["c"%byte])
  ∧ fst (_extract_from_zip (OnDisk "/d/pack.zip") [] (initial example_disk))
    = Raise IndexError
  ∧ trace (snd (package_one no_faults None example_invoice (initial example_disk)))
    = [EvWriteMember "01-F001-1.xml" (Bytes ["a"%byte])].
Proof.
  assert (Hopen : opens example_disk (OnDisk "/d/pack.zip") example_pack)
    by (vm_compute; reflexivity).
  assert (Hfinal : final_segment example_pack ["inner.ZIP"; "07-F001-3.xml"]
                     (Bytes ["c"%byte])).
  { apply final_nested with (nested := example_inner); [vm_compute; reflexivity |].
    apply final_here. vm_compute; reflexivity. }
  destruct extractor_needs_a_segment as (Hsome & Hnone & _ & Hdirect).
  split_and!; [exact Hopen | exact Hfinal | | |].
  - exact (Hsome (initial example_disk) _ _ _ _ Hopen Hfinal).
  - exact (Hnone (initial example_disk) _ _ Hopen).
  - apply (Hdirect no_faults None example_invoice "/d/01-F001-1.xml" "01-F001-1.xml"
             "/d/01-F001-1.xml" (Bytes ["a"%byte]) (initial example_disk));
      vm_compute; reflexivity.
Defined.

(** ** Induction on nested archives and on directory trees *)

Lemma zipinfo_nested_ind (P : zipinfo -> Prop) :
  (∀ zname raw, P (ZipInfo zname (Bytes raw))) ->
  (∀ zname nested, Forall P nested -> P (ZipInfo zname (ZipData nested))) ->
  ∀ zi, P zi.
Proof.
  intros Hbytes Hzip. fix IH 1. intros [zname [raw | nested]].
  - apply Hbytes.
  - apply Hzip. revert nested. fix IHl 1. intros [| zi nested].
    + constructor.
    + constructor; [apply IH | apply IHl].
Qed.

Lemma dirtree_nested_ind (P : dirtree -> Prop) :
  (∀ files dirs, Forall (fun d => P (snd d)) dirs -> P (DirTree files dirs)) ->
  ∀ t, P t.
Proof.
  intros Hdir. fix IH 1. intros [files dirs].
  apply Hdir. revert dirs. fix IHl 1. intros [| [name sub] dirs].
  - constructor.
  - constructor; [apply IH | apply IHl].
Qed.

(** ** Loops *)

Lemma for_each_app {S A} (body : A -> M S unit) (l1 l2 : list A) (s : S) :
  for_each body (l1 ++ l2) s = bind (for_each body l1) (fun _ => for_each body l2) s.
Proof.
  revert s. induction l1 as [| x l1 IH]; intros s; simpl; [reflexivity |].
  unfold bind. destruct (body x s) as [[[] | e] s']; [| reflexivity].
  rewrite IH. reflexivity.
Qed.

Lemma for_each_ext {S A} (f g : A -> M S unit) (l : list A) :
  (∀ x, x ∈ l -> ∀ s, f x s = g x s) -> ∀ s, for_each f l s = for_each g l s.
Proof.
  induction l as [| x l IH]; intros H s; simpl; [reflexivity |].
  unfold bind. rewrite (H x) by left.
  destruct (g x s) as [[[] | e] s']; [| reflexivity].
  apply IH. intros y Hy. apply H. now right.
Qed.

Lemma for_each_flat_map {S A B} (body : B -> M S unit) (g : A -> list B) (l : list A) :
  ∀ s, for_each body (flat_map g l) s = for_each (fun x => for_each body (g x)) l s.
Proof.
  induction l as [| x l IH]; intros s; simpl; [reflexivity |].
  rewrite for_each_app. unfold bind.
  destruct (for_each body (g x) s) as [[[] | e] s']; [apply IH | reflexivity].
Qed.

(** ** The classifier as a function *)

Lemma analyze_classify (filename path : string) :
  _analyze_filename filename path = Ok (classify filename path).
Proof.
  unfold classify.
  destruct (first_match_spec PATRONES_ESTRUCTURADOS filename path registry_ok)
    as [[_ H] | (? & ? & ? & ? & ? & ? & info & _ & _ & _ & H & _)];
    unfold _analyze_filename; now rewrite H.
Qed.

Lemma classify_keys (filename path : string) (info : file_info) :
  classify filename path = Some info ->
  info !! "filename" = Some filename ∧ info !! "path" = Some path
  ∧ info !! "status" = None.
Proof.
  unfold classify, _analyze_filename.
  destruct (first_match_spec PATRONES_ESTRUCTURADOS filename path registry_ok)
    as [[_ H] | (? & ? & ? & ? & ? & ? & info' & _ & _ & _ & H & _ & Hf & Hp & Hs & _)];
    rewrite H; [discriminate |].
  now intros [= <-].
Qed.

Lemma classify_any_path (filename path path' : string) :
  is_Some (classify filename path) -> is_Some (classify filename path').
Proof.
  assert (H : ∀ p, is_Some (classify filename p)
                   <-> is_Some (first_doc_type PATRONES_ESTRUCTURADOS filename)).
  { intros p.
    rewrite <- (classification_first_doc_type _ filename p registry_ok).
    change (first_match PATRONES_ESTRUCTURADOS filename p)
      with (_analyze_filename filename p).
    rewrite analyze_classify. simpl.
    destruct (classify filename p) as [info |] eqn:E.
    - unfold classify, _analyze_filename in E.
      destruct (first_match_spec PATRONES_ESTRUCTURADOS filename p registry_ok)
        as [[_ H] | (? & d & ? & ? & ? & ? & info' & _ & _ & _ & H & Hc & _)];
        rewrite H in E; [discriminate |].
      injection E as <-. rewrite Hc. split; eauto.
    - split; intros [? ?]; discriminate. }
  intros Hp. apply H. now apply H in Hp.
Qed.

(** ** The walkers, visit by visit *)

Lemma apply_visit_returns (v : visit) (s : walk_state) :
  ∃ s', apply_visit v s = (Ok tt, s').
Proof.
  destruct v as [f p | w]; simpl; [| eexists; reflexivity].
  unfold flag_and_append. destruct (classify f p); eexists; reflexivity.
Qed.

Lemma visits_return (vs : list visit) :
  ∀ s, ∃ s', for_each apply_visit vs s = (Ok tt, s').
Proof.
  induction vs as [| v vs IH]; intros s; simpl; [eexists; reflexivity |].
  unfold bind. destruct (apply_visit_returns v s) as [s' ->]. apply IH.
Qed.

(** The step shared by both walkers: classify and flag the node, then
    open it when its name asks for it. *)
Lemma node_step (filename path : string) (inside : M walk_state unit) (w : warning)
    (vs : list visit) :
  (∀ s, try_except inside is_BadZipFile (fun _ => print w) s = for_each apply_visit vs s) ->
  ∀ s,
    bind (lift (_analyze_filename filename path)) (fun file_details =>
      bind (flag_and_append filename file_details) (fun _ =>
        if endswith (lower filename) ".zip" && negb (bool_decide (is_Some file_details))
        then try_except inside is_BadZipFile (fun _ => print w)
        else ret tt)) s
    = for_each apply_visit
        (Visit filename path :: (if to_open filename path then vs else [])) s.
Proof.
  intros Hinside s. unfold bind at 1, lift. rewrite analyze_classify.
  cbn [for_each]. unfold bind. cbn [apply_visit].
  destruct (flag_and_append filename (classify filename path) s) as [[[] | e] s'];
    [| reflexivity].
  unfold to_open. destruct (_ && _); [apply Hinside | reflexivity].
Qed.

Lemma member_as_visits (zip_info : zipinfo) :
  ∀ current_path s,
    analyze_zip_member zip_info current_path s
    = for_each apply_visit (member_visits zip_info current_path) s.
Proof.
  induction zip_info as [zname raw | zname nested IH] using zipinfo_nested_ind;
    intros current_path s; simpl;
    (destruct (endswith zname "/"); [reflexivity |]);
    apply node_step; clear s; intros s.
  - reflexivity.
  - unfold try_except.
    rewrite (for_each_ext _ (fun zi => for_each apply_visit
                                       (member_visits zi (current_path +:+ ":" +:+ zname)))).
    + rewrite <- for_each_flat_map.
      now destruct (visits_return
                      (flat_map (fun zi => member_visits zi (current_path +:+ ":" +:+ zname))
                                nested) s) as [s' ->].
    + intros zi Hzi t. rewrite Forall_forall in IH. now apply IH.
Qed.

Lemma zip_as_visits (zip_file : list zipinfo) (current_path : string) (s : walk_state) :
  _analyze_zip_recursively zip_file current_path s
  = for_each apply_visit (zip_visits zip_file current_path) s.
Proof.
  unfold _analyze_zip_recursively, zip_visits. rewrite for_each_flat_map.
  apply for_each_ext. intros zi _ t. apply member_as_visits.
Qed.

Lemma disk_file_as_visits (root : string) (file : string * blob) (s : walk_state) :
  analyze_disk_file root file s = for_each apply_visit (disk_file_visits root file) s.
Proof.
  unfold analyze_disk_file, disk_file_visits. apply node_step. clear s. intros s.
  unfold try_except, bind, lift.
  destruct (snd file) as [raw | zip_file]; simpl; [reflexivity |].
  rewrite zip_as_visits.
  now destruct (visits_return (zip_visits zip_file (path_join root (fst file))) s)
    as [s' ->].
Qed.

Lemma loop_as_visits (search_path : string) (t : dirtree) (s : walk_state) :
  find_files_loop search_path t s = for_each apply_visit (tree_visits search_path t) s.
Proof.
  unfold find_files_loop, tree_visits. rewrite for_each_flat_map.
  apply for_each_ext. intros [root files] _ u. simpl.
  rewrite for_each_flat_map. apply for_each_ext. intros file _ v.
  apply disk_file_as_visits.
Qed.

(** The run of [find_files] on a directory. *)
Lemma find_files_run_visits (d : disk) (search_path : string) (t : dirtree) :
  d !! search_path = Some (Directory t) ->
  ∃ st, for_each apply_visit (tree_visits search_path t) (WalkState [] ∅ []) = (Ok tt, st)
        ∧ find_files_run d search_path = (Ok (found_files st), st).
Proof.
  intros Hd. unfold find_files_run. rewrite Hd.
  destruct (visits_return (tree_visits search_path t) (WalkState [] ∅ [])) as [st Hst].
  exists st. split; [exact Hst |].
  unfold bind, get, ret. rewrite loop_as_visits, Hst. reflexivity.
Qed.

(** ** One name, one [UNICO] *)

Lemma dedup_invariant_initial : dedup_invariant (WalkState [] ∅ []).
Proof.
  split_and!; simpl.
  - intros f. split; [intros H; now apply not_elem_of_empty in H |].
    intros (r & Hr & _). now apply not_elem_of_nil in Hr.
  - intros f. exact I.
  - intros f H. now apply not_elem_of_empty in H.
Qed.

Lemma filter_snoc_name (f f' : string) (r : file_info) (l : list file_info) :
  has_filename f r ->
  filter (has_filename f') (l ++ [r])
  = filter (has_filename f') l ++ (if decide (f' = f) then [r] else []).
Proof.
  intros Hr. rewrite filter_app. f_equal.
  rewrite filter_cons, filter_nil. unfold has_filename in *.
  destruct (decide (f' = f)) as [-> | Hne].
  - rewrite decide_True; done.
  - rewrite decide_False; [done | congruence].
Qed.

Lemma flag_preserves (filename path : string) (s : walk_state) :
  dedup_invariant s ->
  dedup_invariant (snd (flag_and_append filename (classify filename path) s)).
Proof.
  intros (Hseen & Hflag & Hcls). unfold flag_and_append.
  destruct (classify filename path) as [info |] eqn:Hinfo; [| done].
  destruct (classify_keys _ _ _ Hinfo) as (Hname & _ & _).
  unfold modify. cbn [snd].
  destruct (decide (filename ∈ seen_filenames s)) as [Hin | Hnotin]; cbn [snd].
  - (* seen before: DUPLICADO *)
    set (r := <["status" := "DUPLICADO"]> info).
    assert (Hr : has_filename filename r).
    { unfold has_filename, r. now rewrite lookup_insert_ne. }
    split_and!; cbn [found_files seen_filenames].
    + intros f. rewrite Hseen. split.
      * intros (r' & Hr' & Hf). exists r'. split; [| done].
        apply elem_of_app. now left.
      * intros (r' & Hr' & Hf). apply elem_of_app in Hr' as [Hr' | Hr']; [eauto |].
        apply list_elem_of_singleton in Hr'. subst r'.
        unfold has_filename in *. assert (f = filename) as -> by congruence.
        now apply Hseen.
    + intros f. rewrite (filter_snoc_name filename f r _ Hr).
      destruct (decide (f = filename)) as [-> | _]; [| rewrite app_nil_r; apply Hflag].
      specialize (Hflag filename). apply Hseen in Hin as (r0 & Hr0 & Hf0).
      assert (H0 : r0 ∈ filter (has_filename filename) (found_files s)).
      { apply list_elem_of_filter. done. }
      destruct (filter (has_filename filename) (found_files s)) as [| r1 others];
        [now apply not_elem_of_nil in H0 |].
      destruct Hflag as [H1 Hothers]. split; [exact H1 |].
      apply Forall_app. split; [exact Hothers |].
      constructor; [| constructor]. unfold r. now rewrite lookup_insert_eq.
    + exact Hcls.
  - (* first time: UNICO *)
    set (r := <["status" := "UNICO"]> info).
    assert (Hr : has_filename filename r).
    { unfold has_filename, r. now rewrite lookup_insert_ne. }
    split_and!; cbn [found_files seen_filenames].
    + intros f. rewrite elem_of_union, elem_of_singleton, Hseen. split.
      * intros [-> | (r' & Hr' & Hf)].
        -- exists r. split; [apply elem_of_app; right; now left | done].
        -- exists r'. split; [apply elem_of_app; now left | done].
      * intros (r' & Hr' & Hf). apply elem_of_app in Hr' as [Hr' | Hr']; [eauto |].
        apply list_elem_of_singleton in Hr'. subst r'.
        unfold has_filename in *. left. congruence.
    + intros f. rewrite (filter_snoc_name filename f r _ Hr).
      destruct (decide (f = filename)) as [-> | _]; [| rewrite app_nil_r; apply Hflag].
      assert (H0 : filter (has_filename filename) (found_files s) = []).
      { destruct (filter _ _) as [| r0 others] eqn:E; [done |].
        assert (Hr0 : r0 ∈ filter (has_filename filename) (found_files s))
          by (rewrite E; left).
        apply list_elem_of_filter in Hr0 as [Hf0 Hr0].
        exfalso. apply Hnotin, Hseen. eauto. }
      rewrite H0. simpl. split; [| constructor].
      unfold r. now rewrite lookup_insert_eq.
    + intros f Hf p. apply elem_of_union in Hf as [Hf | Hf]; [| now apply Hcls].
      apply elem_of_singleton in Hf. subst f.
      apply (classify_any_path filename path). rewrite Hinfo. eauto.
Qed.

Lemma visits_preserve (vs : list visit) :
  ∀ s, dedup_invariant s -> dedup_invariant (snd (for_each apply_visit vs s)).
Proof.
  induction vs as [| v vs IH]; intros s Hs; simpl; [exact Hs |].
  unfold bind. destruct (apply_visit_returns v s) as [s' Hs'].
  assert (H' : dedup_invariant s').
  { replace s' with (snd (apply_visit v s)) by now rewrite Hs'.
    destruct v as [f p | w]; simpl; [now apply flag_preserves | exact Hs]. }
  rewrite Hs'. now apply IH.
Qed.


(** ** The visits are the nodes of the design *)

Lemma to_open_spec (filename path : string) :
  to_open filename path = true
  <-> endswith (lower filename) ".zip" = true ∧ classify filename path = None.
Proof.
  unfold to_open. rewrite andb_true_iff, negb_true_iff, bool_decide_eq_false.
  split; intros [H1 H2]; (split; [exact H1 |]).
  - destruct (classify filename path); [exfalso; eauto | reflexivity].
  - rewrite H2. intros [? ?]. discriminate.
Qed.

Lemma elem_of_flat_map {A B} (f : A -> list B) (l : list A) (y : B) :
  y ∈ flat_map f l <-> ∃ x, x ∈ l ∧ y ∈ f x.
Proof.
  rewrite list_elem_of_In, in_flat_map. split; intros (x & Hx & Hy); exists x;
    [rewrite !list_elem_of_In | rewrite <- !list_elem_of_In]; done.
Qed.

Lemma member_visits_inside (zi : zipinfo) :
  ∀ address f a zf,
    zi ∈ zf -> Visit f a ∈ member_visits zi address -> inside zf address f a.
Proof.
  induction zi as [zname raw | zname nested IH] using zipinfo_nested_ind;
    intros address f a zf Hzi Hv; simpl in Hv;
    (destruct (endswith zname "/") eqn:Hdir; [now apply not_elem_of_nil in Hv |]);
    apply elem_of_cons in Hv as [[= -> ->] | Hv];
    try (eapply inside_member; eassumption);
    destruct (to_open _ _) eqn:Hopen; try (now apply not_elem_of_nil in Hv).
  - apply list_elem_of_singleton in Hv. discriminate.
  - apply to_open_spec in Hopen as [Hzip Hnone].
    apply elem_of_flat_map in Hv as (zi' & Hzi' & Hv).
    rewrite Forall_forall in IH.
    eapply inside_nested; try eassumption. eapply IH; eassumption.
Qed.

Lemma zip_visits_inside (zf : list zipinfo) (address f a : string) :
  Visit f a ∈ zip_visits zf address <-> inside zf address f a.
Proof.
  split.
  - unfold zip_visits. intros Hv. apply elem_of_flat_map in Hv as (zi & Hzi & Hv).
    eapply member_visits_inside; eassumption.
  - induction 1 as [zf address zname data Hzi Hdir
                   | zf address zname nested f a Hzi Hdir Hzip Hnone _ IH];
      unfold zip_visits; apply elem_of_flat_map; eexists; (split; [exact Hzi |]);
      simpl; rewrite Hdir.
    + left.
    + right. rewrite (proj2 (to_open_spec _ _) (conj Hzip Hnone)). exact IH.
Qed.

Lemma tree_visits_walked (search_path : string) (t : dirtree) (f a : string) :
  Visit f a ∈ tree_visits search_path t <-> walked search_path t f a.
Proof.
  unfold tree_visits. rewrite elem_of_flat_map. split.
  - intros ([root files] & Hrf & Hv). simpl in Hv.
    apply elem_of_flat_map in Hv as ([name data] & Hfile & Hv).
    unfold disk_file_visits in Hv. simpl in Hv.
    apply elem_of_cons in Hv as [[= -> ->] | Hv]; [eapply walked_file; eassumption |].
    destruct (to_open _ _) eqn:Hopen; [| now apply not_elem_of_nil in Hv].
    apply to_open_spec in Hopen as [Hzip Hnone].
    destruct data as [raw | zip_file].
    + apply list_elem_of_singleton in Hv. discriminate.
    + apply zip_visits_inside in Hv. eapply walked_inside; eassumption.
  - intros [root files name data Hrf Hfile
           | root files name zip_file f' a' Hrf Hfile Hzip Hnone Hin];
      exists (root, files); (split; [exact Hrf |]); simpl;
      apply elem_of_flat_map; eexists; (split; [exact Hfile |]);
      unfold disk_file_visits; simpl.
    + left.
    + right. rewrite (proj2 (to_open_spec _ _) (conj Hzip Hnone)).
      now apply zip_visits_inside.
Qed.

(** The records that a visit leaves. *)
Lemma visit_records (v : visit) (s : walk_state) :
  ∃ s', apply_visit v s = (Ok tt, s')
        ∧ ((found_files s' = found_files s
            ∧ ¬ ∃ f a, v = Visit f a ∧ is_Some (classify f a))
           ∨ ∃ f a info flag, v = Visit f a ∧ classify f a = Some info
                              ∧ found_files s' = found_files s ++ [<["status" := flag]> info]).
Proof.
  destruct v as [f a | w]; simpl.
  - unfold flag_and_append. destruct (classify f a) as [info |] eqn:Hinfo.
    + unfold modify. destruct (decide (f ∈ seen_filenames s));
        eexists; (split; [reflexivity |]); right; eexists f, a, info, _; done.
    + eexists. split; [reflexivity |]. left. split; [reflexivity |].
      intros (? & ? & [= <- <-] & [? H]). congruence.
  - eexists. split; [reflexivity |]. left. split; [reflexivity |].
    intros (? & ? & [=] & _).
Qed.

Lemma visits_records_from (vs : list visit) :
  ∀ s r,
    r ∈ found_files (snd (for_each apply_visit vs s)) ->
    r ∈ found_files s
    ∨ ∃ f a info flag, Visit f a ∈ vs ∧ classify f a = Some info
                       ∧ r = <["status" := flag]> info.
Proof.
  induction vs as [| v vs IH]; intros s r; simpl; [now left |].
  unfold bind. destruct (visit_records v s) as (s' & -> & Hs').
  intros Hr. apply IH in Hr as [Hr | (f & a & info & flag & Hv & Hi & ->)].
  - destruct Hs' as [[E _] | (f & a & info & flag & -> & Hi & E)]; rewrite E in Hr;
      [now left |].
    apply elem_of_app in Hr as [Hr | Hr]; [now left |].
    apply list_elem_of_singleton in Hr. right. exists f, a, info, flag.
    split_and!; [left | done | done].
  - right. exists f, a, info, flag. split_and!; [now right | done | done].
Qed.

Lemma visits_records_kept (vs : list visit) :
  ∀ s r, r ∈ found_files s -> r ∈ found_files (snd (for_each apply_visit vs s)).
Proof.
  induction vs as [| v vs IH]; intros s r Hr; simpl; [exact Hr |].
  unfold bind. destruct (visit_records v s) as (s' & -> & Hs'). apply IH.
  destruct Hs' as [[-> _] | (f & a & info & flag & -> & Hi & ->)]; [exact Hr |].
  apply elem_of_app. now left.
Qed.

Lemma visits_records_to (vs : list visit) :
  ∀ s f a info,
    Visit f a ∈ vs -> classify f a = Some info ->
    ∃ flag, <["status" := flag]> info ∈ found_files (snd (for_each apply_visit vs s)).
Proof.
  induction vs as [| v vs IH]; intros s f a info Hv Hi; simpl;
    [now apply not_elem_of_nil in Hv |].
  unfold bind. destruct (visit_records v s) as (s' & -> & Hs').
  apply elem_of_cons in Hv as [<- | Hv]; [| exact (IH s' f a info Hv Hi)].
  destruct Hs' as [[_ Hno] | (f' & a' & info' & flag & [= <- <-] & Hi' & Hs')].
  - exfalso. apply Hno. exists f, a. split; [reflexivity |]. rewrite Hi. eauto.
  - exists flag. apply visits_records_kept. rewrite Hs'.
    assert (info' = info) as -> by congruence.
    apply elem_of_app. right. left.
Qed.

(** C6: the records of a run are those of the nodes that the walker of
    the design reaches and that classify: every file on disk, and every
    member of an archive whose name ends in [.zip] (in any case of the
    letters) and was not classified itself, at any depth, each member
    under the address of its archive followed by [":"] and its path in
    the archive; nothing inside a classified archive is reached. *)
Theorem walker_opens_unclassified_archives (d : disk) (search_path : string)
    (t : dirtree) :
  d !! search_path = Some (Directory t) ->
  ∃ records,
    find_files d search_path = Ok records
    ∧ ∀ f a, (∃ r, r ∈ records ∧ r !! "filename" = Some f ∧ r !! "path" = Some a)
             <-> walked search_path t f a ∧ is_Some (classify f a).
Proof.
  intros Hd. destruct (find_files_run_visits d search_path t Hd) as (st & Hst & Hrun).
  exists (found_files st). unfold find_files. rewrite Hrun. split; [reflexivity |].
  assert (Est : st = snd (for_each apply_visit (tree_visits search_path t)
                            (WalkState [] ∅ []))) by now rewrite Hst.
  intros f a. rewrite <- tree_visits_walked. split.
  - intros (r & Hr & Hf & Ha). rewrite Est in Hr.
    apply visits_records_from in Hr as [Hr | (f' & a' & info & flag & Hv & Hi & ->)];
      [now apply not_elem_of_nil in Hr |].
    destruct (classify_keys _ _ _ Hi) as (Hf' & Ha' & _).
    rewrite lookup_insert_ne in Hf by done. rewrite lookup_insert_ne in Ha by done.
    assert (f' = f) as -> by congruence. assert (a' = a) as -> by congruence.
    split; [exact Hv | rewrite Hi; eauto].
  - intros [Hv [info Hi]].
    destruct (visits_records_to _ (WalkState [] ∅ []) f a info Hv Hi) as [flag Hr].
    rewrite <- Est in Hr. exists (<["status" := flag]> info).
    destruct (classify_keys _ _ _ Hi) as (Hf' & Ha' & _).
    split_and!; [exact Hr | |]; now rewrite lookup_insert_ne.
Qed.

Lemma walker_opens_unclassified_archives_witness :
  example_disk !! "/d" = Some (Directory example_tree)
  ∧ walked "/d" example_tree "08-F001-4.xml" "/d/pack.zip:inner.ZIP:deep.zip:08-F001-4.xml"
  ∧ ∃ records,
      find_files example_disk "/d" = Ok records
      ∧ ∃ r, r ∈ records ∧ r !! "filename" = Some "08-F001-4.xml"
             ∧ r !! "path" = Some "/d/pack.zip:inner.ZIP:deep.zip:08-F001-4.xml".
Proof.
  assert (Hd : example_disk !! "/d" = Some (Directory example_tree))
    by (vm_compute; reflexivity).
  assert (Hw : walked "/d" example_tree "08-F001-4.xml"
                 "/d/pack.zip:inner.ZIP:deep.zip:08-F001-4.xml").
  { apply (walked_inside "/d" example_tree "/d"
             [("01-F001-1.xml", Bytes ["a"%byte]); ("pack.zip", ZipData example_pack)]
             "pack.zip" example_pack);
      [left | right; left | vm_compute; reflexivity | vm_compute; reflexivity |].
    apply (inside_nested example_pack _ "inner.ZIP" example_inner);
      [right; right; left | vm_compute; reflexivity | vm_compute; reflexivity
       | vm_compute; reflexivity |].
    apply (inside_nested example_inner _ "deep.zip" example_deep);
      [right; right; left | vm_compute; reflexivity | vm_compute; reflexivity
       | vm_compute; reflexivity |].
    exact (inside_member example_deep
             (path_join "/d" "pack.zip" +:+ ":" +:+ "inner.ZIP" +:+ ":" +:+ "deep.zip")
             "08-F001-4.xml" (Bytes ["d"%byte])
             ltac:(left) ltac:(vm_compute; reflexivity)). }
  destruct (walker_opens_unclassified_archives example_disk "/d" example_tree Hd)
    as (records & Hrun & Hiff).
  split_and!; [exact Hd | exact Hw |].
  exists records. split; [exact Hrun |].
  apply Hiff. split; [exact Hw |].
  apply (bool_decide_unpack _). vm_compute. exact I.
Defined.

(** ** Archives that do not open *)









(** ** The root of the discovery *)

(** C5 (amended): when the root is not an existing directory,
    [find_files] returns the empty list without raising, as it does for
    an empty directory; it is the endpoint [/find] that rejects such a
    root, and a path that is not absolute, with the status 400; on an
    absolute path to an empty directory the endpoint answers with no
    file. *)
Theorem discovery_root_kind :
  (∀ (d : disk) search_path,
     isdir d search_path = false ->
     find_files_run d search_path = (Ok [], WalkState [] ∅ []))
  ∧ (∀ (d : disk) search_path,
       d !! search_path = Some (Directory (DirTree [] [])) ->
       find_files_run d search_path = (Ok [], WalkState [] ∅ []))
  ∧ (∀ request (s : pstate),
       isabs (path request) = false ∨ isdir (fs s) (path request) = false ->
       find_endpoint request s = (Raise (HTTPException 400), s))
  ∧ (∀ request (s : pstate),
       isabs (path request) = true ->
       fs s !! path request = Some (Directory (DirTree [] [])) ->
       find_endpoint request s = (Ok (FindResponse (path request) 0 []), s)).
Proof.
  split_and!.
  - intros d search_path Hd. unfold find_files_run, isdir in *.
    destruct (d !! search_path) as [[data | t] |]; done.
  - intros d search_path Hd. unfold find_files_run. rewrite Hd. reflexivity.
  - intros request s H. unfold find_endpoint, bind, get.
    destruct H as [-> | ->]; [reflexivity | now rewrite orb_true_r].
  - intros request s Habs Hd. unfold find_endpoint, bind, get, isdir.
    rewrite Habs, Hd. simpl. unfold try_except, bind, call_find_files, bind, get.
    unfold find_files_run. rewrite Hd. reflexivity.
Qed.

Lemma discovery_root_kind_witness :
  isdir example_disk "/d/pack.zip" = false
  ∧ find_files_run example_disk "/d/pack.zip" = (Ok [], WalkState [] ∅ [])
  ∧ find_files_run (mount "/e" (DirTree [] [])) "/e" = (Ok [], WalkState [] ∅ [])
  ∧ find_endpoint {| path := "/d/pack.zip" |} (initial example_disk)
    = (Raise (HTTPException 400), initial example_disk)
  ∧ find_endpoint {| path := "/e" |} (initial (mount "/e" (DirTree [] [])))
    = (Ok (FindResponse "/e" 0 []), initial (mount "/e" (DirTree [] []))).
Proof.
  assert (H1 : isdir example_disk "/d/pack.zip" = false) by (vm_compute; reflexivity).
  assert (H2 : mount "/e" (DirTree [] []) !! "/e" = Some (Directory (DirTree [] [])))
    by (vm_compute; reflexivity).
  destruct discovery_root_kind as (Hnot & Hempty & H400 & Hok).
  split_and!.
  - exact H1.
  - exact (Hnot example_disk "/d/pack.zip" H1).
  - exact (Hempty _ "/e" H2).
  - exact (H400 {| path := "/d/pack.zip" |} (initial example_disk) (or_intror H1)).
  - exact (Hok {| path := "/e" |} (initial (mount "/e" (DirTree [] []))) eq_refl H2).
Defined.

(** C5, as stated, fails: on a root that is a regular file, or that does
    not exist, [find_files] raises nothing and returns the empty list. *)
Lemma find_files_accepts_a_missing_root :
  isdir example_disk "/d/pack.zip" = false
  ∧ isdir example_disk "/nowhere" = false
  ∧ find_files example_disk "/d/pack.zip" = Ok []
  ∧ find_files example_disk "/nowhere" = Ok []
  ∧ ∀ e, find_files example_disk "/nowhere" ≠ Raise e.
Proof.
  split_and!; try (vm_compute; reflexivity).
  intros e. vm_compute. discriminate.
Qed.

(** ** Writing, then deleting *)

Lemma writing_event_intro (e : event) :
  call_has_segment e -> (∀ p b, e ≠ EvRemove p b) -> (∀ p, e ≠ EvWriteLog p) ->
  writing_event e.
Proof.
  destruct e as [| | [| ? ?] | | | p b | p]; simpl; try done.
  - intros _ H _. now apply (H p b).
  - intros _ _ H. now apply (H p).
Qed.

Lemma write_package_writes env files out logp :
  steps (emits writing_event) (write_package env files out logp).
Proof. apply write_package_emits; [| done]. intros e ? ? ? _. now apply writing_event_intro. Qed.


(** The deletions and the log never raise. *)
Lemma remove_one_returns logp p (s : pstate) : fst (remove_one logp p s) = Ok tt.
Proof.
  unfold remove_one, try_except, bind, get.
  destruct (fs s !! p) as [[data | t] |]; simpl.
  - now destruct (log_action_run logp (LogEliminado p)
                    (PState (delete p (fs s)) (final_zip s) (log_lines s) (log_file s)
                       (console s) (trace s ++ [EvRemove p true]))) as (s' & -> & _).
  - now destruct (log_action_run logp (LogErrorAlEliminar p OSError)
                    (PState (fs s) (final_zip s) (log_lines s) (log_file s)
                       (console s) (trace s ++ [EvRemove p false]))) as (s' & -> & _).
  - now destruct (log_action_run logp (LogErrorAlEliminar p OSError)
                    (PState (fs s) (final_zip s) (log_lines s) (log_file s)
                       (console s) (trace s ++ [EvRemove p false]))) as (s' & -> & _).
Qed.

Lemma for_each_returns {S A} (body : A -> M S unit) (l : list A) :
  (∀ x s, fst (body x s) = Ok tt) -> ∀ s, fst (for_each body l s) = Ok tt.
Proof.
  intros H. induction l as [| x l IH]; intros s; simpl; [reflexivity |].
  unfold bind. specialize (H x s). destruct (body x s) as [[[] | e] s']; [apply IH | done].
Qed.

Lemma bind_returns {S A} (c : M S A) (k : A -> M S unit) :
  (∀ s, ∃ a, fst (c s) = Ok a) -> (∀ a s, fst (k a s) = Ok tt) ->
  ∀ s, fst (bind c k s) = Ok tt.
Proof.
  intros Hc Hk s. unfold bind. destruct (Hc s) as [a Ha].
  destruct (c s) as [[a' | e] s']; simpl in Ha; [apply Hk | discriminate].
Qed.

Lemma log_action_returns logp m (s : pstate) : fst (log_action logp m s) = Ok tt.
Proof. now destruct (log_action_run logp m s) as (s' & -> & _). Qed.

Lemma delete_and_log_returns del logp (s : pstate) :
  fst (delete_and_log del logp s) = Ok tt.
Proof.
  revert s. unfold delete_and_log. apply bind_returns.
  - intros s. exists tt. destruct (bool_decide _); [| reflexivity].
    revert s. apply bind_returns.
    + intros s. exists tt. apply log_action_returns.
    + intros _. apply for_each_returns. apply remove_one_returns.
  - intros _ s. destruct logp as [p |]; [destruct (truthy _) |]; try reflexivity.
    unfold write_log, try_except, bind, get. now destruct (isdir (fs s) p).
Qed.

(** The archive, opened and closed. *)
Lemma open_for_write_run env out (s : pstate) :
  open_for_write env out s
  = if open_fails env || isdir (fs s) out then (Raise OSError, s)
    else (Ok tt, PState (<[out := RegularFile (Bytes [])]> (fs s)) [] (log_lines s)
                   (log_file s) (console s) (trace s ++ [EvOpenArchive out])).
Proof.
  unfold open_for_write, bind at 1, get. now destruct (_ || _).
Qed.

Lemma close_archive_run env out (s : pstate) :
  close_archive env out s
  = if close_fails env then (Raise OSError, s)
    else (Ok tt, PState (<[out := RegularFile (ZipData (final_zip s))]> (fs s))
                   (final_zip s) (log_lines s) (log_file s) (console s)
                   (trace s ++ [EvCloseArchive out])).
Proof. unfold close_archive. now destruct (close_fails env). Qed.


Lemma bind_run {S A B} (c : M S A) (k : A -> M S B) (s : S) :
  bind c k s = match c s with
               | (Ok a, s') => k a s'
               | (Raise e, s') => (Raise e, s')
               end.
Proof. reflexivity. Qed.






(** ** The deletion set *)

Lemma prepare_spec (all : list file_info) :
  ∀ pkg0 del0 pkg del,
    prepare all pkg0 del0 = Ok (pkg, del) ->
    pkg = pkg0 ++ filter (fun r => r !! "status" = Some "UNICO") all
    ∧ ∀ p, p ∈ del <-> p ∈ del0
                       ∨ ∃ r a, r ∈ all ∧ r !! "path" = Some a ∧ split ":" a !! 0 = Some p.
Proof.
  induction all as [| info all IH]; intros pkg0 del0 pkg del H; simpl in H.
  - injection H as <- <-. split; [now rewrite app_nil_r |].
    intros p. split; [now left | intros [Hp | (r & a & Hr & _)]; [done |]].
    now apply not_elem_of_nil in Hr.
  - unfold getitem, index in H.
    destruct (info !! "path") as [a |] eqn:Ha; [| discriminate]. simpl in H.
    destruct (split ":" a !! 0) as [base |] eqn:Hb; [| discriminate]. simpl in H.
    apply IH in H as [-> Hdel]. split.
    + rewrite filter_cons. destruct (bool_decide _) eqn:Hu.
      * apply bool_decide_eq_true in Hu. rewrite decide_True by done.
        now rewrite <- app_assoc.
      * apply bool_decide_eq_false in Hu. now rewrite decide_False by done.
    + intros p. rewrite Hdel, elem_of_union, elem_of_singleton. split.
      * intros [[-> | Hp] | (r & a' & Hr & Ha' & Hb')].
        -- right. exists info, a. split_and!; [left | done | done].
        -- now left.
        -- right. exists r, a'. split_and!; [now right | done | done].
      * intros [Hp | (r & a' & Hr & Ha' & Hb')]; [now left; right |].
        apply elem_of_cons in Hr as [-> | Hr].
        -- left. left. congruence.
        -- right. eauto.
Qed.

Lemma call_find_files_run (search_path : string) (s : pstate) :
  ∃ records s',
    call_find_files search_path s = (Ok records, s')
    ∧ find_files (fs s) search_path = Ok records
    ∧ fs s' = fs s ∧ trace s' = trace s.
Proof.
  unfold call_find_files. rewrite bind_run. unfold get at 1. cbv beta iota zeta.
  assert (Hfind : ∃ records, fst (find_files_run (fs s) search_path) = Ok records).
  { destruct (fs s !! search_path) as [[data | t] |] eqn:Hd.
    2: { destruct (find_files_run_visits _ _ t Hd) as (st & _ & ->). eauto. }
    all: unfold find_files_run; rewrite Hd; eauto. }
  destruct Hfind as [records Hrecords].
  assert (Hsay : ∀ ws (t : pstate),
            ∃ t', for_each (fun w => say (Warning w)) ws t = (Ok tt, t')
                  ∧ fs t' = fs t ∧ trace t' = trace t).
  { induction ws as [| w ws IH]; intros t; simpl; [eexists; done |].
    rewrite bind_run. unfold say at 1, modify. cbv beta iota.
    destruct (IH (PState (fs t) (final_zip t) (log_lines t) (log_file t)
                    (console t ++ [Warning w]) (trace t))) as (t' & -> & Hfs & Htr).
    eexists. done. }
  destruct (Hsay (stdout (snd (find_files_run (fs s) search_path))) s)
    as (s' & Hrun & Hfs & Htr).
  exists records, s'. rewrite bind_run, Hrun. unfold lift, find_files.
  rewrite Hrecords. done.
Qed.

Lemma try_except_raise_state {S A} (c : M S A) catches (e' : exn) (s : S) :
  snd (try_except c catches (fun _ => raise e') s) = snd (c s).
Proof.
  unfold try_except. destruct (c s) as [[a | e] s']; [reflexivity |].
  now destruct (catches e).
Qed.



(** ** The addresses of the records *)

Lemma append_assoc (a b c : string) : (a +:+ b) +:+ c = a +:+ b +:+ c.
Proof. apply chars_inj. now rewrite !chars_app, app_assoc. Qed.

Lemma inside_prefix zf address f a :
  inside zf address f a -> ∃ rest, a = address +:+ ":" +:+ rest.
Proof.
  induction 1 as [zf address zname data _ _
                 | zf address zname nested f a _ _ _ _ _ [rest ->]]; [eauto |].
  exists (zname +:+ ":" +:+ rest). now rewrite !append_assoc.
Qed.

(** The address of a node starts with the full path of a file of the
    walk, alone or followed by [":"]. *)
Lemma walked_base search_path t f a :
  walked search_path t f a ->
  ∃ base data, (base, data) ∈ walked_files search_path t
               ∧ (a = base ∨ ∃ rest, a = base +:+ ":" +:+ rest).
Proof.
  assert (Hfile : ∀ root files name data,
            (root, files) ∈ os_walk search_path t -> (name, data) ∈ files ->
            (path_join root name, data) ∈ walked_files search_path t).
  { intros root files name data Hrf Hfile. unfold walked_files.
    apply elem_of_flat_map. exists (root, files). split; [exact Hrf |].
    apply list_elem_of_In, in_map_iff. exists (name, data).
    split; [reflexivity | now apply list_elem_of_In]. }
  intros [root files name data Hrf Hf | root files name zip_file f' a' Hrf Hf _ _ Hin].
  - exists (path_join root name), data. split; [eauto | now left].
  - exists (path_join root name), (ZipData zip_file). split; [eauto | right].
    eapply inside_prefix; eassumption.
Qed.

Lemma split_base (base : string) :
  no_colon base ->
  split ":" base !! 0 = Some base
  ∧ ∀ rest, split ":" (base +:+ ":" +:+ rest) !! 0 = Some base.
Proof.
  intros Hnc. split.
  - now rewrite (split_no_sep _ _ Hnc).
  - intros rest. unfold split. rewrite !chars_app. simpl.
    rewrite (split_chars_app _ _ _ Hnc). simpl. now rewrite str_chars.
Qed.

(** The records of a run are nodes of the walk. *)
Lemma records_walked (d : disk) search_path t records r a :
  d !! search_path = Some (Directory t) ->
  find_files d search_path = Ok records ->
  r ∈ records -> r !! "path" = Some a ->
  ∃ f, walked search_path t f a.
Proof.
  intros Hd Hfind Hr Ha.
  destruct (find_files_run_visits d search_path t Hd) as (st & Hst & Hrun).
  unfold find_files in Hfind. rewrite Hrun in Hfind. injection Hfind as <-.
  replace st with (snd (for_each apply_visit (tree_visits search_path t)
                          (WalkState [] ∅ []))) in Hr by now rewrite Hst.
  apply visits_records_from in Hr as [Hr | (f & a' & info & flag & Hv & Hi & ->)];
    [now apply not_elem_of_nil in Hr |].
  destruct (classify_keys _ _ _ Hi) as (_ & Ha' & _).
  rewrite lookup_insert_ne in Ha by done.
  assert (a' = a) as -> by congruence.
  exists f. now apply tree_visits_walked.
Qed.




(** ** Round trip *)

Lemma appends_refl Q (s : pstate) : appends Q s s.
Proof. split; [reflexivity |]. exists []. split; [now rewrite app_nil_r | constructor]. Qed.

Lemma appends_trans Q (a b c : pstate) : appends Q a b -> appends Q b c -> appends Q a c.
Proof.
  intros (Hf1 & l1 & Hl1 & Q1) (Hf2 & l2 & Hl2 & Q2). split; [congruence |].
  exists (l1 ++ l2). split; [now rewrite Hl2, Hl1, app_assoc | now apply Forall_app].
Qed.

Lemma appends_same Q (s s' : pstate) :
  fs s' = fs s -> final_zip s' = final_zip s -> appends Q s s'.
Proof.
  intros Hf Hz. split; [exact Hf |]. exists [].
  split; [now rewrite app_nil_r | constructor].
Qed.

Ltac appends_struct :=
  steps_with ltac:(intros; apply appends_refl) ltac:(intros ? ? ?; apply appends_trans).

Section Appends.
Variable Q : string -> Prop.

Lemma emit_appends e : steps (appends Q) (emit e).
Proof. intros s. now apply appends_same. Qed.

Lemma say_appends c : steps (appends Q) (say c).
Proof. intros s. now apply appends_same. Qed.

Lemma log_action_appends logp m : steps (appends Q) (log_action logp m).
Proof.
  intros s. destruct (log_action_run logp m s) as (s' & -> & Hf & Hz & _).
  now apply appends_same.
Qed.

Lemma open_for_read_appends zp : steps (appends Q) (open_for_read zp).
Proof.
  unfold open_for_read. repeat appends_struct.
  destruct zp as [p | data]; [destruct (fs _ !! p) as [[|] |] |];
    intros s; apply appends_refl.
Qed.

Lemma read_file_appends p : steps (appends Q) (read_file p).
Proof.
  unfold read_file. repeat appends_struct.
  destruct (fs _ !! p) as [[|] |]; intros s; apply appends_refl.
Qed.

Lemma extract_appends parts : ∀ zp, steps (appends Q) (_extract_from_zip zp parts).
Proof.
  induction parts as [| name rest IH]; intros zp; rewrite extract_unfold;
    repeat lazymatch goal with
      | |- steps _ (emit _) => apply emit_appends
      | |- steps _ (say _) => apply say_appends
      | |- steps _ (open_for_read _) => apply open_for_read_appends
      | |- steps _ (_extract_from_zip _ _) => apply IH
      | |- steps _ (match ?l with [] => _ | _ :: _ => _ end) => destruct l
      | |- _ => appends_struct
      end.
Qed.

Lemma writestr_appends env name data :
  Q (zipinfo_filename name) -> steps (appends Q) (writestr env name data).
Proof.
  intros HQ. unfold writestr. destruct (writestr_fails env name); repeat appends_struct.
  - apply emit_appends.
  - intros s. split; [reflexivity |]. eexists. split; [reflexivity |].
    constructor; [exact HQ | constructor].
Qed.

Lemma package_one_appends env logp (info : file_info) :
  (∀ n, info !! "filename" = Some n -> Q (zipinfo_filename n)) ->
  steps (appends Q) (package_one env logp info).
Proof.
  intros HQ. unfold package_one.
  apply steps_bind_lift; [apply appends_refl | intros full_path _].
  apply steps_bind_lift; [apply appends_refl | intros filename Hname].
  assert (En : info !! "filename" = Some filename).
  { unfold getitem in Hname. destruct (info !! "filename"); congruence. }
  repeat lazymatch goal with
    | |- steps _ (log_action _ _) => apply log_action_appends
    | |- steps _ (read_file _) => apply read_file_appends
    | |- steps _ (writestr _ _ _) => apply writestr_appends; now apply HQ
    | |- steps _ (_extract_from_zip _ _) => apply extract_appends
    | |- steps _ (match ?l with [] => _ | _ :: _ => _ end) => destruct l
    | |- steps _ (if ?c then _ else _) => destruct c
    | |- _ => appends_struct
    end.
Qed.
End Appends.

(** With its two keys, a record never stops the loop. *)
Lemma package_one_returns env logp (info : file_info) (s : pstate) :
  is_Some (info !! "path") -> is_Some (info !! "filename") ->
  fst (package_one env logp info s) = Ok tt.
Proof.
  intros [full_path Hp] [filename Hf]. unfold package_one, getitem. rewrite Hp, Hf.
  rewrite bind_run. unfold lift at 1. cbv beta iota.
  rewrite bind_run. unfold lift at 1. cbv beta iota.
  rewrite bind_run.
  destruct (log_action_run logp (LogProcesando filename) s) as (s1 & -> & _).
  unfold try_except.
  match goal with |- context [bind ?c ?k s1] => destruct (bind c k s1) as [[[] | e] s2] end;
    [reflexivity |].
  simpl. apply log_action_returns.
Qed.

(** The extractor returns bytes only along segments that lead to them. *)
Lemma try_except_ok {S A} (c : M S A) catches (h : exn -> M S A) (s : S) (a : A) :
  (∀ e t, ∃ e', fst (h e t) = Raise e') ->
  fst (try_except c catches h s) = Ok a -> fst (c s) = Ok a.
Proof.
  intros Hh. unfold try_except. destruct (c s) as [[a' | e] s']; [done |].
  destruct (catches e); [| done].
  destruct (Hh e s') as [e' He']. rewrite He'. discriminate.
Qed.

Lemma open_for_read_ok zp (s : pstate) zf :
  fst (open_for_read zp s) = Ok zf -> opens (fs s) zp zf.
Proof.
  unfold open_for_read, bind, get, lift, opens.
  destruct zp as [p | data].
  - destruct (fs s !! p) as [[[raw | zf'] | t] |]; simpl; try discriminate. now intros [= ->].
  - destruct data as [raw | zf']; simpl; try discriminate. now intros [= ->].
Qed.

Lemma open_for_read_state zp (s : pstate) : snd (open_for_read zp s) = s.
Proof.
  unfold open_for_read, bind, get, lift.
  destruct zp as [p | data]; [destruct (fs s !! p) as [[|] |] |]; reflexivity.
Qed.

Lemma extract_ok_final_segment parts :
  ∀ zp (s : pstate) b,
    fst (_extract_from_zip zp parts s) = Ok b ->
    ∃ zf, opens (fs s) zp zf ∧ final_segment zf parts b.
Proof.
  induction parts as [| name rest IH]; intros zp s b; rewrite extract_unfold;
    rewrite bind_run; unfold emit at 1, modify; cbv beta iota;
    set (s1 := PState _ _ _ _ _ _); intros H.
  all: apply try_except_ok in H;
    [| intros e t; unfold bind, lift, index;
       destruct (_ !! 0); simpl; eauto].
  all: apply try_except_ok in H; [| intros e t; simpl; eauto].
  all: rewrite bind_run in H; pose proof (open_for_read_ok zp s1) as Hopen;
    pose proof (open_for_read_state zp s1) as Hstate;
    destruct (open_for_read zp s1) as [[zf | e] s2]; [| discriminate];
    simpl in Hstate; subst s2; specialize (Hopen zf eq_refl).
  - discriminate.
  - exists zf. split; [exact Hopen |].
    destruct rest as [| name' rest'].
    + unfold lift in H. simpl in H. apply final_here.
      destruct (zf_read zf name); [simpl in H; congruence | discriminate].
    + rewrite bind_run in H. unfold lift at 1 in H.
      destruct (zf_read zf name) as [nested_data | e] eqn:Hread; [| discriminate].
      apply IH in H as (zf' & Hopen' & Hfinal). simpl in Hopen'. subst nested_data.
      eapply final_nested; eassumption.
Qed.

(** So what it returns depends on the disk only. *)
Lemma extract_same_disk zp parts (s s' : pstate) b :
  fs s' = fs s ->
  fst (_extract_from_zip zp parts s) = Ok b ->
  ∃ s'', _extract_from_zip zp parts s' = (Ok b, s'') ∧ fs s'' = fs s'.
Proof.
  intros Hfs H. apply extract_ok_final_segment in H as (zf & Hopen & Hfinal).
  apply (extract_final_segment _ _ _ Hfinal). destruct zp; simpl in *; congruence.
Qed.

Lemma source_bytes_same_disk (s s' : pstate) base inner b :
  fs s' = fs s -> source_bytes s base inner b -> source_bytes s' base inner b.
Proof.
  intros Hfs. unfold source_bytes. destruct inner as [| seg segs]; [congruence |].
  intros H. now destruct (extract_same_disk _ _ _ s' _ Hfs H) as (s'' & -> & _).
Qed.

(** A record whose source can be read is written with its bytes. *)
Lemma package_one_source env logp (info : file_info) full_path filename base inner b
    (s : pstate) :
  info !! "path" = Some full_path ->
  info !! "filename" = Some filename ->
  _parse_zip_path os_sep full_path = Ok (base, inner) ->
  source_bytes s base inner b ->
  writestr_fails env filename = false ->
  ∃ s', package_one env logp info s = (Ok tt, s')
        ∧ final_zip s' = final_zip s ++ [ZipInfo (zipinfo_filename filename) b]
        ∧ fs s' = fs s.
Proof.
  intros Hpath Hname Hparse Hsrc Hw.
  destruct inner as [| seg segs].
  - destruct (package_one_direct env logp info _ _ _ _ s Hpath Hname Hparse Hsrc Hw)
      as (s' & ? & ? & _ & ?). eauto.
  - unfold package_one, getitem. rewrite Hpath, Hname.
    rewrite bind_run. unfold lift at 1. cbv beta iota.
    rewrite bind_run. unfold lift at 1. cbv beta iota.
    rewrite bind_run.
    destruct (log_action_run logp (LogProcesando filename) s) as (s1 & -> & Hl2 & Hl3 & _).
    assert (Hsrc1 : source_bytes s1 base (seg :: segs) b)
      by (eapply source_bytes_same_disk; eassumption).
    unfold source_bytes in Hsrc1.
    destruct (extract_ok_final_segment _ _ _ _ Hsrc1) as (zf & Hopen & _).
    simpl in Hopen.
    destruct (extract_same_disk _ _ s1 s1 _ eq_refl Hsrc1) as (s2 & Hrun & Hfs2).
    pose proof (extract_appends (fun _ => False) (seg :: segs) (OnDisk base) s1) as Happ.
    rewrite Hrun in Happ. destruct Happ as (_ & l & Hl & Hnone). simpl in Hl.
    assert (l = []) as -> by (destruct l; [done | now inversion Hnone]).
    rewrite app_nil_r in Hl.
    unfold try_except. rewrite bind_run. unfold lift at 1. rewrite Hparse.
    cbv beta iota. rewrite bind_run. unfold get at 1. cbv beta iota. cbn [fst snd].
    unfold exists_. rewrite Hopen. rewrite bind_run, Hrun.
    unfold writestr. rewrite Hw. rewrite bind_run. unfold bind at 1, emit, modify.
    cbv beta iota.
    match goal with |- context [log_action logp ?m ?t] =>
      destruct (log_action_run logp m t) as (s3 & -> & Ha2 & Ha3 & _) end.
    exists s3. simpl in *. rewrite Ha2, Ha3, Hl, Hfs2, Hl3. done.
Qed.

Lemma for_each_returns_in {S A} (body : A -> M S unit) (l : list A) :
  (∀ x, x ∈ l -> ∀ s, fst (body x s) = Ok tt) -> ∀ s, fst (for_each body l s) = Ok tt.
Proof.
  induction l as [| x l IH]; intros H s; simpl; [reflexivity |].
  unfold bind. pose proof (H x ltac:(left) s) as Hx.
  destruct (body x s) as [[[] | e] s']; [| done].
  apply IH. intros y Hy. apply H. now right.
Qed.

Lemma source_bytes_lookup (s s' : pstate) base inner b :
  fs s' !! base = fs s !! base ->
  source_bytes s base inner b -> source_bytes s' base inner b.
Proof.
  intros Hfs. unfold source_bytes. destruct inner as [| seg segs]; [congruence |].
  intros H. apply extract_ok_final_segment in H as (zf & Hopen & Hfinal).
  simpl in Hopen.
  destruct (extract_final_segment _ _ _ Hfinal s' (OnDisk base)) as (s'' & -> & _);
    [simpl; congruence | reflexivity].
Qed.

Lemma source_bytes_exists (s : pstate) base inner b :
  source_bytes s base inner b -> ∃ data, fs s !! base = Some (RegularFile data).
Proof.
  unfold source_bytes. destruct inner as [| seg segs]; [eauto |].
  intros H. apply extract_ok_final_segment in H as (zf & Hopen & _). simpl in Hopen. eauto.
Qed.

(** The member read back under a name is the last one written under it. *)
Lemma zf_read_last (l1 l3 : list zipinfo) (name : string) (b : blob) :
  Forall (fun zi => zi_filename zi ≠ name) l3 ->
  zf_read (l1 ++ [ZipInfo name b] ++ l3) name = Ok b.
Proof.
  intros Hl3. unfold zf_read. rewrite !rev_app_distr. simpl.
  rewrite <- app_assoc. simpl.
  assert (Hfind : ∀ l rest,
            Forall (fun zi => zi_filename zi ≠ name) l ->
            List.find (fun zi => String.eqb (zi_filename zi) name) (rev l ++ rest)
            = List.find (fun zi => String.eqb (zi_filename zi) name) rest).
  { intros l rest Hl. apply Forall_rev in Hl. induction Hl as [| zi l' Hzi _ IH]; [done |].
    simpl. apply String.eqb_neq in Hzi. now rewrite Hzi. }
  rewrite (Hfind l3 _ Hl3). simpl. now rewrite String.eqb_refl.
Qed.


Lemma keeps_outside_refl del logp (s : pstate) : keeps_outside del logp s s.
Proof. intros p _ _. reflexivity. Qed.

Lemma keeps_outside_trans del logp (a b c : pstate) :
  keeps_outside del logp a b -> keeps_outside del logp b c -> keeps_outside del logp a c.
Proof. intros H1 H2 p Hp Hl. now rewrite (H2 p Hp Hl), (H1 p Hp Hl). Qed.

Lemma keeps_outside_same del logp (s s' : pstate) :
  fs s' = fs s -> keeps_outside del logp s s'.
Proof. intros H p _ _. now rewrite H. Qed.

Lemma delete_and_log_keeps del logp :
  steps (keeps_outside del logp) (delete_and_log del logp).
Proof.
  unfold delete_and_log, write_log, remove_one.
  repeat lazymatch goal with
    | |- steps _ (log_action ?lp ?m) =>
        let s := fresh "s" in
        intros s; destruct (log_action_run lp m s) as (? & -> & ? & _);
        now apply keeps_outside_same
    | |- steps _ (emit _) => intros ?; now apply keeps_outside_same
    | |- steps _ (say _) => intros ?; now apply keeps_outside_same
    | |- steps _ (modify _) => intros ?; now apply keeps_outside_same
    | |- steps _ (set_fs (fun d => delete ?p d)) =>
        let s := fresh "s" in let q := fresh "q" in let Hq := fresh "Hq" in
        intros s q Hq _; simpl; apply lookup_delete_ne; intros ->;
        apply Hq; now apply elem_of_elements
    | |- steps _ (set_fs (fun d => <[?p := _]> d)) =>
        let s := fresh "s" in let q := fresh "q" in let Hq := fresh "Hq" in
        intros s q _ Hq; simpl; apply lookup_insert_ne; intros ->; now apply Hq
    | |- steps _ (if ?c then _ else _) => destruct c
    | |- steps _ (match ?o with Some _ => _ | None => _ end) => destruct o
    | |- _ =>
        steps_with ltac:(intros; apply keeps_outside_refl)
                   ltac:(intros ? ? ?; apply keeps_outside_trans)
    end.
Qed.


(** ** The names that classify have no NUL *)

Lemma ascii_lower_nul (a b : ascii) :
  eqc (ascii_lower a) (ascii_lower b) = true -> not_nul a -> not_nul b.
Proof.
  intros H Ha ->. apply Ha. apply eqc_true in H. revert H. clear.
  destruct a as [[] [] [] [] [] [] [] []]; vm_compute; congruence.
Qed.

Lemma in_class_i_not_nul (k : charclass) (c : ascii) : in_class_i k c = true -> not_nul c.
Proof. intros H ->. destruct k; discriminate. Qed.

Lemma prefix_i_clean (p l : list ascii) :
  Forall not_nul p -> prefix_i p l = true -> Forall not_nul (take (length p) l).
Proof.
  revert l. induction p as [| a p IH]; intros l Hp H; simpl; [constructor |].
  destruct l as [| b l]; [discriminate |]. simpl in H.
  apply andb_true_iff in H as [Hab H]. apply Forall_cons in Hp as [Ha Hp].
  constructor; [eapply ascii_lower_nul; eassumption | now apply IH].
Qed.

Lemma run_clean (k : charclass) (l : list ascii) (n : nat) :
  n <= run k l -> Forall not_nul (take n l).
Proof.
  revert n. induction l as [| c l IH]; intros n Hn; simpl in *.
  - rewrite take_nil. constructor.
  - destruct n as [| n]; [constructor |]. simpl.
    destruct (in_class_i k c) eqn:Hc; [| lia].
    constructor; [now apply in_class_i_not_nul in Hc | apply IH; lia].
Qed.

Lemma countdown_le (hi lo n : nat) : n ∈ countdown hi lo -> n <= hi.
Proof.
  induction hi as [| h IH]; simpl.
  - destruct (0 <? lo)%nat; intros H; [now apply not_elem_of_nil in H |].
    apply list_elem_of_singleton in H. lia.
  - destruct (S h <? lo)%nat; intros H; [now apply not_elem_of_nil in H |].
    apply elem_of_cons in H as [-> | H]; [lia |]. apply IH in H. lia.
Qed.

Lemma take_plus {A} (n m : nat) (l : list A) :
  take (n + m) l = take n l ++ take m (drop n l).
Proof.
  revert l. induction n as [| n IH]; intros [| x l]; simpl; try reflexivity.
  - now rewrite take_nil.
  - now rewrite IH.
Qed.

Lemma rx_match_clean (r : rx) :
  Forall not_nul (rx_literals r) ->
  ∀ l n, n ∈ rx_match r l -> Forall not_nul (take n l).
Proof.
  induction r as [s | k lo hi | k | a IHa b IHb | a IHa b IHb | a IHa];
    intros Hlit l n Hn; simpl in *.
  - destruct (prefix_i (chars s) l) eqn:Hp; [| now apply not_elem_of_nil in Hn].
    apply list_elem_of_singleton in Hn. subst n. now apply prefix_i_clean.
  - apply countdown_le in Hn. apply (run_clean k). lia.
  - apply countdown_le in Hn. now apply (run_clean k).
  - apply Forall_app in Hlit as [Ha Hb].
    apply elem_of_app in Hn as [Hn | Hn]; [now apply IHa | now apply IHb].
  - apply Forall_app in Hlit as [Ha Hb].
    apply elem_of_flat_map in Hn as (n1 & Hn1 & Hn).
    apply list_elem_of_In, in_map_iff in Hn as (n2 & <- & Hn2).
    apply list_elem_of_In in Hn2. rewrite take_plus.
    apply Forall_app. split; [now apply IHa | now apply IHb].
  - apply elem_of_app in Hn as [Hn | Hn]; [now apply IHa |].
    apply list_elem_of_singleton in Hn. subst n. constructor.
Qed.

Lemma pieces_match_clean (p : pattern) :
  Forall not_nul (pattern_literals p) ->
  ∀ l gr, gr ∈ pieces_match p l -> ∃ pre, l = pre ++ snd gr ∧ Forall not_nul pre.
Proof.
  induction p as [| x p IH]; intros Hlit l gr Hin; simpl in Hin.
  - apply list_elem_of_singleton in Hin. subst gr. exists []. split; [reflexivity | constructor].
  - unfold pattern_literals in Hlit. simpl in Hlit. apply Forall_app in Hlit as [Hx Hp].
    assert (Hstep : ∃ r n gr', (x = Cap r ∨ x = NoCap r) ∧ n ∈ rx_match r l
                               ∧ gr' ∈ pieces_match p (drop n l) ∧ snd gr = snd gr').
    { destruct x as [r | r]; apply elem_of_flat_map in Hin as (n & Hn & Hin).
      - apply list_elem_of_In, in_map_iff in Hin as (gr' & <- & Hin).
        apply list_elem_of_In in Hin. exists r, n, gr'. eauto.
      - exists r, n, gr. eauto. }
    destruct Hstep as (r & n & gr' & Hr & Hn & Hin' & ->).
    destruct (IH Hp _ _ Hin') as (pre & Hpre & Hclean).
    exists (take n l ++ pre). split.
    + rewrite <- app_assoc, <- Hpre. now rewrite take_drop.
    + apply Forall_app. split; [| exact Hclean].
      apply (rx_match_clean r); [| exact Hn]. now destruct Hr as [-> | ->].
Qed.

Lemma re_match_clean (p : pattern) (s : string) groups :
  Forall not_nul (pattern_literals p) ->
  re_match p s = Some groups -> Forall not_nul (chars s).
Proof.
  intros Hlit H. unfold re_match in H.
  destruct (List.find _ _) as [gr |] eqn:E; [| discriminate].
  apply find_some in E as [Hin Hend]. apply list_elem_of_In in Hin.
  destruct (pieces_match_clean p Hlit _ _ Hin) as (pre & -> & Hpre).
  apply Forall_app. split; [exact Hpre |].
  destruct (snd gr) as [| c [| d rest]]; simpl in Hend; try discriminate; [constructor |].
  apply eqc_true in Hend. subst c. constructor; [discriminate | constructor].
Qed.

Lemma registry_literals :
  Forall (fun e => Forall not_nul (pattern_literals (fst (snd e)))) PATRONES_ESTRUCTURADOS.
Proof. unfold not_nul. apply (bool_decide_unpack _). vm_compute. exact I. Qed.

Lemma until_nul_clean (l : list ascii) : Forall not_nul l -> until_nul l = l.
Proof.
  induction 1 as [| c l Hc _ IH]; simpl; [reflexivity |].
  destruct (eqc c "000") eqn:E; [apply eqc_true in E; contradiction | now rewrite IH].
Qed.

(** [ZipInfo] keeps the name of a record as it is. *)
Lemma classified_zipinfo_filename (filename path : string) :
  is_Some (classify filename path) -> zipinfo_filename filename = filename.
Proof.
  intros [info Hinfo]. unfold classify, _analyze_filename in Hinfo.
  destruct (first_match_spec PATRONES_ESTRUCTURADOS filename path registry_ok)
    as [[_ H] | (pre & d & p & f & post & g & info' & E & _ & Hm & _)];
    [rewrite H in Hinfo; discriminate |].
  pose proof registry_literals as Hreg. rewrite E in Hreg.
  apply Forall_app in Hreg as [_ Hreg]. apply Forall_cons in Hreg as [Hp _]. simpl in Hp.
  unfold zipinfo_filename. rewrite until_nul_clean; [apply str_chars |].
  eapply re_match_clean; eassumption.
Qed.

(** ** The records packaged *)

Lemma records_keys (d : disk) search_path records (r : file_info) :
  find_files d search_path = Ok records -> r ∈ records ->
  ∃ f a, r !! "filename" = Some f ∧ r !! "path" = Some a ∧ is_Some (classify f a).
Proof.
  intros Hfind Hr. unfold find_files in Hfind.
  destruct (d !! search_path) as [[data | t] |] eqn:Hd.
  2: { destruct (find_files_run_visits d search_path t Hd) as (st & Hst & Hrun).
       rewrite Hrun in Hfind. injection Hfind as <-.
       replace st with (snd (for_each apply_visit (tree_visits search_path t)
                               (WalkState [] ∅ []))) in Hr by now rewrite Hst.
       apply visits_records_from in Hr as [Hr | (f & a & info & flag & _ & Hi & ->)];
         [now apply not_elem_of_nil in Hr |].
       destruct (classify_keys _ _ _ Hi) as (Hf & Ha & _).
       exists f, a. rewrite !lookup_insert_ne by done. rewrite Hi. eauto. }
  all: unfold find_files_run in Hfind; rewrite Hd in Hfind; injection Hfind as <-;
    now apply not_elem_of_nil in Hr.
Qed.



(** Closes an equation between closed terms by evaluating both sides. *)
Ltac by_vm := lazymatch goal with |- _ = ?b => vm_cast_no_check (@eq_refl _ b) end.

Lemma find_files_flagged_once (d : disk) search_path records :
  find_files d search_path = Ok records ->
  ∀ f, flagged_once (filter (has_filename f) records).
Proof.
  intros Hfind f. unfold find_files in Hfind.
  destruct (d !! search_path) as [[data | t] |] eqn:Hd.
  2: { destruct (find_files_run_visits d search_path t Hd) as (st & Hst & Hrun).
       rewrite Hrun in Hfind. injection Hfind as <-.
       pose proof (visits_preserve (tree_visits search_path t) _ dedup_invariant_initial)
         as (_ & H & _).
       rewrite Hst in H. apply H. }
  all: unfold find_files_run in Hfind; rewrite Hd in Hfind; injection Hfind as <-;
    exact I.
Qed.



(** ** How the extractor fails *)

Lemma open_for_read_content zp (s : pstate) :
  open_for_read zp s
  = (match content (fs s) zp with
     | Some (ZipData zf) => Ok zf
     | Some (Bytes _) => Raise BadZipFile
     | None => Raise OSError
     end, s).
Proof.
  unfold open_for_read, content, bind, get, lift, raise.
  destruct zp as [p | data]; simpl.
  - destruct (fs s !! p) as [[[raw | zf] | t] |]; reflexivity.
  - destruct data; reflexivity.
Qed.

Lemma zf_read_missing (zf : list zipinfo) (name : string) :
  Forall (fun zi => zi_filename zi ≠ name) zf -> zf_read zf name = Raise (KeyError name).
Proof.
  intros H. unfold zf_read.
  destruct (List.find _ (rev zf)) as [zi |] eqn:E; [| reflexivity].
  apply find_some in E as [Hin E]. apply String.eqb_eq in E.
  rewrite Forall_forall in H. exfalso. apply (H zi); [| exact E].
  apply list_elem_of_In. now apply in_rev.
Qed.

Lemma extract_keeps (parts : list string) :
  ∀ zip_path (s : pstate),
    let s' := snd (_extract_from_zip zip_path parts s) in
    fs s' = fs s ∧ final_zip s' = final_zip s
    ∧ log_lines s' = log_lines s ∧ log_file s' = log_file s.
Proof.
  set (R := fun s s' : pstate =>
              fs s' = fs s ∧ final_zip s' = final_zip s
              ∧ log_lines s' = log_lines s ∧ log_file s' = log_file s).
  assert (Rrefl : ∀ s, R s s) by (intros s; unfold R; done).
  assert (Rtrans : ∀ a b c, R a b -> R b c -> R a c).
  { unfold R. intros a b c (-> & -> & -> & ->) (-> & -> & -> & ->). done. }
  enough (H : ∀ zip_path, steps R (_extract_from_zip zip_path parts))
    by (intros zip_path s; apply H).
  induction parts as [| name rest IH]; intros zip_path; rewrite extract_unfold;
    repeat lazymatch goal with
      | |- steps _ (emit _) => intros s; unfold R; done
      | |- steps _ (say _) => intros s; unfold R; done
      | |- steps _ (open_for_read _) =>
          intros s; rewrite open_for_read_content; apply Rrefl
      | |- steps _ (match ?l with [] => _ | _ :: _ => _ end) => destruct l
      | |- steps _ (_extract_from_zip _ _) => apply IH
      | |- _ => steps_with ltac:(exact Rrefl) ltac:(exact Rtrans)
      end.
Qed.

(** X1: [_extract_from_zip] only reads: whatever it is given and however
    it ends, it leaves the disk, the members of the open archive, the
    log lines and the log file as they were. *)
Theorem extractor_only_reads (parts : list string) (zip_path : zip_source) (s : pstate) :
  let s' := snd (_extract_from_zip zip_path parts s) in
  fs s' = fs s ∧ final_zip s' = final_zip s
  ∧ log_lines s' = log_lines s ∧ log_file s' = log_file s.
Proof. apply extract_keeps. Qed.

(** X2: the three ways in which [_extract_from_zip] fails at its own
    level, with any segments.  What is no regular file raises [OSError]
    without a message; bytes that are no archive raise [BadZipFile]
    after the message of invalid format; and in an archive that opens,
    a first segment that names no member raises [KeyError] with that
    name, after the message that names it. *)
Theorem extractor_fails_at_its_level (zip_path : zip_source) (parts : list string)
    (s : pstate) :
  (content (fs s) zip_path = None ->
   ∃ s', _extract_from_zip zip_path parts s = (Raise OSError, s')
         ∧ console s' = console s)
  ∧ (∀ raw, content (fs s) zip_path = Some (Bytes raw) ->
       ∃ s', _extract_from_zip zip_path parts s = (Raise BadZipFile, s')
             ∧ console s' = console s ++ [InvalidZipFormat])
  ∧ (∀ zf name rest,
       content (fs s) zip_path = Some (ZipData zf) ->
       parts = name :: rest ->
       Forall (fun zi => zi_filename zi ≠ name) zf ->
       ∃ s', _extract_from_zip zip_path parts s = (Raise (KeyError name), s')
             ∧ console s' = console s ++ [PathNotFoundInsideZip name]).
Proof.
  split_and!; [intros Hc | intros raw Hc | intros zf name rest Hc -> Hmiss];
    rewrite extract_unfold; unfold bind at 1; cbn [emit modify fst snd];
    set (s1 := PState _ _ _ _ _ _);
    assert (Hfs : fs s1 = fs s) by reflexivity;
    assert (Hco : console s1 = console s) by reflexivity;
    clearbody s1; unfold try_except, bind; rewrite open_for_read_content, Hfs, Hc.
  - cbn. eauto.
  - cbn. unfold say, modify, raise. cbn. eexists. split; [reflexivity |].
    cbn. now rewrite Hco.
  - apply zf_read_missing in Hmiss.
    destruct rest as [| name' rest']; unfold lift; rewrite Hmiss; cbn;
      (eexists; split; [reflexivity |]); cbn; now rewrite Hco.
Qed.

Lemma extractor_fails_at_its_level_witness :
  content example_disk (OnDisk "/d/nothing.zip") = None
  ∧ content example_disk (OnDisk "/d/01-F001-1.xml") = Some (Bytes ["a"%byte])
  ∧ content example_disk (OnDisk "/d/pack.zip") = Some (ZipData example_pack)
  ∧ Forall (fun zi => zi_filename zi ≠ "absent.xml") example_pack
  ∧ fst (_extract_from_zip (OnDisk "/d/nothing.zip") ["a.xml"] (initial example_disk))
    = Raise OSError
  ∧ fst (_extract_from_zip (OnDisk "/d/01-F001-1.xml") ["a.xml"] (initial example_disk))
    = Raise BadZipFile
  ∧ fst (_extract_from_zip (OnDisk "/d/pack.zip") ["absent.xml"; "a.xml"]
           (initial example_disk))
    = Raise (KeyError "absent.xml").
Proof.
  assert (H1 : content example_disk (OnDisk "/d/nothing.zip") = None) by by_vm.
  assert (H2 : content example_disk (OnDisk "/d/01-F001-1.xml") = Some (Bytes ["a"%byte]))
    by by_vm.
  assert (H3 : content example_disk (OnDisk "/d/pack.zip") = Some (ZipData example_pack))
    by by_vm.
  assert (H4 : Forall (fun zi => zi_filename zi ≠ "absent.xml") example_pack).
  { repeat (constructor; [discriminate |]). constructor. }
  split_and!; try assumption.
  - destruct (extractor_fails_at_its_level (OnDisk "/d/nothing.zip") ["a.xml"]
                (initial example_disk)) as (H & _ & _).
    destruct (H H1) as (s' & -> & _). reflexivity.
  - destruct (extractor_fails_at_its_level (OnDisk "/d/01-F001-1.xml") ["a.xml"]
                (initial example_disk)) as (_ & H & _).
    destruct (H _ H2) as (s' & -> & _). reflexivity.
  - destruct (extractor_fails_at_its_level (OnDisk "/d/pack.zip") ["absent.xml"; "a.xml"]
                (initial example_disk)) as (_ & _ & H).
    destruct (H _ _ _ H3 eq_refl H4) as (s' & -> & _). reflexivity.
Defined.

(** X3: a failure below is announced again by every level above, each
    with its own first segment: when the first segment is read and the
    extraction inside it raises, the call raises the same exception and
    adds, after the messages from below, the message of its handler for
    that exception, which for a [KeyError] names the segment of this
    level and not the missing one. *)
Theorem extractor_announces_again (zip_path : zip_source) (zf : list zipinfo)
    (name : string) (rest : list string) (nested : blob) (e : exn) (s s2 : pstate) :
  content (fs s) zip_path = Some (ZipData zf) ->
  rest ≠ [] ->
  zf_read zf name = Ok nested ->
  _extract_from_zip (InMemory nested) rest
    (snd (emit (EvExtract (name :: rest)) s)) = (Raise e, s2) ->
  ∃ s', _extract_from_zip zip_path (name :: rest) s = (Raise e, s')
        ∧ console s' = console s2 ++ announced e name.
Proof.
  intros Hc Hrest Hread Hin. rewrite extract_unfold. unfold bind at 1.
  cbn [emit modify fst snd] in *. set (s1 := PState _ _ _ _ _ _) in *.
  assert (Hfs : fs s1 = fs s) by reflexivity. clearbody s1.
  unfold try_except, bind. rewrite open_for_read_content, Hfs, Hc.
  destruct rest as [| name' rest']; [done |].
  unfold lift. rewrite Hread, Hin.
  destruct e; cbn; eexists; (split; [reflexivity |]); cbn; now rewrite ?app_nil_r.
Qed.

Lemma extractor_announces_again_witness :
  ∃ s', _extract_from_zip (OnDisk "/d/pack.zip") ["inner.ZIP"; "absent.xml"]
          (initial example_disk) = (Raise (KeyError "absent.xml"), s')
        ∧ console s' = [PathNotFoundInsideZip "absent.xml"; PathNotFoundInsideZip "inner.ZIP"].
Proof.
  destruct (extractor_announces_again (OnDisk "/d/pack.zip") example_pack "inner.ZIP"
              ["absent.xml"] (ZipData example_inner) (KeyError "absent.xml")
              (initial example_disk)
              (snd (_extract_from_zip (InMemory (ZipData example_inner)) ["absent.xml"]
                      (snd (emit (EvExtract ["inner.ZIP"; "absent.xml"])
                              (initial example_disk))))))
    as (s' & Hrun & Hconsole).
  - by_vm.
  - discriminate.
  - by_vm.
  - by_vm.
  - exists s'. split; [exact Hrun |]. rewrite Hconsole. by_vm.
Defined.

(** ** What the log says of a record *)

Lemma log_action_truthy logp (m : log_line) (s : pstate) :
  truthy logp = true ->
  log_action logp m s
  = (Ok tt, PState (fs s) (final_zip s) (log_lines s ++ [m]) (log_file s) (console s)
              (trace s)).
Proof. intros H. unfold log_action. now rewrite H. Qed.

Lemma writestr_run env filename data (s : pstate) :
  writestr env filename data s
  = if writestr_fails env filename then (Raise OSError, s)
    else (Ok tt, PState (fs s) (final_zip s ++ [ZipInfo (zipinfo_filename filename) data])
                   (log_lines s) (log_file s) (console s)
                   (trace s ++ [EvWriteMember filename data])).
Proof. unfold writestr. now destruct (writestr_fails env filename). Qed.

(** Every way through the body of [package_one] ends with one line of
    the log, [m]; [Hlog] says that the log is kept. *)
Ltac outcome Hlog m :=
  cbv beta iota delta [is_Exception];
  rewrite ?(log_action_truthy _ _ _ Hlog);
  cbv beta iota delta [is_Exception];
  rewrite ?(log_action_truthy _ _ _ Hlog);
  eexists _, m; split; [reflexivity |]; cbn [log_lines final_zip].

(** X4: with a log file asked for, the log tells what happened to each
    record.  For a record with its two keys the loop adds two lines, the
    one that opens its account and one outcome; the outcome says that the
    record was added exactly when a member was written under its name,
    and otherwise it is a warning or the error of that record and the
    archive is as it was. *)
Theorem log_tells_the_outcome env logp (info : file_info) full_path filename
    (s : pstate) :
  truthy logp = true ->
  info !! "path" = Some full_path ->
  info !! "filename" = Some filename ->
  ∃ s' outcome,
    package_one env logp info s = (Ok tt, s')
    ∧ log_lines s' = log_lines s ++ [LogProcesando filename; outcome]
    ∧ ((added_line filename outcome
        ∧ ∃ data, final_zip s'
                  = final_zip s ++ [ZipInfo (zipinfo_filename filename) data])
       ∨ (not_added_line full_path outcome ∧ final_zip s' = final_zip s)).
Proof.
  intros Hlog Hpath Hname. unfold package_one, getitem. rewrite Hpath, Hname.
  rewrite bind_run. unfold lift at 1. cbv beta iota.
  rewrite bind_run. unfold lift at 1. cbv beta iota.
  rewrite bind_run, (log_action_truthy _ _ _ Hlog).
  set (s1 := PState _ _ _ _ _ _).
  assert (Hz1 : final_zip s1 = final_zip s) by reflexivity.
  assert (Hl1 : log_lines s1 = log_lines s ++ [LogProcesando filename]) by reflexivity.
  clearbody s1.
  unfold try_except. rewrite bind_run. unfold lift at 1.
  destruct (_parse_zip_path os_sep full_path) as [[base inner] | e].
  2: { outcome Hlog (LogErrorProcesando full_path e).
       rewrite Hl1, Hz1, <- app_assoc. split; [done |]. right. split; [right; eauto | done]. }
  cbv beta iota. rewrite bind_run. unfold get at 1. cbv beta iota. cbn [fst snd].
  destruct inner as [| seg segs].
  - destruct (exists_ (fs s1) base).
    2: { outcome Hlog (LogNoEncontrado base).
         rewrite Hl1, Hz1, <- app_assoc. split; [done |]. right. split; [left; eauto | done]. }
    rewrite bind_run. unfold read_file. rewrite bind_run. unfold get at 1.
    cbv beta iota.
    destruct (fs s1 !! base) as [[data | t] |]; unfold ret, raise.
    2, 3: outcome Hlog (LogErrorProcesando full_path OSError);
      rewrite Hl1, Hz1, <- app_assoc; (split; [done |]); right; split; [right; eauto | done].
    rewrite bind_run, writestr_run.
    destruct (writestr_fails env filename).
    { outcome Hlog (LogErrorProcesando full_path OSError).
      rewrite Hl1, Hz1, <- app_assoc. split; [done |]. right. split; [right; eauto | done]. }
    outcome Hlog (LogAgregado filename).
    rewrite Hl1, Hz1, <- app_assoc. split; [done |]. left. split; [now left | eauto].
  - destruct (exists_ (fs s1) base).
    2: { outcome Hlog (LogNoContenedor base).
         rewrite Hl1, Hz1, <- app_assoc. split; [done |]. right. split; [left; eauto | done]. }
    rewrite bind_run.
    pose proof (extract_keeps (seg :: segs) (OnDisk base) s1) as (_ & Hz2 & Hl2 & _).
    destruct (_extract_from_zip (OnDisk base) (seg :: segs) s1) as [[file_data | e] s2];
      cbn [snd] in Hz2, Hl2.
    2: { outcome Hlog (LogErrorProcesando full_path e).
         rewrite Hl2, Hl1, Hz2, Hz1, <- app_assoc. split; [done |].
         right. split; [right; eauto | done]. }
    rewrite bind_run, writestr_run.
    destruct (writestr_fails env filename).
    { outcome Hlog (LogErrorProcesando full_path OSError).
      rewrite Hl2, Hl1, Hz2, Hz1, <- app_assoc. split; [done |].
      right. split; [right; eauto | done]. }
    outcome Hlog (LogExtraidoYAgregado filename).
    rewrite Hl2, Hl1, Hz2, Hz1, <- app_assoc. split; [done |].
    left. split; [now right | eauto].
Qed.

Lemma log_tells_the_outcome_witness :
  ∃ s' outcome,
    package_one no_faults (Some "log.txt") example_invoice (initial example_disk)
    = (Ok tt, s')
    ∧ log_lines s'
      = log_lines (initial example_disk) ++ [LogProcesando "01-F001-1.xml"; outcome]
    ∧ ((added_line "01-F001-1.xml" outcome
        ∧ ∃ data, final_zip s'
                  = final_zip (initial example_disk)
                    ++ [ZipInfo (zipinfo_filename "01-F001-1.xml") data])
       ∨ (not_added_line "/d/01-F001-1.xml" outcome
          ∧ final_zip s' = final_zip (initial example_disk))).
Proof.
  apply (log_tells_the_outcome no_faults (Some "log.txt") example_invoice
           "/d/01-F001-1.xml" "01-F001-1.xml" (initial example_disk)); by_vm.
Defined.

Lemma package_one_log_file env logp (info : file_info) :
  steps (fun a b : pstate => log_file b = log_file a) (package_one env logp info).
Proof.
  unfold package_one.
  repeat lazymatch goal with
    | |- steps _ (log_action ?lp ?m) =>
        let s := fresh "s" in intros s; unfold log_action; now destruct (truthy lp)
    | |- steps _ (read_file ?p) =>
        let s := fresh "s" in
        intros s; unfold read_file, bind, get; now destruct (fs s !! p) as [[|] |]
    | |- steps _ (writestr ?env ?n ?d) =>
        let s := fresh "s" in
        intros s; rewrite writestr_run; now destruct (writestr_fails env n)
    | |- steps _ (_extract_from_zip ?zp ?parts) =>
        let s := fresh "s" in
        intros s; now destruct (extract_keeps parts zp s) as (_ & _ & _ & ?)
    | |- steps _ (match ?l with [] => _ | _ :: _ => _ end) => destruct l
    | |- steps _ (if ?c then _ else _) => destruct c
    | |- _ => steps_with ltac:(intros; reflexivity) ltac:(intros ? ? ?; congruence)
    end.
Qed.

(** ** A record without its keys *)

(** The step of [write_package] that makes the output directory. *)
Lemma output_dir_step logp out (s0 : pstate) :
  dirname out ≠ out ->
  ∃ s1,
    (if negb (len (dirname out) =? 0)%nat && negb (exists_ (fs s0) (dirname out))
     then bind (emit (EvMakedirs (dirname out))) (fun _ =>
          bind (set_fs (fun d => <[dirname out := Directory (DirTree [] [])]> d))
            (fun _ => log_action logp (LogDirectorioCreado (dirname out))))
     else ret tt) s0 = (Ok tt, s1)
    ∧ fs s1 !! out = fs s0 !! out ∧ log_file s1 = log_file s0.
Proof.
  intros Hdn. destruct (_ && _); [| eexists; done].
  rewrite bind_run. unfold emit at 1, modify. cbv beta iota.
  rewrite bind_run. unfold set_fs at 1, modify. cbv beta iota.
  unfold log_action. destruct (truthy logp); eexists; (split; [reflexivity |]); cbn;
    (split; [now apply lookup_insert_ne | reflexivity]).
Qed.

Lemma package_one_missing_key env logp (r : file_info) key (s : pstate) :
  missing_key r key -> package_one env logp r s = (Raise (KeyError key), s).
Proof.
  unfold package_one, getitem.
  intros [[-> ->] | ([full_path ->] & -> & ->)]; reflexivity.
Qed.

(** X5: a record without ['path'], or with it and without ['filename'],
    stops [create_zip_package]: the [KeyError] of the key leaves the loop
    and the function; the archive is closed on the way and holds members
    of records that came before only; nothing is removed and no log file
    is written. *)
Theorem missing_key_stops_packaging env before (r : file_info) after del out logp key
    (s : pstate) :
  Forall (fun r' : file_info => is_Some (r' !! "path") ∧ is_Some (r' !! "filename"))
         before ->
  missing_key r key ->
  open_fails env = false -> close_fails env = false ->
  isdir (fs s) out = false -> dirname out ≠ out ->
  ∃ s' members,
    create_zip_package env (before ++ r :: after) del out logp s
    = (Raise (KeyError key), s')
    ∧ fs s' !! out = Some (RegularFile (ZipData members))
    ∧ Forall (fun zi => ∃ r' n, r' ∈ before ∧ r' !! "filename" = Some n
                                ∧ zi_filename zi = zipinfo_filename n) members
    ∧ emits writing_event s s'
    ∧ log_file s' = log_file s.
Proof.
  intros Hkeys Hmiss Hopen Hclose Hdir Hdn.
  pose proof (write_package_writes env (before ++ r :: after) out logp s) as Hev.
  unfold create_zip_package. rewrite bind_run.
  destruct (write_package env (before ++ r :: after) out logp s) as [res s'] eqn:E.
  cbn [snd] in Hev.
  unfold write_package in E.
  rewrite bind_run in E. unfold modify at 1 in E. cbv beta iota in E.
  rewrite bind_run in E. unfold get at 1 in E. cbv beta iota in E.
  rewrite bind_run in E.
  match type of E with context [(if _ then _ else _) ?t] => set (s0 := t) in E end.
  destruct (output_dir_step logp out s0 Hdn) as (s1 & Hstep & Ho1 & Hlf1).
  rewrite Hstep in E. rewrite bind_run in E.
  unfold with_final_zip in E. rewrite bind_run, open_for_write_run, Hopen in E.
  assert (Hdir1 : isdir (fs s1) out = false) by (unfold isdir in *; now rewrite Ho1).
  rewrite Hdir1 in E. cbn [orb] in E.
  match type of E with context [for_each _ _ ?t] => set (s2 := t) in E end.
  (* the records before *)
  rewrite for_each_app, bind_run in E.
  assert (Hb1 : fst (for_each (package_one env logp) before s2) = Ok tt).
  { apply for_each_returns_in. intros x Hx t. rewrite Forall_forall in Hkeys.
    destruct (Hkeys x Hx). now apply package_one_returns. }
  set (Q := fun name : string =>
              ∃ (r' : file_info) n, r' ∈ before ∧ r' !! "filename" = Some n
                                    ∧ name = zipinfo_filename n).
  assert (Hb2 : appends Q s2 (snd (for_each (package_one env logp) before s2))).
  { refine ((_ : steps (appends Q) _) s2).
    apply steps_for_each; [apply appends_refl | apply appends_trans |].
    intros x Hx. apply package_one_appends. intros n Hn. exists x, n. done. }
  assert (Hb3 : log_file (snd (for_each (package_one env logp) before s2)) = log_file s2).
  { refine ((_ : steps (fun a b : pstate => log_file b = log_file a) _) s2).
    apply steps_for_each; [done | intros a b c; congruence |].
    intros x _. apply package_one_log_file. }
  destruct (for_each (package_one env logp) before s2) as [[[] | e] s3]; [| done].
  cbn [snd] in Hb2, Hb3. destruct Hb2 as (Hfs3 & l & Hl & HQ).
  (* the record *)
  cbn [for_each] in E. rewrite bind_run, (package_one_missing_key _ _ _ _ _ Hmiss) in E.
  rewrite close_archive_run, Hclose in E. injection E as <- <-.
  exists (PState (<[out := RegularFile (ZipData (final_zip s3))]> (fs s3)) (final_zip s3)
            (log_lines s3) (log_file s3) (console s3) (trace s3 ++ [EvCloseArchive out])),
         (final_zip s3).
  split_and!; [reflexivity | apply lookup_insert_eq | | exact Hev |].
  - rewrite Hl. exact HQ.
  - cbn. rewrite Hb3. cbn. exact Hlf1.
Qed.

Lemma missing_key_stops_packaging_witness :
  missing_key (<["path" := "/d/pack.zip"]> ∅) "filename"
  ∧ ∃ s' members,
      create_zip_package no_faults
        ([example_invoice] ++ <["path" := "/d/pack.zip"]> ∅ :: [example_at 1])
        {["/d/01-F001-1.xml"]} "/out/c.zip" (Some "log.txt") (initial example_disk)
      = (Raise (KeyError "filename"), s')
      ∧ fs s' !! "/out/c.zip" = Some (RegularFile (ZipData members))
      ∧ Forall (fun zi => ∃ r' n, r' ∈ [example_invoice] ∧ r' !! "filename" = Some n
                                  ∧ zi_filename zi = zipinfo_filename n) members
      ∧ emits writing_event (initial example_disk) s'
      ∧ log_file s' = log_file (initial example_disk).
Proof.
  assert (Hmiss : missing_key (<["path" := "/d/pack.zip"]> ∅) "filename").
  { right. split_and!; [exists "/d/pack.zip"; by_vm | by_vm | reflexivity]. }
  split; [exact Hmiss |].
  apply (missing_key_stops_packaging no_faults [example_invoice]
           (<["path" := "/d/pack.zip"]> ∅) [example_at 1] {["/d/01-F001-1.xml"]}
           "/out/c.zip" (Some "log.txt") "filename" (initial example_disk)).
  - constructor; [| constructor].
    split; [exists "/d/01-F001-1.xml" | exists "01-F001-1.xml"]; by_vm.
  - exact Hmiss.
  - reflexivity.
  - reflexivity.
  - by_vm.
  - intros E. vm_compute in E. discriminate.
Defined.

(** ** The answers of the endpoints *)

Lemma drop_tail_component_length (l : list ascii) :
  length (drop_tail_component l) <= length l.
Proof.
  induction l as [| c l IH]; simpl; [lia |]. destruct (eqc c os_sep); simpl; lia.
Qed.

Lemma lstrip_chars_length (c : ascii) (l : list ascii) :
  length (lstrip_chars c l) <= length l.
Proof.
  induction l as [| x l IH]; simpl; [lia |]. destruct (eqc x c); simpl; lia.
Qed.

(** The directory of a path that does not end with a slash is shorter
    than the path. *)
Lemma dirname_shorter (pre : list ascii) (c : ascii) :
  c ≠ os_sep -> dirname (str (pre ++ [c])) ≠ str (pre ++ [c]).
Proof.
  intros Hc E. apply (f_equal (fun x => length (chars x))) in E.
  unfold dirname in E. rewrite !chars_str, rev_app_distr in E. simpl in E.
  apply eqc_false in Hc. rewrite Hc in E.
  pose proof (drop_tail_component_length (rev pre)) as H1.
  pose proof (lstrip_chars_length os_sep (drop_tail_component (rev pre))) as H2.
  rewrite length_rev, length_app in E. simpl in E. rewrite length_rev in H1.
  destruct (lstrip_chars os_sep (drop_tail_component (rev pre))); simpl in *; lia.
Qed.

Lemma output_archive_chars request timestamp :
  isabs (output_dir request) = true ->
  ∃ mid, chars (output_archive request timestamp) = "/"%char :: mid ++ ["p"%char].
Proof.
  intros Habs. apply startswith_slash in Habs as [t Ht].
  unfold output_archive, path_join. rewrite Ht.
  change (startswith ("consolidado_" +:+ timestamp +:+ ".zip") "/") with false.
  cbv beta iota.
  destruct (_ || _); rewrite !chars_app; cbn [chars list_ascii_of_string app].
  - exists (chars t ++ chars "consolidado_" ++ chars timestamp ++ chars ".zi").
    cbn. rewrite <- app_assoc. cbn. now rewrite <- app_assoc.
  - exists (chars t ++ chars "/consolidado_" ++ chars timestamp ++ chars ".zi").
    cbn. rewrite <- app_assoc. cbn. now rewrite <- app_assoc.
Qed.

Lemma output_archive_not_its_directory request timestamp :
  isabs (output_dir request) = true ->
  dirname (output_archive request timestamp) ≠ output_archive request timestamp
  ∧ output_archive request timestamp ≠ "logs".
Proof.
  intros Habs. destruct (output_archive_chars request timestamp Habs) as [mid Hmid].
  split.
  - rewrite <- (str_chars (output_archive request timestamp)), Hmid.
    apply (dirname_shorter ("/"%char :: mid)). discriminate.
  - intros E. rewrite E in Hmid. discriminate.
Qed.


Lemma prepare_total (all : list file_info) :
  Forall (fun r : file_info => is_Some (r !! "path")) all ->
  ∀ pkg0 del0, ∃ pkg del, prepare all pkg0 del0 = Ok (pkg, del).
Proof.
  induction 1 as [| r all [a Ha] _ IH]; intros pkg0 del0; simpl; [eauto |].
  unfold getitem, index. rewrite Ha. simpl.
  destruct (split_parts ":" a) as (p & ps & -> & _). simpl. apply IH.
Qed.

(** The first record of a run is flagged [UNICO]. *)
Lemma first_record_unico (d : disk) search_path (r : file_info) records :
  find_files d search_path = Ok (r :: records) -> r !! "status" = Some "UNICO".
Proof.
  intros Hfind.
  destruct (records_keys _ _ _ r Hfind ltac:(left)) as (f & a & Hf & _).
  pose proof (find_files_flagged_once _ _ _ Hfind f) as Hflag.
  rewrite filter_cons, decide_True in Hflag by exact Hf. apply Hflag.
Qed.





(** ** The characters of a name that classifies *)

Section Matched.
Variable ok : ascii -> Prop.
Hypothesis ok_case : ∀ a b, eqc (ascii_lower a) (ascii_lower b) = true -> ok a -> ok b.
Hypothesis ok_class : ∀ k c, in_class_i k c = true -> ok c.

Lemma prefix_i_matched (p l : list ascii) :
  Forall ok p -> prefix_i p l = true -> Forall ok (take (length p) l).
Proof.
  revert l. induction p as [| a p IH]; intros l Hp H; simpl; [constructor |].
  destruct l as [| b l]; [discriminate |]. simpl in H.
  apply andb_true_iff in H as [Hab H]. apply Forall_cons in Hp as [Ha Hp].
  constructor; [eapply ok_case; eassumption | now apply IH].
Qed.

Lemma run_matched (k : charclass) (l : list ascii) (n : nat) :
  n <= run k l -> Forall ok (take n l).
Proof.
  revert n. induction l as [| c l IH]; intros n Hn; simpl in *.
  - rewrite take_nil. constructor.
  - destruct n as [| n]; [constructor |]. simpl.
    destruct (in_class_i k c) eqn:Hc; [| lia].
    constructor; [now apply ok_class in Hc | apply IH; lia].
Qed.

Lemma rx_match_matched (r : rx) :
  Forall ok (rx_literals r) ->
  ∀ l n, n ∈ rx_match r l -> Forall ok (take n l).
Proof.
  induction r as [s | k lo hi | k | a IHa b IHb | a IHa b IHb | a IHa];
    intros Hlit l n Hn; simpl in *.
  - destruct (prefix_i (chars s) l) eqn:Hp; [| now apply not_elem_of_nil in Hn].
    apply list_elem_of_singleton in Hn. subst n. now apply prefix_i_matched.
  - apply countdown_le in Hn. apply (run_matched k). lia.
  - apply countdown_le in Hn. now apply (run_matched k).
  - apply Forall_app in Hlit as [Ha Hb].
    apply elem_of_app in Hn as [Hn | Hn]; [now apply IHa | now apply IHb].
  - apply Forall_app in Hlit as [Ha Hb].
    apply elem_of_flat_map in Hn as (n1 & Hn1 & Hn).
    apply list_elem_of_In, in_map_iff in Hn as (n2 & <- & Hn2).
    apply list_elem_of_In in Hn2. rewrite take_plus.
    apply Forall_app. split; [now apply IHa | now apply IHb].
  - apply elem_of_app in Hn as [Hn | Hn]; [now apply IHa |].
    apply list_elem_of_singleton in Hn. subst n. constructor.
Qed.

(** What a match leaves is the end of the input, and what it consumed
    is made of the characters of the pattern. *)
Lemma pieces_match_matched (p : pattern) :
  Forall ok (pattern_literals p) ->
  ∀ l gr, gr ∈ pieces_match p l -> ∃ pre, l = pre ++ snd gr ∧ Forall ok pre.
Proof.
  induction p as [| x p IH]; intros Hlit l gr Hin; simpl in Hin.
  - apply list_elem_of_singleton in Hin. subst gr. exists []. split; [reflexivity | constructor].
  - unfold pattern_literals in Hlit. simpl in Hlit. apply Forall_app in Hlit as [Hx Hp].
    assert (Hstep : ∃ r n gr', (x = Cap r ∨ x = NoCap r) ∧ n ∈ rx_match r l
                               ∧ gr' ∈ pieces_match p (drop n l) ∧ snd gr = snd gr').
    { destruct x as [r | r]; apply elem_of_flat_map in Hin as (n & Hn & Hin).
      - apply list_elem_of_In, in_map_iff in Hin as (gr' & <- & Hin).
        apply list_elem_of_In in Hin. exists r, n, gr'. eauto.
      - exists r, n, gr. eauto. }
    destruct Hstep as (r & n & gr' & Hr & Hn & Hin' & ->).
    destruct (IH Hp _ _ Hin') as (pre & Hpre & Hclean).
    exists (take n l ++ pre). split.
    + rewrite <- app_assoc, <- Hpre. now rewrite take_drop.
    + apply Forall_app. split; [| exact Hclean].
      apply (rx_match_matched r); [| exact Hn]. now destruct Hr as [-> | ->].
Qed.

Lemma re_match_matched (p : pattern) (s : string) groups :
  Forall ok (pattern_literals p) ->
  re_match p s = Some groups -> ∃ body, up_to_newline s body ∧ Forall ok body.
Proof.
  intros Hlit H. unfold re_match in H.
  destruct (List.find _ _) as [gr |] eqn:E; [| discriminate].
  apply find_some in E as [Hin Hend]. apply list_elem_of_In in Hin.
  destruct (pieces_match_matched p Hlit _ _ Hin) as (pre & Hs & Hpre).
  exists pre. split; [| exact Hpre]. unfold up_to_newline. rewrite Hs.
  destruct (snd gr) as [| c [| d rest]]; simpl in Hend; try discriminate.
  - left. apply app_nil_r.
  - right. apply eqc_true in Hend. now subst c.
Qed.
End Matched.

Lemma name_char_lower (c : ascii) : name_char (ascii_lower c) = name_char c.
Proof. destruct c as [[] [] [] [] [] [] [] []]; reflexivity. Qed.

Lemma name_char_class (k : charclass) (c : ascii) :
  in_class_i k c = true -> name_char c = true.
Proof. destruct k; destruct c as [[] [] [] [] [] [] [] []]; vm_compute; congruence. Qed.

Lemma registry_name_chars :
  Forall (fun e => Forall (fun c => name_char c = true) (pattern_literals (fst (snd e))))
         PATRONES_ESTRUCTURADOS.
Proof. apply (bool_decide_unpack _). vm_compute. exact I. Qed.

(** A name that classifies, cut at its first matching entry. *)
Lemma classify_entry (filename path : string) :
  is_Some (classify filename path) ->
  ∃ doc_type pattern fields groups,
    (doc_type, (pattern, fields)) ∈ PATRONES_ESTRUCTURADOS
    ∧ re_match pattern filename = Some groups.
Proof.
  intros [info Hinfo]. unfold classify, _analyze_filename in Hinfo.
  destruct (first_match_spec PATRONES_ESTRUCTURADOS filename path registry_ok)
    as [[_ H] | (pre & d & p & f & post & g & info' & E & _ & Hm & _)];
    [rewrite H in Hinfo; discriminate |].
  exists d, p, f, g. split; [| exact Hm]. rewrite E. apply elem_of_app. right. left.
Qed.

(** X8: a name that [_analyze_filename] classifies is made of letters,
    digits, [-], [_] and [.] only, possibly followed by one newline; so
    it has no colon, no slash, no backslash and no NUL.  The letters and
    digits are those of ASCII, names being strings of code points
    0..255: beyond these [\d] also matches the other decimal digits of
    Unicode. *)
Theorem classified_name_chars (filename path : string) (info : file_info) :
  _analyze_filename filename path = Ok (Some info) ->
  (∃ body, up_to_newline filename body ∧ Forall (fun c => name_char c = true) body)
  ∧ Forall (fun c => c ∉ [":"; "/"; "\"; "000"]%char) (chars filename).
Proof.
  intros H.
  assert (Hc : is_Some (classify filename path)) by (unfold classify; rewrite H; eauto).
  destruct (classify_entry _ _ Hc) as (d & p & f & g & Hin & Hm).
  pose proof registry_name_chars as Hreg. rewrite Forall_forall in Hreg.
  specialize (Hreg _ Hin). simpl in Hreg.
  destruct (re_match_matched (fun c => name_char c = true)) with (p := p) (s := filename)
    (groups := g) as (body & Hshape & Hbody); try assumption.
  - intros a b Hab Ha. apply eqc_true in Hab.
    now rewrite <- name_char_lower, <- Hab, name_char_lower.
  - apply name_char_class.
  - split; [eauto |].
    assert (Hb : Forall (fun c => c ∉ [":"; "/"; "\"; "000"]%char) body).
    { eapply Forall_impl; [exact Hbody |]. intros c Hc' Hin'.
      rewrite !elem_of_cons in Hin'.
      destruct Hin' as [-> | [-> | [-> | [-> | Hin']]]]; try discriminate.
      now apply not_elem_of_nil in Hin'. }
    destruct Hshape as [-> | ->]; [exact Hb |].
    apply Forall_app. split; [exact Hb |]. constructor; [| constructor].
    rewrite !elem_of_cons. intros [? | [? | [? | [? | Hin']]]]; try discriminate.
    now apply not_elem_of_nil in Hin'.
Qed.

Lemma classified_name_chars_witness :
  (∃ body, up_to_newline "01-F001-1.xml" body ∧ Forall (fun c => name_char c = true) body)
  ∧ Forall (fun c => c ∉ [":"; "/"; "\"; "000"]%char) (chars "01-F001-1.xml").
Proof.
  apply (classified_name_chars "01-F001-1.xml" "/d/01-F001-1.xml"
           (delete "status" example_invoice)).
  by_vm.
Defined.

(** ** A newline at the end of a name *)

Lemma lower_is_newline (a : ascii) : eqc (ascii_lower a) (ascii_lower nl) = true -> a = nl.
Proof.
  intros H. apply eqc_true in H. revert H.
  destruct a as [[] [] [] [] [] [] [] []]; vm_compute; congruence.
Qed.

Lemma prefix_i_newline (p l : list ascii) :
  nl ∉ p -> prefix_i p (l ++ [nl]) = prefix_i p l.
Proof.
  revert l. induction p as [| a p IH]; intros l Hp; [reflexivity |].
  apply not_elem_of_cons in Hp as [Ha Hp].
  destruct l as [| b l]; simpl.
  - destruct (eqc (ascii_lower a) (ascii_lower nl)) eqn:E; [| reflexivity].
    apply lower_is_newline in E. congruence.
  - now rewrite IH.
Qed.

Lemma run_newline (k : charclass) (l : list ascii) : run k (l ++ [nl]) = run k l.
Proof.
  induction l as [| c l IH]; simpl; [now destruct k | now rewrite IH].
Qed.

Lemma rx_match_bound (r : rx) : ∀ l n, n ∈ rx_match r l -> n <= length l.
Proof.
  intros l n Hn.
  pose proof (rx_match_matched (fun _ => True) (fun _ _ _ _ => I) (fun _ _ _ => I) r) as H.
  destruct (le_gt_dec n (length l)) as [Hle | Hgt]; [exact Hle |].
  (* a match longer than the input would have to consume past its end *)
  exfalso. revert l n Hn Hgt. clear H.
  induction r as [s | k lo hi | k | a IHa b IHb | a IHa b IHb | a IHa];
    intros l n Hn Hgt; simpl in Hn.
  - destruct (prefix_i (chars s) l) eqn:Hp; [| now apply not_elem_of_nil in Hn].
    apply list_elem_of_singleton in Hn. subst n.
    revert l Hp Hgt. induction (chars s) as [| x p IH]; intros l Hp Hgt; simpl in *; [lia |].
    destruct l as [| y l]; [discriminate |]. apply andb_true_iff in Hp as [_ Hp].
    apply (IH l Hp). simpl in Hgt. lia.
  - apply countdown_le in Hn.
    assert (run k l <= length l) by (clear; induction l; simpl; [lia | destruct (in_class_i _ _); simpl; lia]).
    lia.
  - apply countdown_le in Hn.
    assert (run k l <= length l) by (clear; induction l; simpl; [lia | destruct (in_class_i _ _); simpl; lia]).
    lia.
  - apply elem_of_app in Hn as [Hn | Hn]; [eapply IHa | eapply IHb]; eassumption.
  - apply elem_of_flat_map in Hn as (n1 & Hn1 & Hn).
    apply list_elem_of_In, in_map_iff in Hn as (n2 & <- & Hn2).
    apply list_elem_of_In in Hn2.
    destruct (le_gt_dec n1 (length l)) as [H1 | H1]; [| eapply IHa; eassumption].
    apply (IHb (drop n1 l) n2 Hn2). rewrite length_drop. lia.
  - apply elem_of_app in Hn as [Hn | Hn]; [eapply IHa; eassumption |].
    apply list_elem_of_singleton in Hn. lia.
Qed.

Lemma flat_map_ext_in {A B} (f g : A -> list B) (l : list A) :
  (∀ x, x ∈ l -> f x = g x) -> flat_map f l = flat_map g l.
Proof.
  induction l as [| x l IH]; intros H; simpl; [reflexivity |].
  rewrite (H x) by left. f_equal. apply IH. intros y Hy. apply H. now right.
Qed.

Lemma rx_match_newline (r : rx) :
  nl ∉ rx_literals r -> ∀ l, rx_match r (l ++ [nl]) = rx_match r l.
Proof.
  induction r as [s | k lo hi | k | a IHa b IHb | a IHa b IHb | a IHa];
    intros Hlit l; simpl in *.
  - now rewrite prefix_i_newline.
  - now rewrite run_newline.
  - now rewrite run_newline.
  - apply not_elem_of_app in Hlit as [Ha Hb]. now rewrite IHa, IHb.
  - apply not_elem_of_app in Hlit as [Ha Hb]. rewrite (IHa Ha).
    apply flat_map_ext_in. intros n Hn. apply rx_match_bound in Hn.
    now rewrite drop_app_le, (IHb Hb).
  - now rewrite IHa.
Qed.

(** With the newline added, the matches are the same and each leaves
    the newline more. *)
Lemma pieces_match_newline (p : pattern) :
  nl ∉ pattern_literals p ->
  ∀ l, pieces_match p (l ++ [nl])
       = map (fun gr => (fst gr, snd gr ++ [nl])) (pieces_match p l).
Proof.
  induction p as [| x p IH]; intros Hlit l; [reflexivity |].
  unfold pattern_literals in Hlit. simpl in Hlit.
  apply not_elem_of_app in Hlit as [Hx Hp].
  destruct x as [r | r]; simpl; rewrite (rx_match_newline r Hx), map_flat_map;
    apply flat_map_ext_in; intros n Hn; apply rx_match_bound in Hn;
    rewrite drop_app_le, (IH Hp) by exact Hn.
  - rewrite !map_map. apply map_ext. intros gr. simpl.
    now rewrite take_app_le.
  - reflexivity.
Qed.

Lemma find_ext_in {A} (P Q : A -> bool) (l : list A) :
  (∀ x, x ∈ l -> P x = Q x) -> List.find P l = List.find Q l.
Proof.
  induction l as [| x l IH]; intros H; simpl; [reflexivity |].
  rewrite (H x) by left. destruct (Q x); [reflexivity |].
  apply IH. intros y Hy. apply H. now right.
Qed.

Lemma re_match_newline (p : pattern) (s : string) :
  nl ∉ pattern_literals p -> nl ∉ chars s ->
  re_match p (s +:+ newline) = re_match p s.
Proof.
  intros Hlit Hs. unfold re_match.
  rewrite chars_app. change (chars newline) with [nl].
  rewrite (pieces_match_newline p Hlit), find_map.
  rewrite <- option_fmap_compose.
  rewrite (find_ext_in _ (fun gr => at_end (snd gr))); [reflexivity |].
  intros gr Hin. simpl.
  destruct (pieces_match_matched (fun _ => True) (fun _ _ _ _ => I) (fun _ _ _ => I) p)
    with (l := chars s) (gr := gr) as (pre & Hpre & _);
    [apply Forall_forall; done | exact Hin |].
  assert (Hrest : nl ∉ snd gr).
  { intros H. apply Hs. rewrite Hpre. apply elem_of_app. now right. }
  destruct (snd gr) as [| c [| d rest]]; simpl; try reflexivity.
  destruct (eqc c "010") eqn:E; [| reflexivity].
  apply eqc_true in E. subst c. exfalso. apply Hrest. left.
Qed.

Lemma assign_fields_insert (fields groups : list string) (k v : string) :
  k ∉ fields ->
  ∀ i (m : file_info),
    assign_fields i fields groups (<[k := v]> m)
    = match assign_fields i fields groups m with
      | Ok m' => Ok (<[k := v]> m')
      | Raise e => Raise e
      end.
Proof.
  induction fields as [| f fields IH]; intros Hk i m; simpl; [reflexivity |].
  apply not_elem_of_cons in Hk as [Hne Hk].
  destruct (groups !! i) as [g |]; [| reflexivity].
  rewrite insert_insert_ne by congruence. now apply IH.
Qed.

Lemma registry_no_newline :
  Forall (fun e => nl ∉ pattern_literals (fst (snd e))) PATRONES_ESTRUCTURADOS.
Proof. apply (bool_decide_unpack _). vm_compute. exact I. Qed.

Lemma first_match_newline registry (filename path : string) :
  Forall entry_ok registry ->
  Forall (fun e => nl ∉ pattern_literals (fst (snd e))) registry ->
  nl ∉ chars filename ->
  first_match registry (filename +:+ newline) path
  = match first_match registry filename path with
    | Ok (Some info) => Ok (Some (<["filename" := filename +:+ newline]> info))
    | other => other
    end.
Proof.
  intros Hok Hlit Hf. induction Hok as [| [doc_type [pattern fields]] registry Hok _ IH];
    [reflexivity |].
  apply Forall_cons in Hlit as [Hp Hlit]. simpl in Hp. simpl.
  rewrite (re_match_newline _ _ Hp Hf).
  destruct (re_match pattern filename) as [groups |]; [| now apply IH].
  destruct Hok as (_ & _ & _ & Hfn & _). simpl in Hfn.
  replace (<["path" := path]> (<["filename" := filename +:+ newline]>
             (<["classification" := doc_type]> ∅)) : file_info)
    with (<["filename" := filename +:+ newline]>
            (<["path" := path]> (<["filename" := filename]>
               (<["classification" := doc_type]> ∅))) : file_info).
  - rewrite (assign_fields_insert _ _ _ _ Hfn). now destruct (assign_fields _ _ _ _).
  - rewrite (insert_insert_ne _ "filename" "path") by done.
    now rewrite insert_insert_eq.
Qed.

(** X9: [$] accepts a newline at the end.  A name without newline and
    the same name followed by one newline are classified alike: with
    the same pattern and the same groups, the record of the second being
    that of the first with the longer name under ['filename']; and
    neither classifies when the other does not. *)
Theorem trailing_newline_is_accepted (filename path : string) :
  nl ∉ chars filename ->
  _analyze_filename (filename +:+ newline) path
  = match _analyze_filename filename path with
    | Ok (Some info) => Ok (Some (<["filename" := filename +:+ newline]> info))
    | other => other
    end.
Proof.
  intros Hf. unfold _analyze_filename.
  apply first_match_newline; [apply registry_ok | apply registry_no_newline | exact Hf].
Qed.

Lemma trailing_newline_is_accepted_witness :
  (nl ∉ chars "01-F001-1.xml")
  ∧ ∃ info, _analyze_filename ("01-F001-1.xml" +:+ newline) "/d/x" = Ok (Some info)
            ∧ info !! "classification" = Some "factura"
            ∧ info !! "ext" = Some "xml".
Proof.
  assert (H : nl ∉ chars "01-F001-1.xml").
  { apply (bool_decide_unpack _). vm_compute. exact I. }
  split; [exact H |].
  pose proof (trailing_newline_is_accepted "01-F001-1.xml" "/d/x" H) as E.
  eexists. split; [exact E |]. split; by_vm.
Defined.

(** ** The shape of a record *)

Lemma startswith_chars_app (p l : list ascii) : startswith_chars p (p ++ l) = true.
Proof. induction p as [| a p IH]; simpl; [reflexivity | now rewrite eqc_refl]. Qed.

Lemma endswith_suffix (s f : string) :
  (∃ pre, chars s = pre ++ chars f) -> endswith s f = true.
Proof.
  intros [pre H]. unfold endswith. rewrite H, rev_app_distr. apply startswith_chars_app.
Qed.

Lemma split_chars_last (sep : ascii) (l : list ascii) :
  ∃ ws w pre, split_chars sep l = ws ++ [w] ∧ l = pre ++ w.
Proof.
  induction l as [| c l (ws & w & pre & IH & Hl)]; simpl.
  - exists [], [], []. done.
  - destruct (eqc c sep).
    + exists ([] :: ws), w, (c :: pre). rewrite IH, Hl. done.
    + rewrite IH. destruct ws as [| v ws]; simpl.
      * exists [], (c :: w), []. rewrite Hl. simpl in *.
        split; [reflexivity |]. f_equal.
        (* the only part is the whole text *)
        pose proof (f_equal (@length ascii) Hl) as Hlen. rewrite length_app in Hlen.
        destruct pre; [reflexivity |].
        exfalso. clear -IH Hl Hlen.
        destruct (split_chars_spec sep l) as (w0 & ws0 & E & _ & _ & Hj).
        rewrite IH in E. injection E as <- <-. simpl in Hj. rewrite app_nil_r in Hj.
        rewrite Hj in Hlen. simpl in Hlen. lia.
      * exists ((c :: v) :: ws), w, (c :: pre). rewrite Hl. done.
Qed.

Lemma basename_suffix (p : string) : ∃ pre, chars p = pre ++ chars (basename p).
Proof.
  unfold basename.
  destruct (split_chars_last os_sep (chars p)) as (ws & w & pre & E & Hl).
  rewrite E, rev_app_distr. simpl. exists pre. now rewrite chars_str.
Qed.

Lemma path_join_suffix (root name : string) :
  ∃ pre, chars (path_join root name) = pre ++ chars name.
Proof.
  unfold path_join. destruct (startswith name "/"); [now exists [] |].
  destruct (_ || _); rewrite !chars_app.
  - eauto.
  - exists (chars root ++ chars "/"). now rewrite <- app_assoc.
Qed.

Lemma inside_suffix zf address f a :
  inside zf address f a -> ∃ pre, chars a = pre ++ chars f.
Proof.
  induction 1 as [zf address zname data _ _ | zf address zname nested f a _ _ _ _ _ IH];
    [| exact IH].
  destruct (basename_suffix zname) as [pre Hpre].
  exists (chars address ++ chars ":" ++ pre). rewrite !chars_app, Hpre.
  now rewrite <- !app_assoc.
Qed.

Lemma walked_suffix search_path t f a :
  walked search_path t f a -> ∃ pre, chars a = pre ++ chars f.
Proof.
  intros [root files name data _ _ | root files name zip_file f' a' _ _ _ _ Hin].
  - apply path_join_suffix.
  - eapply inside_suffix; eassumption.
Qed.

(** A record of a run: the node of the walk it comes from, and the
    record of the classifier it was made of. *)
Lemma record_origin (d : disk) search_path records (r : file_info) :
  find_files d search_path = Ok records -> r ∈ records ->
  ∃ t f a info flag,
    d !! search_path = Some (Directory t) ∧ walked search_path t f a
    ∧ classify f a = Some info ∧ r = <["status" := flag]> info.
Proof.
  intros Hfind Hr. unfold find_files in Hfind.
  destruct (d !! search_path) as [[data | t] |] eqn:Hd.
  2: { destruct (find_files_run_visits d search_path t Hd) as (st & Hst & Hrun).
       rewrite Hrun in Hfind. injection Hfind as <-.
       replace st with (snd (for_each apply_visit (tree_visits search_path t)
                               (WalkState [] ∅ []))) in Hr by now rewrite Hst.
       apply visits_records_from in Hr as [Hr | (f & a & info & flag & Hv & Hi & ->)];
         [now apply not_elem_of_nil in Hr |].
       exists t, f, a, info, flag. split_and!; try done. now apply tree_visits_walked. }
  all: unfold find_files_run in Hfind; rewrite Hd in Hfind; injection Hfind as <-;
    now apply not_elem_of_nil in Hr.
Qed.

Lemma registry_has_ext :
  Forall (fun e => "ext" ∈ snd (snd e)) PATRONES_ESTRUCTURADOS.
Proof. apply (bool_decide_unpack _). vm_compute. exact I. Qed.

(** X10: what every record of [find_files] holds.  Its tag is that of
    an entry of the registry whose pattern matches its name; each field
    of that entry, ['ext'] among them, holds the group at its position;
    the flag is [UNICO] or [DUPLICADO]; and the address ends with the
    name. *)
Theorem found_record_shape (d : disk) search_path records (r : file_info) :
  find_files d search_path = Ok records -> r ∈ records ->
  ∃ doc_type pattern fields groups filename path,
    (doc_type, (pattern, fields)) ∈ PATRONES_ESTRUCTURADOS
    ∧ re_match pattern filename = Some groups
    ∧ r !! "classification" = Some doc_type
    ∧ r !! "filename" = Some filename
    ∧ r !! "path" = Some path
    ∧ (r !! "status" = Some "UNICO" ∨ r !! "status" = Some "DUPLICADO")
    ∧ (∀ i field, fields !! i = Some field -> is_Some (groups !! i)
                                              ∧ r !! field = groups !! i)
    ∧ is_Some (r !! "ext")
    ∧ endswith path filename = true.
Proof.
  intros Hfind Hr.
  destruct (record_origin _ _ _ _ Hfind Hr) as (t & f & a & info & flag & Hd & Hw & Hi & E).
  unfold classify, _analyze_filename in Hi.
  destruct (first_match_spec PATRONES_ESTRUCTURADOS f a registry_ok)
    as [[_ H] | (pre & doc & p & fields & post & g & info' & Ereg & _ & Hm & H & Hc & Hf
                 & Hp & _ & Hlen & Hpos)];
    rewrite H in Hi; [discriminate |]. injection Hi as <-.
  assert (Hin : (doc, (p, fields)) ∈ PATRONES_ESTRUCTURADOS)
    by (rewrite Ereg; apply elem_of_app; right; left).
  pose proof registry_ok as Hok. rewrite Forall_forall in Hok.
  destruct (Hok _ Hin) as (_ & _ & _ & _ & _ & Hst). simpl in Hst.
  pose proof registry_has_ext as Hext. rewrite Forall_forall in Hext.
  specialize (Hext _ Hin). simpl in Hext.
  assert (Hfield : ∀ i field, fields !! i = Some field ->
                     is_Some (g !! i) ∧ r !! field = g !! i).
  { intros i field Hi. split.
    - apply lookup_lt_is_Some. rewrite Hlen. now apply lookup_lt_Some in Hi.
    - rewrite E, lookup_insert_ne; [now apply Hpos |].
      intros <-. apply Hst. now apply list_elem_of_lookup_2 in Hi. }
  exists doc, p, fields, g, f, a. subst r.
  split_and!; try done; try (now rewrite lookup_insert_ne).
  - (* the flag *)
    pose proof (find_files_flagged_once _ _ _ Hfind f) as Hflag.
    assert (Hr' : <["status" := flag]> info' ∈ filter (has_filename f) records).
    { apply list_elem_of_filter. split; [| exact Hr].
      unfold has_filename. now rewrite lookup_insert_ne. }
    destruct (filter (has_filename f) records) as [| r1 others];
      [now apply not_elem_of_nil in Hr' |].
    destruct Hflag as [H1 Hothers].
    apply elem_of_cons in Hr' as [-> | Hr']; [now left |].
    rewrite Forall_forall in Hothers. right. now apply Hothers.
  - apply list_elem_of_lookup in Hext as [i Hi].
    destruct (Hfield i "ext" Hi) as [Hs ->]. exact Hs.
  - apply endswith_suffix. eapply walked_suffix; eassumption.
Qed.

Lemma found_record_shape_witness :
  ∃ doc_type pattern fields groups filename path,
    (doc_type, (pattern, fields)) ∈ PATRONES_ESTRUCTURADOS
    ∧ re_match pattern filename = Some groups
    ∧ example_at 3 !! "classification" = Some doc_type
    ∧ example_at 3 !! "filename" = Some filename
    ∧ example_at 3 !! "path" = Some path
    ∧ (example_at 3 !! "status" = Some "UNICO"
       ∨ example_at 3 !! "status" = Some "DUPLICADO")
    ∧ (∀ i field, fields !! i = Some field -> is_Some (groups !! i)
                                              ∧ example_at 3 !! field = groups !! i)
    ∧ is_Some (example_at 3 !! "ext")
    ∧ endswith path filename = true.
Proof.
  apply (found_record_shape example_disk "/d" example_records (example_at 3)).
  - by_vm.
  - apply list_elem_of_lookup. exists 3. by_vm.
Defined.

(** ** Reading back the addresses of the records *)

Lemma clean_text_spec (s : string) :
  clean_text s = true -> no_colon s ∧ "\"%char ∉ chars s.
Proof.
  unfold clean_text, no_colon. rewrite forallb_forall. intros H.
  split; intros Hin; apply list_elem_of_In, H in Hin;
    rewrite andb_true_iff, !negb_true_iff in Hin; destruct Hin as [H1 H2];
    [now rewrite eqc_refl in H1 | now rewrite eqc_refl in H2].
Qed.

Lemma tidy_member_nested zname nested :
  tidy_member (ZipInfo zname (ZipData nested)) = true ->
  clean_text zname = true ∧ tidy_archive nested = true.
Proof.
  simpl. rewrite !andb_true_iff. intros (Hc & Hnd & Hall).
  split; [exact Hc |]. unfold tidy_archive. rewrite andb_true_iff. split; [exact Hnd |].
  clear Hnd. induction nested as [| z l IH]; [reflexivity |].
  apply andb_true_iff in Hall as [Hz Hl]. simpl. now rewrite Hz, IH.
Qed.

Lemma tidy_member_clean zi : tidy_member zi = true -> clean_text (zi_filename zi) = true.
Proof. destruct zi as [zname data]. simpl. rewrite andb_true_iff. tauto. Qed.

(** Under a path that no other member has, a member is read back. *)
Lemma zf_read_member (zf : list zipinfo) zname data :
  NoDup (map zi_filename zf) -> ZipInfo zname data ∈ zf -> zf_read zf zname = Ok data.
Proof.
  intros Hnd Hin. apply list_elem_of_split in Hin as (l1 & l3 & ->).
  apply (zf_read_last l1 l3). rewrite map_app in Hnd. apply NoDup_app in Hnd as (_ & _ & Hnd).
  simpl in Hnd. apply NoDup_cons in Hnd as [Hnot _].
  apply Forall_forall. intros zi Hzi E. apply Hnot. rewrite <- E.
  apply list_elem_of_In, in_map. now apply list_elem_of_In.
Qed.

Lemma join_two (sep p : string) (q : string) (qs : list string) :
  join sep (p :: q :: qs) = p +:+ sep +:+ join sep (q :: qs).
Proof. reflexivity. Qed.

(** The address of a node inside a tidy archive: the address of the
    archive, then the member paths that lead to the node, which the
    archive reads back one inside the other. *)
Lemma inside_segments zf address f a :
  inside zf address f a -> tidy_archive zf = true ->
  ∃ seg segs b,
    a = address +:+ ":" +:+ join ":" (seg :: segs)
    ∧ Forall (fun x => clean_text x = true) (seg :: segs)
    ∧ final_segment zf (seg :: segs) b.
Proof.
  induction 1 as [zf address zname data Hzi _
                 | zf address zname nested f a Hzi _ _ _ _ IH]; intros Htidy;
    apply andb_true_iff in Htidy as [Hnd Hall]; apply bool_decide_eq_true in Hnd;
    rewrite forallb_forall in Hall;
    pose proof (Hall _ (proj1 (list_elem_of_In _ _) Hzi)) as Hm.
  - exists zname, [], data. split_and!; [reflexivity | |].
    + constructor; [exact (tidy_member_clean _ Hm) | constructor].
    + apply final_here. now apply zf_read_member.
  - apply tidy_member_nested in Hm as [Hc Hn].
    destruct (IH Hn) as (seg & segs & b & -> & Hclean & Hfinal).
    exists zname, (seg :: segs), b. split_and!.
    + rewrite join_two. now rewrite !append_assoc.
    + now constructor.
    + eapply final_nested; [| exact Hfinal]. now apply zf_read_member.
Qed.

Lemma split_join (p : string) (ps : list string) :
  Forall no_colon (p :: ps) -> split ":" (join ":" (p :: ps)) = p :: ps.
Proof.
  revert p. induction ps as [| q ps IH]; intros p H; apply Forall_cons in H as [Hp Hps].
  - now apply split_no_sep.
  - rewrite join_two. unfold split. rewrite !chars_app. simpl.
    rewrite (split_chars_app _ _ _ Hp). simpl. rewrite str_chars. f_equal.
    apply (IH q Hps).
Qed.

Lemma replace_absent (a b : ascii) (s : string) : a ∉ chars s -> replace a b s = s.
Proof.
  intros H. apply chars_inj. rewrite chars_replace.
  induction (chars s) as [| c l IH]; [reflexivity |].
  apply not_elem_of_cons in H as [Hc Hl]. simpl.
  destruct (eqc c a) eqn:E; [apply eqc_true in E; congruence | now rewrite IH].
Qed.

Lemma replace_same (a : ascii) (s : string) : replace a a s = s.
Proof.
  apply chars_inj. rewrite chars_replace.
  induction (chars s) as [| c l IH]; [reflexivity |]. simpl.
  destruct (eqc c a) eqn:E; [apply eqc_true in E; subst c |]; now rewrite IH.
Qed.

Lemma chars_join_absent (x : ascii) (p : string) (ps : list string) :
  x ≠ ":"%char -> Forall (fun q => x ∉ chars q) (p :: ps) ->
  x ∉ chars (join ":" (p :: ps)).
Proof.
  intros Hx H. rewrite chars_join. apply Forall_cons in H as [Hp Hps].
  apply not_elem_of_app. split; [exact Hp |].
  induction Hps as [| q qs Hq _ IH]; simpl; [apply not_elem_of_nil |].
  rewrite not_elem_of_cons, not_elem_of_app. split_and!; [congruence | exact Hq | exact IH].
Qed.

(** On POSIX the resolver gives back the file and the segments that an
    address was made of. *)
Lemma parse_zip_path_join (base : string) (segs : list string) :
  clean_text base = true -> (2 <= len base)%nat ->
  Forall (fun x => clean_text x = true) segs ->
  _parse_zip_path os_sep (join ":" (base :: segs)) = Ok (base, segs).
Proof.
  intros Hb Hlen Hsegs.
  assert (Hall : Forall (fun x => no_colon x ∧ "\"%char ∉ chars x) (base :: segs)).
  { constructor; [now apply clean_text_spec |].
    eapply Forall_impl; [exact Hsegs |]. intros x. apply clean_text_spec. }
  unfold _parse_zip_path.
  rewrite replace_absent.
  2: { apply chars_join_absent; [discriminate |].
       eapply Forall_impl; [exact Hall |]. now intros x [_ H]. }
  rewrite split_join by (eapply Forall_impl; [exact Hall |]; now intros x [H _]).
  cbn [index lookup list_lookup length].
  assert (E : (len base =? 1)%nat = false) by (apply Nat.eqb_neq; lia).
  destruct segs as [| seg segs']; cbn [Nat.ltb Nat.leb and_then drop fst snd];
    rewrite ?E; cbn [length and_then drop fst snd index lookup list_lookup];
    unfold os_sep; now rewrite replace_same.
Qed.

Lemma record_address_resolves (s : pstate) search_path t records (r : file_info)
    (a : string) :
  fs s !! search_path = Some (Directory t) ->
  tidy_tree search_path t = true ->
  holds_tree (fs s) search_path t ->
  find_files (fs s) search_path = Ok records ->
  r ∈ records -> r !! "path" = Some a ->
  ∃ base data inner b,
    (base, data) ∈ walked_files search_path t
    ∧ a = join ":" (base :: inner)
    ∧ _parse_zip_path os_sep a = Ok (base, inner)
    ∧ source_bytes s base inner b.
Proof.
  intros Hd Htidy Hholds Hfind Hr Ha.
  destruct (records_walked _ _ _ _ _ _ Hd Hfind Hr Ha) as [f Hw].
  unfold tidy_tree in Htidy. rewrite forallb_forall in Htidy.
  unfold holds_tree in Hholds. rewrite Forall_forall in Hholds.
  assert (Hfile : ∀ root files name data,
            (root, files) ∈ os_walk search_path t -> (name, data) ∈ files ->
            (path_join root name, data) ∈ walked_files search_path t).
  { intros root files name data Hrf Hf. unfold walked_files.
    apply elem_of_flat_map. exists (root, files). split; [exact Hrf |].
    apply list_elem_of_In, in_map_iff. exists (name, data).
    split; [reflexivity | now apply list_elem_of_In]. }
  destruct Hw as [root files name data Hrf Hf | root files name zip_file f' a' Hrf Hf _ _ Hin].
  - pose proof (Hfile _ _ _ _ Hrf Hf) as Hin.
    pose proof (Htidy _ (proj1 (list_elem_of_In _ _) Hin)) as Ht.
    unfold tidy_file in Ht. rewrite !andb_true_iff in Ht. destruct Ht as [[Hc Hl] _].
    apply Nat.leb_le in Hl. cbn [fst] in Hc, Hl.
    exists (path_join root name), data, [], data. split_and!; [exact Hin | reflexivity | |].
    + now apply (parse_zip_path_join _ []).
    + exact (Hholds _ Hin).
  - pose proof (Hfile _ _ _ _ Hrf Hf) as Hin'.
    pose proof (Htidy _ (proj1 (list_elem_of_In _ _) Hin')) as Ht.
    unfold tidy_file in Ht. rewrite !andb_true_iff in Ht. destruct Ht as [[Hc Hl] Hz].
    apply Nat.leb_le in Hl. cbn [fst snd] in Hc, Hl, Hz.
    destruct (inside_segments _ _ _ _ Hin Hz) as (seg & segs & b & -> & Hclean & Hfinal).
    exists (path_join root name), (ZipData zip_file), (seg :: segs), b.
    split_and!; [exact Hin' | reflexivity | |].
    + change (path_join root name +:+ ":" +:+ join ":" (seg :: segs))
        with (join ":" (path_join root name :: seg :: segs)).
      now apply parse_zip_path_join.
    + unfold source_bytes.
      destruct (extract_final_segment _ _ _ Hfinal s (OnDisk (path_join root name)))
        as (s' & -> & _); [| reflexivity].
      exact (Hholds _ Hin').
Qed.

(** X11: on a tidy tree that the disk holds, the address of every
    record of [find_files] can be read back: the resolver gives the full
    path of a file of the walk and the member paths that the walker
    went through, and there are source bytes at that address, the file
    itself without segment and what [_extract_from_zip] returns
    otherwise. *)
Theorem found_address_resolves (s : pstate) search_path t records (r : file_info)
    (a : string) :
  fs s !! search_path = Some (Directory t) ->
  tidy_tree search_path t = true ->
  holds_tree (fs s) search_path t ->
  find_files (fs s) search_path = Ok records ->
  r ∈ records -> r !! "path" = Some a ->
  ∃ base data inner b,
    (base, data) ∈ walked_files search_path t
    ∧ a = join ":" (base :: inner)
    ∧ _parse_zip_path os_sep a = Ok (base, inner)
    ∧ source_bytes s base inner b.
Proof. apply record_address_resolves. Qed.

Lemma found_address_resolves_witness :
  tidy_tree "/d" example_tree = true
  ∧ holds_tree example_disk "/d" example_tree
  ∧ ∃ base data inner b,
      (base, data) ∈ walked_files "/d" example_tree
      ∧ "/d/pack.zip:inner.ZIP:deep.zip:08-F001-4.xml" = join ":" (base :: inner)
      ∧ _parse_zip_path os_sep "/d/pack.zip:inner.ZIP:deep.zip:08-F001-4.xml"
        = Ok (base, inner)
      ∧ source_bytes (initial example_disk) base inner b.
Proof.
  assert (Htidy : tidy_tree "/d" example_tree = true) by by_vm.
  assert (Hholds : holds_tree example_disk "/d" example_tree).
  { unfold holds_tree.
    let l := eval vm_compute in (walked_files "/d" example_tree) in
    change (walked_files "/d" example_tree) with l.
    repeat (constructor; [by_vm |]). constructor. }
  split_and!; [exact Htidy | exact Hholds |].
  apply (found_address_resolves (initial example_disk) "/d" example_tree example_records
           (example_at 3)).
  - by_vm.
  - exact Htidy.
  - exact Hholds.
  - by_vm.
  - apply list_elem_of_lookup. exists 3. by_vm.
  - by_vm.
Defined.

(** ** The whole archive of a tidy tree *)

(** The loop of the packager over records whose sources can all be
    read: one member for each, in order. *)
Lemma package_loop_all env logp (s0 : pstate) (files : list file_info) :
  (∀ n, writestr_fails env n = false) ->
  Forall (fun r : file_info =>
            ∃ filename full_path base inner b,
              r !! "filename" = Some filename ∧ r !! "path" = Some full_path
              ∧ zipinfo_filename filename = filename
              ∧ _parse_zip_path os_sep full_path = Ok (base, inner)
              ∧ source_bytes s0 base inner b) files ->
  ∀ s, fs s = fs s0 ->
       ∃ s' l, for_each (package_one env logp) files s = (Ok tt, s')
               ∧ fs s' = fs s0
               ∧ final_zip s' = final_zip s ++ l
               ∧ Forall2 (member_of_record s0) files l.
Proof.
  intros Hw. induction 1 as [| r files (f & a & base & inner & b & Hf & Ha & Hz & Hp & Hsrc) _ IH];
    intros s Hfs.
  - exists s, []. split_and!; [reflexivity | exact Hfs | now rewrite app_nil_r | constructor].
  - cbn [for_each]. rewrite bind_run.
    destruct (package_one_source env logp r _ _ _ _ b s Ha Hf Hp
                (source_bytes_same_disk _ _ _ _ _ Hfs Hsrc) (Hw f)) as (s1 & -> & Hl1 & Hfs1).
    destruct (IH s1 ltac:(congruence)) as (s' & l & -> & Hfs' & Hl & Hall).
    exists s', (ZipInfo f b :: l). split_and!; [reflexivity | exact Hfs' | |].
    + rewrite Hl, Hl1, Hz, <- app_assoc. reflexivity.
    + constructor; [| exact Hall]. exists f, a, base, inner. done.
Qed.

(** The whole of a tidy tree goes into the archive. *)
Lemma packs_tidy_tree env (s : pstate) search_path t records del out logp :
  fs s !! search_path = Some (Directory t) ->
  tidy_tree search_path t = true ->
  holds_tree (fs s) search_path t ->
  find_files (fs s) search_path = Ok records ->
  Forall (fun pf => fst pf ≠ out) (walked_files search_path t) ->
  isdir (fs s) out = false -> dirname out ≠ out -> out ∉ del -> logp ≠ Some out ->
  open_fails env = false -> close_fails env = false ->
  (∀ n, writestr_fails env n = false) ->
  ∃ s' members,
    create_zip_package env (unique_records records) del out logp s = (Ok tt, s')
    ∧ fs s' !! out = Some (RegularFile (ZipData members))
    ∧ Forall2 (member_of_record s) (unique_records records) members.
Proof.
  intros Hd Htidy Hholds Hfind Hout Hdir Hdn Hdel Hlog Hopen Hclose Hw.
  (* every record has its source, away from the output archive *)
  assert (Hsrc : Forall (fun r : file_info =>
            ∃ filename full_path base inner b,
              r !! "filename" = Some filename ∧ r !! "path" = Some full_path
              ∧ zipinfo_filename filename = filename
              ∧ _parse_zip_path os_sep full_path = Ok (base, inner)
              ∧ source_bytes s base inner b ∧ base ≠ out) (unique_records records)).
  { apply Forall_forall. intros r Hr. apply list_elem_of_filter in Hr as [_ Hr].
    destruct (records_keys _ _ _ _ Hfind Hr) as (f & a & Hf & Ha & Hc).
    destruct (record_address_resolves s _ _ _ _ _ Hd Htidy Hholds Hfind Hr Ha)
      as (base & data & inner & b & Hin & _ & Hp & Hb).
    exists f, a, base, inner, b. split_and!; try done.
    - eapply classified_zipinfo_filename; eassumption.
    - rewrite Forall_forall in Hout. exact (Hout _ Hin). }
  unfold create_zip_package. rewrite bind_run.
  unfold write_package.
  rewrite bind_run. unfold modify at 1. cbv beta iota.
  rewrite bind_run. unfold get at 1. cbv beta iota.
  set (s0 := PState (fs s) (final_zip s) [] (log_file s) (console s) (trace s)).
  rewrite bind_run.
  (* the output directory: made only where nothing was *)
  assert (Hprefix : ∃ s1,
            (if negb (len (dirname out) =? 0)%nat && negb (exists_ (fs s0) (dirname out))
             then bind (emit (EvMakedirs (dirname out))) (fun _ =>
                  bind (set_fs (fun d => <[dirname out := Directory (DirTree [] [])]> d))
                    (fun _ => log_action logp (LogDirectorioCreado (dirname out))))
             else ret tt) s0 = (Ok tt, s1)
            ∧ fs s1 !! out = fs s !! out
            ∧ ∀ p, is_Some (fs s !! p) -> fs s1 !! p = fs s !! p).
  { destruct (negb (len (dirname out) =? 0)%nat) eqn:Hlen; simpl;
      [destruct (exists_ (fs s) (dirname out)) eqn:Hex; simpl |];
      try (eexists; split_and!; reflexivity).
    rewrite bind_run. unfold emit at 1, modify. cbv beta iota.
    rewrite bind_run. unfold set_fs at 1, modify. cbv beta iota.
    match goal with |- context [log_action logp ?m ?t] =>
      destruct (log_action_run logp m t) as (s1 & -> & Hf & _) end.
    exists s1. split; [reflexivity |]. rewrite Hf. simpl.
    split; [now apply lookup_insert_ne |].
    intros p [x Hx]. apply lookup_insert_ne. intros E. rewrite E in Hex.
    unfold exists_ in Hex. now rewrite Hx in Hex. }
  destruct Hprefix as (s1 & -> & Ho1 & Hkeep1).
  rewrite bind_run. unfold with_final_zip. rewrite bind_run, open_for_write_run.
  assert (Hdir1 : isdir (fs s1) out = false) by (unfold isdir in *; now rewrite Ho1).
  rewrite Hopen, Hdir1. cbn [orb].
  set (s2 := PState _ [] _ _ _ _).
  assert (Hsrc2 : Forall (fun r : file_info =>
            ∃ filename full_path base inner b,
              r !! "filename" = Some filename ∧ r !! "path" = Some full_path
              ∧ zipinfo_filename filename = filename
              ∧ _parse_zip_path os_sep full_path = Ok (base, inner)
              ∧ source_bytes s2 base inner b) (unique_records records)).
  { eapply Forall_impl; [exact Hsrc |].
    intros r (f & a & base & inner & b & Hf & Ha & Hz & Hp & Hb & Hne).
    exists f, a, base, inner, b. split_and!; try done.
    apply (source_bytes_lookup s); [| exact Hb].
    unfold s2. cbn [fs]. rewrite lookup_insert_ne by congruence.
    apply Hkeep1. destruct (source_bytes_exists _ _ _ _ Hb) as [x Hx]. eauto. }
  destruct (package_loop_all env logp s2 _ Hw Hsrc2 s2 eq_refl)
    as (s3 & members & -> & Hfs3 & Hl3 & Hall).
  cbn [final_zip app] in Hl3. unfold s2 in Hl3 at 1. cbn [final_zip app] in Hl3.
  rewrite close_archive_run, Hclose.
  destruct (log_action_run logp (LogPaqueteCreado out)
              (PState (<[out := RegularFile (ZipData (final_zip s3))]> (fs s3))
                 (final_zip s3) (log_lines s3) (log_file s3) (console s3)
                 (trace s3 ++ [EvCloseArchive out]))) as (s5 & -> & Hfs5 & _).
  pose proof (delete_and_log_returns del logp s5) as Hret.
  pose proof (delete_and_log_keeps del logp s5 out Hdel Hlog) as Hkeep.
  destruct (delete_and_log del logp s5) as [res s6]. simpl in *. subst res.
  exists s6, members. split_and!; [reflexivity | |].
  - rewrite Hkeep, Hfs5. simpl. rewrite Hl3. apply lookup_insert_eq.
  - (* the sources are those of the store at the start *)
    clear -Hall Hsrc Hkeep1.
    revert Hsrc. induction Hall as [| r zi rs zis (f & a & base & inner & Hf & Ha & Hn & Hp & Hb) _ IH];
      intros Hsrc; [constructor |].
    apply Forall_cons in Hsrc as [(f' & a' & base' & inner' & b' & Hf' & Ha' & _ & Hp' & Hb' & Hne) Hsrc].
    constructor; [| now apply IH].
    exists f, a, base, inner. split_and!; try done.
    assert (E : (base', inner') = (base, inner)) by congruence. injection E as -> ->.
    apply (source_bytes_lookup s2); [| exact Hb].
    unfold s2. cbn [fs]. rewrite lookup_insert_ne by congruence.
    symmetry. apply Hkeep1. destruct (source_bytes_exists _ _ _ _ Hb') as [x Hx]. eauto.
Qed.

(** X12: on a tidy tree that the disk holds, with no fault and an output
    archive that is no file of the walk, no directory, no deletion
    target and not the log file, [create_zip_package] on the records
    flagged [UNICO] returns, and the archive holds exactly one member
    for each of them, in their order, under the name of the record and
    with the source bytes of its address. *)
Theorem tidy_tree_is_packed_whole env (s : pstate) search_path t records del out logp :
  fs s !! search_path = Some (Directory t) ->
  tidy_tree search_path t = true ->
  holds_tree (fs s) search_path t ->
  find_files (fs s) search_path = Ok records ->
  Forall (fun pf => fst pf ≠ out) (walked_files search_path t) ->
  isdir (fs s) out = false -> dirname out ≠ out -> out ∉ del -> logp ≠ Some out ->
  open_fails env = false -> close_fails env = false ->
  (∀ n, writestr_fails env n = false) ->
  ∃ s' members,
    create_zip_package env (unique_records records) del out logp s = (Ok tt, s')
    ∧ fs s' !! out = Some (RegularFile (ZipData members))
    ∧ Forall2 (member_of_record s) (unique_records records) members.
Proof. apply packs_tidy_tree. Qed.

Lemma tidy_tree_is_packed_whole_witness :
  ∃ s' members,
    create_zip_package no_faults (unique_records example_records) ∅ "/out/c.zip"
      (Some "/out/c.txt") (initial example_disk) = (Ok tt, s')
    ∧ fs s' !! "/out/c.zip" = Some (RegularFile (ZipData members))
    ∧ Forall2 (member_of_record (initial example_disk)) (unique_records example_records)
              members.
Proof.
  apply (tidy_tree_is_packed_whole no_faults (initial example_disk) "/d" example_tree
           example_records ∅ "/out/c.zip" (Some "/out/c.txt")).
  - by_vm.
  - by_vm.
  - unfold holds_tree.
    let l := eval vm_compute in (walked_files "/d" example_tree) in
    change (walked_files "/d" example_tree) with l.
    repeat (constructor; [by_vm |]). constructor.
  - by_vm.
  - let l := eval vm_compute in (walked_files "/d" example_tree) in
    change (walked_files "/d" example_tree) with l.
    repeat (constructor; [intros [=] |]). constructor.
  - by_vm.
  - intros E. vm_compute in E. discriminate.
  - apply not_elem_of_empty.
  - intros [=].
  - reflexivity.
  - reflexivity.
  - reflexivity.
Defined.

(** ** What a run does to the disk *)

Section Touches.
Variable A : string -> Prop.
Variable D : gset string.

Lemma touches_refl (s : pstate) : touches A D s s.
Proof. intros p. now left. Qed.

Lemma touches_same (s s' : pstate) : fs s' = fs s -> touches A D s s'.
Proof. intros H p. left. now rewrite H. Qed.

Lemma touches_trans (a b c : pstate) :
  touches A D a b -> touches A D b c -> touches A D a c.
Proof.
  intros H1 H2 p. destruct (H2 p) as [E2 | [Ha | [Hd Hn]]]; [| now right; left | now right; right].
  destruct (H1 p) as [E1 | [Ha | [Hd Hn]]]; [left; congruence | now right; left |].
  right. right. split; [exact Hd | congruence].
Qed.

Lemma touches_insert (k : string) (x : fsobj) :
  A k -> steps (touches A D) (set_fs (fun d => <[k := x]> d)).
Proof.
  intros Hk s p. cbn. destruct (decide (p = k)) as [-> | Hne]; [now right; left |].
  left. now apply lookup_insert_ne.
Qed.

Lemma touches_delete (k : string) :
  k ∈ D -> steps (touches A D) (set_fs (fun d => delete k d)).
Proof.
  intros Hk s p. cbn. destruct (decide (p = k)) as [-> | Hne].
  - right. right. split; [exact Hk | apply lookup_delete_eq].
  - left. now apply lookup_delete_ne.
Qed.
End Touches.

(** One step along the structure of a command, for [touches]. *)
Ltac touches_steps :=
  repeat lazymatch goal with
    | |- steps _ (log_action ?lp ?m) =>
        let s := fresh "s" in
        intros s; destruct (log_action_run lp m s) as (? & -> & ? & _);
        now apply touches_same
    | |- steps _ (emit _) => intros ?; now apply touches_same
    | |- steps _ (say _) => intros ?; now apply touches_same
    | |- steps _ (if ?c then _ else _) => destruct c
    | |- _ =>
        steps_with ltac:(intros; apply touches_refl)
                   ltac:(intros ? ? ?; apply touches_trans)
    end.

Lemma write_package_touches env files del out logp :
  steps (touches (package_writes out logp) del) (write_package env files out logp).
Proof.
  unfold write_package. touches_steps.
  - intros s. now apply touches_same.
  - lazymatch goal with
    | |- steps _ (set_fs (fun d => <[?k := ?x]> d)) => apply (touches_insert _ _ k x)
    end.
    right. now left.
  - unfold with_final_zip. touches_steps.
    + intros s. rewrite open_for_write_run. destruct (_ || _); [apply touches_refl |].
      intros p. cbn. destruct (decide (p = out)) as [-> | Hne]; [right; left; now left |].
      left. now apply lookup_insert_ne.
    + intros s.
      assert (Hloop : fs (snd (for_each (package_one env logp) files s)) = fs s).
      { refine (proj1 ((_ : steps (appends (fun _ => True)) _) s)).
        apply steps_for_each; [apply appends_refl | apply appends_trans |].
        intros x _. now apply package_one_appends. }
      destruct (for_each (package_one env logp) files s) as [[[] | e] s1];
        cbn [snd] in Hloop; rewrite close_archive_run;
        destruct (close_fails env); cbn [snd]; try (now apply touches_same);
        intros p; cbn; (destruct (decide (p = out)) as [-> | Hne];
          [right; left; now left | left; rewrite lookup_insert_ne by done; now rewrite Hloop]).
Qed.

Lemma delete_and_log_touches del out logp :
  steps (touches (package_writes out logp) del) (delete_and_log del logp).
Proof.
  unfold delete_and_log. touches_steps.
  - unfold remove_one. touches_steps.
    destruct (fs _ !! _) as [[|] |]; touches_steps.
    lazymatch goal with
    | |- steps _ (set_fs (fun d => delete ?k d)) => apply (touches_delete _ _ k)
    end.
    match goal with H : _ ∈ elements _ |- _ => apply elem_of_elements in H; exact H end.
  - destruct logp as [p |]; touches_steps. unfold write_log. touches_steps.
    + lazymatch goal with
      | |- steps _ (set_fs (fun d => <[?k := ?x]> d)) => apply (touches_insert _ _ k x)
      end.
      right. now right.
    + intros s. now apply touches_same.
Qed.

Lemma create_zip_package_touches env files del out logp :
  steps (touches (package_writes out logp) del) (create_zip_package env files del out logp).
Proof.
  unfold create_zip_package. touches_steps;
    [apply write_package_touches | apply delete_and_log_touches].
Qed.

Lemma touches_mono (A A' : string -> Prop) (D : gset string) (s s' : pstate) :
  (∀ p, A p -> A' p) -> touches A D s s' -> touches A' D s s'.
Proof. intros H Ht p. destruct (Ht p) as [? | [? | ?]]; auto. Qed.

(** X13: what [/process] can do to the disk.  Whatever the request and
    however the call ends, a path of the disk is left as it was unless
    it is the directory [logs], the output archive, its directory or the
    log file, or unless deletion was asked for and the path is the part
    before the first [":"] of the address of a record of the scan, in
    which case it is gone. *)
Theorem process_endpoint_touches env timestamp request (s : pstate) :
  ∃ records,
    find_files (fs s) (search_path request) = Ok records
    ∧ ∀ p,
        let s' := snd (process_endpoint env timestamp request s) in
        fs s' !! p = fs s !! p
        ∨ (p = "logs"
           ∨ package_writes (output_archive request timestamp)
                            (Some (process_log timestamp)) p)
        ∨ (delete_originals request = true
           ∧ fs s' !! p = None
           ∧ ∃ r a, r ∈ records ∧ r !! "path" = Some a ∧ split ":" a !! 0 = Some p).
Proof.
  destruct (call_find_files_run (search_path request) s)
    as (records & s1 & Hcall & Hfind & Hfs & _).
  exists records. split; [exact Hfind |]. intros p. cbv zeta.
  remember (snd (process_endpoint env timestamp request s)) as s' eqn:Es'.
  unfold process_endpoint in Es'. rewrite bind_run in Es'. unfold get at 1 in Es'.
  cbv beta iota zeta in Es'.
  destruct (_ || _); [subst s'; now left |].
  destruct (negb (isabs (output_dir request)) || negb (isdir (fs s) (output_dir request)))
    eqn:Hod; [subst s'; now left |].
  apply orb_false_iff in Hod as [_ Hod]. apply negb_false_iff in Hod.
  rewrite try_except_raise_state, bind_run, Hcall in Es'.
  destruct records as [| r0 rest] eqn:Erec; [subst s'; left; now rewrite <- Hfs |].
  rewrite <- Erec in *. clear Erec r0 rest.
  rewrite bind_run in Es'. unfold lift at 1 in Es'.
  destruct (prepare records [] ∅) as [[pkg del] | e] eqn:Hprep;
    [| subst s'; left; now rewrite <- Hfs].
  apply prepare_spec in Hprep as [_ Hdel]. cbn [fst snd] in Es'.
  destruct pkg as [| p0 pkgs] eqn:Epkg; [subst s'; left; now rewrite <- Hfs |].
  rewrite <- Epkg in Es'. clear Epkg p0 pkgs.
  (* the output directory is there *)
  rewrite bind_run in Es'.
  assert (Hmk1 : makedirs_exist_ok (output_dir request) s1 = (Ok tt, s1)).
  { unfold makedirs_exist_ok, bind, get. unfold isdir in Hod. rewrite Hfs.
    destruct (fs s !! output_dir request) as [[|] |]; done. }
  rewrite Hmk1 in Es'.
  fold (output_archive request timestamp) in Es'. fold (process_log timestamp) in Es'.
  remember (if delete_originals request then del else (∅ : gset string)) as D eqn:ED.
  set (A' := fun q : string =>
               q = "logs" ∨ package_writes (output_archive request timestamp)
                                           (Some (process_log timestamp)) q).
  assert (Hrun : touches A' D s1 s').
  { rewrite Es'.
    match goal with |- touches _ _ s1 (snd (?c s1)) =>
      refine ((_ : steps (touches A' D) c) s1) end.
    touches_steps.
    - unfold makedirs_exist_ok. touches_steps.
      destruct (fs _ !! "logs") as [[|] |]; touches_steps.
      lazymatch goal with
      | |- steps _ (set_fs (fun d => <[?k := ?x]> d)) => apply (touches_insert _ _ k x)
      end.
      now left.
    - intros t. eapply touches_mono; [| apply create_zip_package_touches].
      intros q Hq. now right. }
  clear Es'.
  destruct (Hrun p) as [E | [Ha | [Hd Hn]]].
  - left. now rewrite E, Hfs.
  - right. now left.
  - right. right. rewrite ED in Hd.
    destruct (delete_originals request); [| now apply not_elem_of_empty in Hd].
    split_and!; [reflexivity | exact Hn |].
    apply Hdel in Hd as [Hd | Hd]; [now apply not_elem_of_empty in Hd | exact Hd].
Qed.

(** ** After the deletions *)







(** ** The resolver undoes the addresses *)

Lemma replace_app (a b : ascii) (x y : string) :
  replace a b (x +:+ y) = replace a b x +:+ replace a b y.
Proof.
  apply chars_inj. now rewrite chars_app, !chars_replace, chars_app, map_app.
Qed.

Lemma replace_back (a b : ascii) (s : string) :
  b ∉ chars s -> replace b a (replace a b s) = s.
Proof.
  intros H. apply chars_inj. rewrite !chars_replace, map_map.
  induction (chars s) as [| c l IH]; [reflexivity |].
  apply not_elem_of_cons in H as [Hc Hl]. simpl. rewrite (IH Hl). f_equal.
  destruct (eqc c a) eqn:E.
  - apply eqc_true in E. subst c. now rewrite eqc_refl.
  - destruct (eqc c b) eqn:E'; [apply eqc_true in E'; congruence | reflexivity].
Qed.

Lemma replace_keeps_clean (s : string) :
  clean_text s = true -> replace "\" "/" s = s.
Proof. intros H. apply replace_absent. now apply clean_text_spec. Qed.

Lemma replace_join (a b : ascii) (sep : string) (parts : list string) :
  replace a b sep = sep ->
  replace a b (join sep parts) = join sep (map (replace a b) parts).
Proof.
  intros Hsep. induction parts as [| p [| q ps] IH]; [reflexivity | reflexivity |].
  rewrite join_two. cbn [map]. rewrite join_two, !replace_app, Hsep. now rewrite IH.
Qed.

Lemma lstrip_no_lead (c : ascii) (s : string) :
  startswith s (String c "") = false -> lstrip c s = s.
Proof.
  unfold startswith, lstrip. destruct s as [| x s]; [reflexivity |]. simpl.
  rewrite andb_true_r. intros H.
  assert (E : eqc x c = false).
  { destruct (eqc x c) eqn:E; [| reflexivity]. apply eqc_true in E. subst x.
    now rewrite eqc_refl in H. }
  rewrite E. simpl. now rewrite str_chars.
Qed.

(** On a platform whose separator is the backslash: an address made of
    a drive letter, [":\"], a path and member paths gives them back. *)
Lemma parse_zip_path_drive (c : ascii) (p : string) (segs : list string) :
  is_upper c || is_lower c = true ->
  no_colon p -> "/"%char ∉ chars p -> startswith p "\" = false ->
  Forall (fun x => clean_text x = true) segs ->
  _parse_zip_path "\" (join ":" (String c (":\" +:+ p) :: segs))
  = Ok (String c (":\" +:+ p), segs).
Proof.
  intros Hc Hp Hslash Hlead Hsegs.
  set (p' := replace "\" "/" p).
  assert (Hp' : no_colon p') by (apply replace_keeps_absent; [discriminate | exact Hp]).
  assert (Hlead' : startswith p' "/" = false).
  { unfold p', startswith in *. rewrite chars_replace.
    destruct (chars p) as [| x l]; [reflexivity |]. simpl in *.
    rewrite andb_true_r in *.
    destruct (eqc x "\") eqn:E; [apply eqc_true in E; subst x; discriminate |].
    apply not_elem_of_cons in Hslash as [Hx _].
    destruct (eqc "/" x) eqn:E'; [apply eqc_true in E'; congruence | reflexivity]. }
  assert (Hnc : Forall no_colon segs).
  { eapply Forall_impl; [exact Hsegs |]. intros x Hx. now apply clean_text_spec. }
  assert (Hsame : map (replace "\" "/") segs = segs).
  { clear -Hsegs. induction Hsegs as [| x l Hx _ IH]; [reflexivity |].
    simpl. now rewrite (replace_keeps_clean x Hx), IH. }
  assert (Hcc : c ≠ ":"%char ∧ c ≠ "\"%char).
  { split; intros ->; discriminate. }
  destruct Hcc as [Hc1 Hc2].
  unfold _parse_zip_path.
  (* the address with its slashes *)
  assert (E1 : replace "\" "/" (join ":" (String c (":\" +:+ p) :: segs))
               = join ":" (String c "" :: String "/" p' :: segs)).
  { rewrite (replace_join _ _ ":") by reflexivity. cbn [map]. rewrite Hsame.
    change (String c (":\" +:+ p)) with (String c "" +:+ ":\" +:+ p).
    rewrite !replace_app.
    assert (Ec : replace "\" "/" (String c "") = String c "").
    { unfold replace. cbn. destruct (eqc c "\") eqn:E; [| reflexivity].
      apply eqc_true in E. congruence. }
    rewrite Ec. change (replace "\" "/" ":\") with ":/". fold p'.
    destruct segs as [| seg segs']; reflexivity. }
  rewrite E1.
  rewrite split_join.
  2: { constructor; [| constructor; [| exact Hnc]].
       - apply no_colon_cons. split; [exact Hc1 | apply not_elem_of_nil].
       - apply no_colon_cons. split; [discriminate | exact Hp']. }
  cbn [length Nat.ltb Nat.leb index lookup list_lookup and_then len chars
         list_ascii_of_string Nat.eqb].
  change (startswith (String "/" p') "/") with true.
  cbn [and_then drop].
  (* what follows the drive *)
  assert (E2 : lstrip "/" (join ":" (String "/" p' :: segs)) = join ":" (p' :: segs)).
  { replace (join ":" (String "/" p' :: segs)) with (String "/" (join ":" (p' :: segs)))
      by (destruct segs; reflexivity).
    rewrite lstrip_cons. apply lstrip_no_lead.
    destruct segs as [| seg segs']; [exact Hlead' |].
    rewrite join_two. unfold startswith in *. rewrite chars_app.
    destruct (chars p') as [| x l]; [reflexivity | exact Hlead']. }
  rewrite E2, split_join by (constructor; assumption).
  cbn [index lookup list_lookup and_then drop fst snd].
  f_equal. f_equal.
  change (String c "" +:+ ":/" +:+ p') with (String c "" +:+ ":/" +:+ p').
  rewrite !replace_app.
  assert (Ec : replace "/" "\" (String c "") = String c "").
  { unfold replace. cbn. destruct (eqc c "/") eqn:E; [| reflexivity].
    apply eqc_true in E. subst c. discriminate. }
  rewrite Ec. change (replace "/" "\" ":/") with ":\".
  unfold p'. now rewrite replace_back.
Qed.

(** X15: the resolver undoes the way addresses are built.  On POSIX, a
    full path of two characters at least joined by [":"] with member
    paths, all without colon or backslash, resolves into that path and
    those member paths.  With the backslash as separator, the same holds
    for a path made of a drive letter, [":\"] and a text without colon
    or slash that does not start with a backslash. *)
Theorem resolver_undoes_addresses :
  (∀ base segs,
     clean_text base = true -> (2 <= len base)%nat ->
     Forall (fun x => clean_text x = true) segs ->
     _parse_zip_path "/" (join ":" (base :: segs)) = Ok (base, segs))
  ∧ (∀ c p segs,
       is_upper c || is_lower c = true ->
       no_colon p -> "/"%char ∉ chars p -> startswith p "\" = false ->
       Forall (fun x => clean_text x = true) segs ->
       _parse_zip_path "\" (join ":" (String c (":\" +:+ p) :: segs))
       = Ok (String c (":\" +:+ p), segs)).
Proof.
  split; [apply parse_zip_path_join | apply parse_zip_path_drive].
Qed.

Lemma resolver_undoes_addresses_witness :
  _parse_zip_path "/" (join ":" ["/d/pack.zip"; "inner.ZIP"; "docs/07-F001-3.xml"])
  = Ok ("/d/pack.zip", ["inner.ZIP"; "docs/07-F001-3.xml"])
  ∧ _parse_zip_path "\" (join ":" [String "C" (":\" +:+ "sunat\pack.zip");
                                   "inner.ZIP"; "docs/07-F001-3.xml"])
    = Ok (String "C" (":\" +:+ "sunat\pack.zip"), ["inner.ZIP"; "docs/07-F001-3.xml"]).
Proof.
  destruct resolver_undoes_addresses as [Hposix Hdrive]. split.
  - apply Hposix; [by_vm | cbn; lia |].
    repeat (constructor; [by_vm |]). constructor.
  - apply Hdrive.
    + by_vm.
    + apply (bool_decide_unpack _). vm_compute. exact I.
    + apply (bool_decide_unpack _). vm_compute. exact I.
    + by_vm.
    + repeat (constructor; [by_vm |]). constructor.
Defined.

(** ** The exceptions that leave the packager *)







(** ** What the log does not change *)




























(** ** The statistics of [/process] *)

Lemma Counter_step_lookup (l : list string) :
  ∀ (m : gmap string nat) (c : string),
    fold_left (fun m c => <[c := S (default 0 (m !! c))]> m) l m !! c
    = match length (filter (fun x => x = c) l) with
      | 0 => m !! c
      | S n => Some (S n + default 0 (m !! c))
      end.
Proof.
  induction l as [| x l IH]; intros m c; simpl; [reflexivity |].
  rewrite IH, filter_cons. destruct (decide (x = c)) as [-> | Hne].
  - rewrite lookup_insert_eq. simpl.
    destruct (length (filter (fun x => x = c) l)); f_equal; lia.
  - now rewrite lookup_insert_ne.
Qed.

Lemma Counter_lookup (l : list string) (c : string) :
  Counter l !! c = match length (filter (fun x => x = c) l) with
                   | 0 => None
                   | S n => Some (S n)
                   end.
Proof.
  unfold Counter. rewrite Counter_step_lookup, lookup_empty. simpl.
  destruct (length _); [reflexivity | f_equal; lia].
Qed.

Lemma record_tag (d : disk) search_path records (r : file_info) :
  find_files d search_path = Ok records -> r ∈ records ->
  ∃ doc_type, doc_type ∈ map fst PATRONES_ESTRUCTURADOS
              ∧ r !! "classification" = Some doc_type.
Proof.
  intros Hfind Hr.
  destruct (record_origin _ _ _ _ Hfind Hr) as (t & f & a & info & flag & Hd & Hw & Hi & E).
  unfold classify, _analyze_filename in Hi.
  destruct (first_match_spec PATRONES_ESTRUCTURADOS f a registry_ok)
    as [[_ H] | (pre & doc & p & fields & post & g & info' & Ereg & _ & Hm & H & Hc & _)];
    rewrite H in Hi; [discriminate |]. injection Hi as <-.
  exists doc. split.
  - rewrite Ereg, map_app. apply elem_of_app. right. left.
  - subst r. now rewrite lookup_insert_ne.
Qed.

Lemma tags_counted (tag : file_info -> string) (c : string) (l : list file_info) :
  length (filter (fun x => x = c) (map tag l))
  = length (filter (fun r => tag r = c) l).
Proof.
  induction l as [| r l IH]; [reflexivity |]. simpl.
  rewrite !filter_cons. destruct (decide (tag r = c)); simpl; now rewrite IH.
Qed.

(** X18: the statistics that [/process] returns count the packaged
    records by tag.  For the records of a run, a tag is a key of the
    counter exactly when a record flagged [UNICO] carries it, its count is
    the number of those records, and every key is a tag of the registry:
    the default ['unknown'] never shows. *)
Theorem stats_count_the_tags (d : disk) search_path records :
  find_files d search_path = Ok records ->
  let stats := Counter (map (fun f : file_info => default "unknown" (f !! "classification"))
                            (unique_records records)) in
  (∀ c n, stats !! c = Some n
          <-> 1 <= n
              ∧ n = length (filter (fun r : file_info => r !! "classification" = Some c)
                              (unique_records records)))
  ∧ (∀ c, is_Some (stats !! c) -> c ∈ map fst PATRONES_ESTRUCTURADOS)
  ∧ stats !! "unknown" = None.
Proof.
  intros Hfind stats.
  assert (Htag : ∀ r, r ∈ unique_records records ->
            ∃ doc, doc ∈ map fst PATRONES_ESTRUCTURADOS ∧ r !! "classification" = Some doc).
  { intros r Hr. apply list_elem_of_filter in Hr as [_ Hr]. eapply record_tag; eassumption. }
  assert (Hcount : ∀ c,
            length (filter (fun x => x = c)
                      (map (fun f : file_info => default "unknown" (f !! "classification"))
                           (unique_records records)))
            = length (filter (fun r : file_info => r !! "classification" = Some c)
                        (unique_records records))).
  { intros c. rewrite tags_counted.
    induction (unique_records records) as [| r l IH]; [reflexivity |].
    destruct (Htag r ltac:(left)) as (doc & _ & Hdoc).
    rewrite !filter_cons, Hdoc. simpl.
    destruct (decide (doc = c)) as [-> | Hne].
    - rewrite decide_True by reflexivity. simpl. f_equal. apply IH.
      intros r' Hr'. apply Htag. now right.
    - rewrite decide_False by congruence. apply IH.
      intros r' Hr'. apply Htag. now right. }
  assert (Hkey : ∀ c, is_Some (stats !! c) -> c ∈ map fst PATRONES_ESTRUCTURADOS).
  { intros c [n Hn]. unfold stats in Hn. rewrite Counter_lookup, Hcount in Hn.
    destruct (filter _ _) as [| r l] eqn:Ef; [discriminate |].
    assert (Hr : r ∈ filter (fun r : file_info => r !! "classification" = Some c)
                   (unique_records records)) by (rewrite Ef; left).
    apply list_elem_of_filter in Hr as [Hc Hr].
    destruct (Htag r Hr) as (doc & Hdoc & E). congruence. }
  split_and!.
  - intros c n. unfold stats. rewrite Counter_lookup, Hcount.
    destruct (length _) as [| k]; split.
    + discriminate.
    + intros [? ->]. lia.
    + intros [= <-]. split; [lia | reflexivity].
    + intros [_ ->]. reflexivity.
  - exact Hkey.
  - destruct (stats !! "unknown") as [n |] eqn:E; [| reflexivity].
    exfalso. assert (H : "unknown" ∈ map fst PATRONES_ESTRUCTURADOS) by (apply Hkey; eauto).
    revert H. apply (bool_decide_unpack _). vm_compute. exact I.
Qed.

Lemma stats_count_the_tags_witness :
  let stats := Counter (map (fun f : file_info => default "unknown" (f !! "classification"))
                            (unique_records example_records)) in
  (∀ c n, stats !! c = Some n
          <-> 1 <= n
              ∧ n = length (filter (fun r : file_info => r !! "classification" = Some c)
                              (unique_records example_records)))
  ∧ (∀ c, is_Some (stats !! c) -> c ∈ map fst PATRONES_ESTRUCTURADOS)
  ∧ stats !! "unknown" = None.
Proof.
  apply (stats_count_the_tags example_disk "/d" example_records). by_vm.
Defined.

(** ** The log of the removals *)








(** ** From the request to the archive *)

Lemma path_join_abs (a b : string) : isabs a = true -> isabs (path_join a b) = true.
Proof.
  unfold isabs, path_join. intros Ha. destruct (startswith b "/") eqn:Eb; [exact Eb |].
  apply startswith_slash in Ha as [t ->].
  destruct (_ || _); apply startswith_slash; simpl; eauto.
Qed.

Lemma os_walk_abs (t : dirtree) :
  ∀ top, isabs top = true -> ∀ rf, rf ∈ os_walk top t -> isabs (fst rf) = true.
Proof.
  induction t as [files dirs IH] using dirtree_nested_ind. intros top Htop rf Hrf.
  simpl in Hrf. apply elem_of_cons in Hrf as [-> | Hrf]; [exact Htop |].
  apply elem_of_flat_map in Hrf as (d & Hd & Hrf).
  rewrite Forall_forall in IH. eapply (IH d Hd); [| exact Hrf]. now apply path_join_abs.
Qed.

Lemma walked_files_abs (top : string) (t : dirtree) (pf : string * blob) :
  isabs top = true -> pf ∈ walked_files top t -> isabs (fst pf) = true.
Proof.
  intros Htop Hpf. unfold walked_files in Hpf.
  apply elem_of_flat_map in Hpf as (rf & Hrf & Hpf).
  apply list_elem_of_In, in_map_iff in Hpf as (f & <- & _). cbn [fst].
  apply path_join_abs. eapply os_walk_abs; eassumption.
Qed.

Lemma process_log_relative (timestamp : string) : isabs (process_log timestamp) = false.
Proof. reflexivity. Qed.

Lemma find_files_at (d d' : disk) (search_path : string) :
  d' !! search_path = d !! search_path ->
  find_files d' search_path = find_files d search_path.
Proof. unfold find_files, find_files_run. now intros ->. Qed.

Lemma Forall2_impl_in {A B} (P Q : A -> B -> Prop) (l : list A) (k : list B) :
  Forall2 P l k -> (∀ x y, x ∈ l -> P x y -> Q x y) -> Forall2 Q l k.
Proof.
  induction 1 as [| x y l k Hxy _ IH]; intros H; constructor.
  - apply H; [left | exact Hxy].
  - apply IH. intros x' y' Hx'. apply H. now right.
Qed.

(** X20: from the request to the archive.  On two absolute paths to
    directories, the first holding a tidy tree in which the output
    archive is no file, with no fault of the environment and [logs] no
    regular file, [/process] answers that the processing is complete as
    soon as the scan finds a record, and the output archive then holds
    exactly one member for each record flagged [UNICO], in their order,
    under the name of the record and with the bytes that its address
    had before the call, whether deletion was asked for or not. *)
Theorem process_packs_a_tidy_tree env timestamp request (s : pstate) t records :
  isabs (search_path request) = true ->
  fs s !! search_path request = Some (Directory t) ->
  isabs (output_dir request) = true ->
  isdir (fs s) (output_dir request) = true ->
  tidy_tree (search_path request) t = true ->
  holds_tree (fs s) (search_path request) t ->
  Forall (fun pf => fst pf ≠ output_archive request timestamp)
         (walked_files (search_path request) t) ->
  process_fails env (fs s) (output_archive request timestamp) = false ->
  (∀ n, writestr_fails env n = false) ->
  find_files (fs s) (search_path request) = Ok records ->
  records ≠ [] ->
  ∃ s' members,
    process_endpoint env timestamp request s
    = (Ok (ProcessingComplete
             (length records) (length (unique_records records))
             (Counter (map (fun f : file_info => default "unknown" (f !! "classification"))
                           (unique_records records)))
             (output_archive request timestamp) (process_log timestamp)), s')
    ∧ fs s' !! output_archive request timestamp = Some (RegularFile (ZipData members))
    ∧ Forall2 (member_of_record s) (unique_records records) members.
Proof.
  intros Hsa Hd Hoa Hod Htidy Hholds Hout Hfail Hw Hfind Hne.
  assert (Hsd : isdir (fs s) (search_path request) = true) by (unfold isdir; now rewrite Hd).
  destruct (call_find_files_run (search_path request) s)
    as (records' & s1 & Hcall & Hfind' & Hfs & _).
  assert (records' = records) as -> by congruence. clear Hfind'.
  unfold process_fails in Hfail.
  apply orb_false_iff in Hfail as [Hfail Hclose].
  apply orb_false_iff in Hfail as [Hfail Hisdir].
  apply orb_false_iff in Hfail as [Hlogs Hopen].
  destruct (output_archive_not_its_directory request timestamp Hoa) as [Hdn Hnl].
  (* the records and what is prepared from them *)
  assert (Hkeys : Forall (fun r : file_info => is_Some (r !! "path")) records).
  { apply Forall_forall. intros r Hr.
    destruct (records_keys _ _ _ r Hfind Hr) as (f & a & _ & -> & _). eauto. }
  destruct (prepare_total records Hkeys [] ∅) as (pkg & del & Hprep).
  pose proof Hprep as Hspec. apply prepare_spec in Hspec as [Hpkg Hdel]. cbn [app] in Hpkg.
  change (filter (λ r : file_info, r !! "status" = Some "UNICO") records)
    with (unique_records records) in Hpkg.
  subst pkg.
  assert (Hlen : unique_records records ≠ []).
  { destruct records as [| r0 rest]; [done |].
    unfold unique_records. rewrite filter_cons, decide_True; [discriminate |].
    eapply first_record_unico; eassumption. }
  (* the files of the walk are away from the directory of the logs *)
  assert (Haway : ∀ pf, pf ∈ walked_files (search_path request) t -> fst pf ≠ "logs").
  { intros pf Hpf E. apply (walked_files_abs _ _ _ Hsa) in Hpf. now rewrite E in Hpf. }
  (* the two directories *)
  assert (Hmk1 : makedirs_exist_ok (output_dir request) s1 = (Ok tt, s1)).
  { unfold makedirs_exist_ok, bind, get. unfold isdir in Hod. rewrite Hfs.
    destruct (fs s !! output_dir request) as [[|] |]; done. }
  assert (Hmk2 : ∃ s2, makedirs_exist_ok "logs" s1 = (Ok tt, s2)
                       ∧ ∀ p, p ≠ "logs" -> fs s2 !! p = fs s !! p).
  { unfold makedirs_exist_ok, bind, get. rewrite Hfs.
    destruct (fs s !! "logs") as [[data | tl] |]; [discriminate | |].
    - exists s1. split; [reflexivity | intros; now rewrite Hfs].
    - eexists. split; [reflexivity |]. intros p Hp. cbn.
      rewrite lookup_insert_ne by congruence. now rewrite Hfs. }
  destruct Hmk2 as (s2 & Hmk2 & Hfs2).
  assert (Hsp : search_path request ≠ "logs") by (intros E; now rewrite E in Hsa).
  (* the packaging *)
  destruct (packs_tidy_tree env s2 (search_path request) t records
              (if delete_originals request then del else ∅)
              (output_archive request timestamp) (Some (process_log timestamp)))
    as (s' & members & Hrun & Hmembers & Hall); try assumption.
  { now rewrite Hfs2. }
  { apply Forall_forall. intros pf Hpf. rewrite Hfs2 by now apply Haway.
    unfold holds_tree in Hholds. rewrite Forall_forall in Hholds. now apply Hholds. }
  { rewrite (find_files_at (fs s)); [exact Hfind | now apply Hfs2]. }
  { unfold isdir. rewrite Hfs2 by exact Hnl. exact Hisdir. }
  { destruct (delete_originals request); [| apply not_elem_of_empty].
    intros Hin. apply Hdel in Hin as [Hin | (r & a & Hr & Ha & Hbase)];
      [now apply not_elem_of_empty in Hin |].
    destruct (records_walked _ _ _ _ _ _ Hd Hfind Hr Ha) as [f Hwalk].
    apply walked_base in Hwalk as (base & data & Hin & Hshape).
    rewrite Forall_forall in Hout. pose proof (Hout _ Hin) as Hbo. cbn [fst] in Hbo.
    unfold tidy_tree in Htidy. rewrite forallb_forall in Htidy.
    pose proof (Htidy _ (proj1 (list_elem_of_In _ _) Hin)) as Ht.
    unfold tidy_file in Ht. rewrite !andb_true_iff in Ht. destruct Ht as [[Hc _] _].
    apply clean_text_spec in Hc as [Hnc _]. cbn [fst] in Hnc.
    destruct (split_base base Hnc) as [Hb1 Hb2].
    destruct Hshape as [-> | [rest ->]]; [rewrite Hb1 in Hbase | rewrite Hb2 in Hbase];
      congruence. }
  { intros [= E]. pose proof (process_log_relative timestamp) as Hrel.
    rewrite E in Hrel. destruct (output_archive_chars request timestamp Hoa) as [mid Hmid].
    unfold isabs, startswith in Hrel. rewrite Hmid in Hrel. discriminate. }
  exists s', members. split_and!; [| exact Hmembers |].
  - unfold process_endpoint. rewrite bind_run. unfold get at 1. cbv beta iota zeta.
    rewrite Hsa, Hsd, Hoa, Hod. cbn [negb orb].
    unfold try_except. rewrite bind_run, Hcall.
    destruct records as [| r0 rest] eqn:Erec; [done |]. rewrite <- Erec in *.
    rewrite Erec at 1. rewrite <- Erec.
    rewrite bind_run. unfold lift at 1. rewrite Hprep. cbn [fst snd].
    destruct (unique_records records) as [| p0 pkgs] eqn:Epkg; [done |].
    rewrite <- Epkg in *.
    rewrite bind_run, Hmk1, bind_run, Hmk2, bind_run.
    fold (output_archive request timestamp). fold (process_log timestamp).
    rewrite Hrun. reflexivity.
  - apply (Forall2_impl_in _ _ _ _ Hall). intros r zi Hr.
    intros (filename & full_path & base & inner & Hf & Hp & Hz & Hparse & Hsrc).
    exists filename, full_path, base, inner. split_and!; try assumption.
    apply list_elem_of_filter in Hr as [_ Hr].
    destruct (record_address_resolves s _ _ _ _ _ Hd Htidy Hholds Hfind Hr Hp)
      as (base' & data & inner' & b & Hin & _ & Hparse' & _).
    assert (base' = base) as -> by congruence.
    apply (source_bytes_lookup s2 s); [| exact Hsrc].
    symmetry. apply Hfs2. exact (Haway _ Hin).
Qed.

Lemma process_packs_a_tidy_tree_witness :
  ∃ s' members,
    process_endpoint no_faults "T" example_request (initial example_disk)
    = (Ok (ProcessingComplete
             (length example_records) (length (unique_records example_records))
             (Counter (map (fun f : file_info => default "unknown" (f !! "classification"))
                           (unique_records example_records)))
             (output_archive example_request "T") (process_log "T")), s')
    ∧ fs s' !! output_archive example_request "T" = Some (RegularFile (ZipData members))
    ∧ Forall2 (member_of_record (initial example_disk)) (unique_records example_records)
              members.
Proof.
  apply (process_packs_a_tidy_tree no_faults "T" example_request (initial example_disk)
           example_tree example_records).
  - by_vm.
  - by_vm.
  - by_vm.
  - by_vm.
  - by_vm.
  - unfold holds_tree.
    let l := eval vm_compute in (walked_files "/d" example_tree) in
    change (walked_files (search_path example_request) example_tree) with l.
    repeat (constructor; [by_vm |]). constructor.
  - let l := eval vm_compute in (walked_files "/d" example_tree) in
    change (walked_files (search_path example_request) example_tree) with l.
    let o := eval vm_compute in (output_archive example_request "T") in
    change (output_archive example_request "T") with o.
    repeat (constructor; [intros [=] |]). constructor.
  - by_vm.
  - reflexivity.
  - by_vm.
  - assert (H : (0 <? length example_records)%nat = true) by by_vm.
    intros E. rewrite E in H. discriminate H.
Defined.
